(** * DocuSearch: tokenizer, indexer, query engine, LRU cache, search service

    A shallow embedding of the Python sources under [backend/index] and
    [backend/service], with the properties of the design document proved
    (or refuted) on it.

    Conventions of the embedding
    - Python [str] values are [string]s whose characters are the code
      points U+0000..U+00FF.  On that range [str.lower], the regular
      expression [[^a-z0-9]+] and [str.split]/[str.strip] are modelled
      exactly; every term the tokenizer produces is plain ASCII.
    - Python [float] values are real numbers ([R]); [math.log] is [ln] and
      [math.sqrt] is [sqrt].  Rounding is not modelled.
    - Python [dict]s are [gmap]s, Python [set]s are [gset]s.  A dict whose
      keys are document ids carries keys of type [pykey], because the JSON
      round trip turns integer keys into string keys.
    - A function that can raise returns a sum type with the error on the
      right. *)

From Stdlib Require Import Ascii String List Reals Lra Lia.
From stdpp Require Import base gmap sets list strings sorting pretty.

Local Open Scope string_scope.
Local Open Scope list_scope.
Local Open Scope nat_scope.

(** ** backend/index/preprocess.py *)

Module Preprocess.

(** [STOPWORDS: Set[str]] *)
Definition STOPWORDS : gset string := list_to_set
  [ "a";"an";"the";"and";"or";"but";"if";"then";"else";"for";"to";"of";"in";
    "on";"at";"by";"with";"is";"are";"was";"were";"be";"been";"being";"it";
    "its";"as";"that";"this";"these";"those";"not";"no";"do";"does";"did";
    "how";"why";"what";"which";"who";"whom";"from" ].

Definition code (c : ascii) : nat := nat_of_ascii c.

(** [lo <= n <= hi] on character codes. *)
Definition between (lo hi n : nat) : bool := Nat.leb lo n && Nat.leb n hi.

(** One character of [str.lower()]: A-Z, and the upper-case letters of the
    Latin-1 block (U+00C0..U+00DE without the multiplication sign). *)
Definition lower_char (c : ascii) : ascii :=
  let n := code c in
  if between 65 90 n then ascii_of_nat (n + 32)
  else if between 192 222 n && negb (Nat.eqb n 215) then ascii_of_nat (n + 32)
  else c.

(** [text.lower()] *)
Fixpoint lower (s : string) : string :=
  match s with
  | EmptyString => EmptyString
  | String c r => String (lower_char c) (lower r)
  end.

(** The character class [[a-z0-9]]. *)
Definition is_term_char (c : ascii) : bool :=
  let n := code c in
  between 97 122 n || between 48 57 n.

(** [_TOKEN_RE.sub(" ", text)] with [_TOKEN_RE = [^a-z0-9]+]: every maximal
    run of characters outside the class becomes one space.  [in_run] tells
    that the previous character already belonged to the run being
    replaced. *)
Fixpoint token_re_sub_from (in_run : bool) (s : string) : string :=
  match s with
  | EmptyString => EmptyString
  | String c r =>
      if is_term_char c then String c (token_re_sub_from false r)
      else if in_run then token_re_sub_from true r
      else String " " (token_re_sub_from true r)
  end.

Definition token_re_sub (s : string) : string := token_re_sub_from false s.

(** White space of [str.split()] and [str.strip()] ([str.isspace]) among
    the code points below 256. *)
Definition is_space (c : ascii) : bool :=
  let n := code c in
  between 9 13 n || between 28 32 n || Nat.eqb n 133 || Nat.eqb n 160.

Definition cons_word (w : string) (ws : list string) : list string :=
  match w with
  | EmptyString => ws
  | _ => w :: ws
  end.

(** [split_go s] is the word that starts at the head of [s] (empty when [s]
    starts with white space) and the words after it. *)
Fixpoint split_go (s : string) : string * list string :=
  match s with
  | EmptyString => (EmptyString, [])
  | String c r =>
      let '(w, ws) := split_go r in
      if is_space c then (EmptyString, cons_word w ws)
      else (String c w, ws)
  end.

(** [text.split()] *)
Definition split (s : string) : list string :=
  let '(w, ws) := split_go s in cons_word w ws.

(** [def preprocess(text, stopwords=STOPWORDS)] *)
Definition preprocess_with (stopwords : gset string) (text : string) : list string :=
  match text with
  | EmptyString => []
  | _ =>
      let text := lower text in
      let text := token_re_sub text in
      filter (λ t, t ≠ EmptyString ∧ t ∉ stopwords) (split text)
  end.

Definition preprocess (text : string) : list string :=
  preprocess_with STOPWORDS text.

(** [" ".join(toks)] *)
Fixpoint join_space (toks : list string) : string :=
  match toks with
  | [] => EmptyString
  | [t] => t
  | t :: rest => String.append t (String " " (join_space rest))
  end.

End Preprocess.

(** ** Python values shared by the modules *)

(** Keys of the dicts indexed by document id: [int] in a freshly built
    index, [str] in one that came back from JSON. *)
Inductive pykey : Type :=
  | KInt (n : nat)
  | KStr (s : string).

Global Instance pykey_eq_dec : EqDecision pykey.
Proof. solve_decision. Defined.

Global Instance pykey_countable : Countable pykey.
Proof.
  refine (inj_countable'
    (λ k, match k with KInt n => inl n | KStr s => inr s end)
    (λ x, match x with inl n => KInt n | inr s => KStr s end) _).
  by intros [].
Defined.

(** One postings entry, [{"doc_id": doc_id, "tf": tf}]. *)
Record posting : Type := Posting { doc_id : nat; tf : nat }.

Global Instance posting_eq_dec : EqDecision posting.
Proof. solve_decision. Defined.

(** The dict returned by [build_index] and read by [search].  A key that is
    missing from the Python dict is an empty map here, which is what
    [index.get(key, {})] makes of it. *)
Record Index : Type := mkIndex {
  doc_id_map : gmap pykey string;
  forward_index : gmap pykey string;
  postings : gmap string (list posting);
  df : gmap string nat;
  idf : gmap string R;
  N : nat;
  doc_norm : gmap pykey R
}.

(** Exceptions that the modelled code raises itself. *)
Inductive exn : Type :=
  | ValueError (msg : string).

Global Instance R_eq_dec : EqDecision R := Req_dec_T.
Global Instance Rlt_decision : RelDecision Rlt := Rlt_dec.

(** [sorted(xs)] and [xs.sort()] on document ids. *)
Definition sorted_nat (l : list nat) : list nat := merge_sort le l.

(** ** backend/index/indexer.py *)

Module Indexer.
Import Preprocess.

(** [text.strip()] *)
Fixpoint lstrip (s : string) : string :=
  match s with
  | EmptyString => EmptyString
  | String c r => if is_space c then lstrip r else s
  end.

Fixpoint rstrip (s : string) : string :=
  match s with
  | EmptyString => EmptyString
  | String c r =>
      match rstrip r with
      | EmptyString => if is_space c then EmptyString else String c EmptyString
      | r' => String c r'
      end
  end.

Definition strip (s : string) : string := rstrip (lstrip s).

(** One entry of [sorted(os.listdir(documents_dir))], as the loop body sees
    it: the path, and the text that the extractor returned for it.
    [extracted] is [None] when the loop reaches [continue] before [strip]:
    the extension is not [.pdf], [.docx] or [.doc], or the extractor
    raised. *)
Record source_file : Type := SourceFile {
  file_path : string;
  extracted : option string
}.

(** [Counter(tokens)]: a count per distinct token, keys in the order of
    their first occurrence. *)
Fixpoint counter_add (t : string) (c : list (string * nat)) : list (string * nat) :=
  match c with
  | [] => [(t, 1)]
  | (u, n) :: r => if decide (t = u) then (u, S n) :: r else (u, n) :: counter_add t r
  end.

Definition Counter (tokens : list string) : list (string * nat) :=
  foldl (λ c t, counter_add t c) [] tokens.

(** The variables that the loop over the files updates. *)
Record build_state : Type := BuildState {
  st_doc_id_map : gmap pykey string;
  st_forward_index : gmap pykey string;
  st_postings : gmap string (list posting);
  st_df : gmap string nat;
  st_doc_id : nat
}.

Definition init_state : build_state :=
  BuildState ∅ ∅ ∅ ∅ 0.

(** [postings[token].append({"doc_id": doc_id, "tf": int(tf)}); df[token] += 1]
    on the two [defaultdict]s. *)
Definition add_posting (d : nat)
    (acc : gmap string (list posting) * gmap string nat) (item : string * nat)
    : gmap string (list posting) * gmap string nat :=
  let '(p, f) := acc in
  let '(token, n) := item in
  (<[token := default [] (p !! token) ++ [Posting d n]]> p,
   <[token := S (default 0 (f !! token))]> f).

(** The body of [for filename in sorted(os.listdir(documents_dir))]. *)
Definition index_file (st : build_state) (f : source_file) : build_state :=
  match extracted f with
  | None => st
  | Some raw =>
      let text := strip raw in
      match text with
      | EmptyString => st
      | _ =>
          let d := st_doc_id st in
          let tokens := preprocess text in
          let '(p, f') :=
            match tokens with
            | [] => (st_postings st, st_df st)
            | _ => foldl (add_posting d) (st_postings st, st_df st) (Counter tokens)
            end in
          BuildState (<[KInt d := file_path f]> (st_doc_id_map st))
                     (<[KInt d := text]> (st_forward_index st))
                     p f' (S d)
      end
  end.

(** [math.log((N + 1) / (dfi + 1)) + 1.0] *)
Definition idf_of (n dfi : nat) : R :=
  (ln (INR (n + 1) / INR (dfi + 1)) + 1)%R.

(** [doc_norm[entry["doc_id"]] += (w_tf * w_idf) ** 2] on a
    [defaultdict(float)]. *)
Definition add_norm (w_idf : R) (dn : gmap pykey R) (entry : posting) : gmap pykey R :=
  let w_tf := (1 + ln (INR (tf entry)))%R in
  let k := KInt (doc_id entry) in
  <[k := (default 0%R (dn !! k) + (w_tf * w_idf) ^ 2)%R]> dn.

(** [for token, plist in postings.items(): w_idf = idf[token]; for entry in
    plist: ...].  [idf[token]] cannot raise [KeyError] there, [idf] has the
    keys of [df], which are those of [postings]. *)
Definition norm_squares (postings : gmap string (list posting))
    (idf : gmap string R) : gmap pykey R :=
  foldl (λ dn '(token, plist), foldl (add_norm (default 0%R (idf !! token))) dn plist)
        ∅ (map_to_list postings).

(** [plist.sort(key=lambda x: x["doc_id"])] *)
Definition doc_id_le (a b : posting) : Prop := doc_id a ≤ doc_id b.

Global Instance doc_id_le_dec : RelDecision doc_id_le.
Proof. intros a b. unfold doc_id_le. apply _. Defined.

Definition sort_plist (plist : list posting) : list posting :=
  merge_sort doc_id_le plist.

(** What follows the loop over the files. *)
Definition finish (st : build_state) : Index :=
  let postings := sort_plist <$> st_postings st in
  let n := size (st_doc_id_map st) in
  let idf := idf_of n <$> st_df st in
  let doc_norm := sqrt <$> norm_squares postings idf in
  mkIndex (st_doc_id_map st) (st_forward_index st) postings (st_df st) idf n doc_norm.

(** [def build_index(documents_dir)], on the sorted directory listing. *)
Definition build_index (files : list source_file) : Index :=
  finish (foldl index_file init_state files).

End Indexer.

(** ** backend/index/search.py *)

Module Search.
Import Preprocess.

(** [{e["doc_id"] for e in plist}] *)
Definition doc_ids (plist : list posting) : gset nat :=
  list_to_set (doc_id <$> plist).

(** The loop [for plist in posting_lists[1:]] with its early [return []],
    which is [None] here. *)
Fixpoint intersect_rest (common : gset nat) (rest : list (list posting))
    : option (gset nat) :=
  match rest with
  | [] => Some common
  | plist :: rest' =>
      let common' := common ∩ doc_ids plist in
      if decide (common' = ∅) then None else intersect_rest common' rest'
  end.

(** The order of [sorted(posting_lists, key=len)]. *)
Definition len_le (a b : list posting) : Prop := length a ≤ length b.

Global Instance len_le_dec : RelDecision len_le.
Proof. intros a b. unfold len_le. apply _. Defined.

(** [def _and_intersect(posting_lists)] *)
Definition _and_intersect (posting_lists : list (list posting)) : list nat :=
  match posting_lists with
  | [] => []
  | _ =>
      match merge_sort len_le posting_lists with
      | [] => []
      | base :: rest =>
          match intersect_rest (doc_ids base) rest with
          | None => []
          | Some common => sorted_nat (elements common)
          end
      end
  end.

(** The loop [for t in tokens: plist = postings.get(t); if not plist: return
    []; lists.append(plist)]; [None] is the early return. *)
Fixpoint collect_lists (postings : gmap string (list posting)) (tokens : list string)
    : option (list (list posting)) :=
  match tokens with
  | [] => Some []
  | t :: ts =>
      match postings !! t with
      | None | Some [] => None
      | Some plist => (plist ::.) <$> collect_lists postings ts
      end
  end.

(** [set(tokens)], in the order in which the loops visit it. *)
Definition distinct (tokens : list string) : list string :=
  elements (list_to_set tokens : gset string).

(** [d = {}; for e in postings[t]: d[e["doc_id"]] = e["tf"]] *)
Definition tf_dict (plist : list posting) : gmap nat nat :=
  foldl (λ d e, <[doc_id e := tf e]> d) ∅ plist.

(** [tf_map], built by the loop over [set(tokens)]; [postings[t]] is
    present for every token when this point is reached. *)
Definition build_tf_map (postings : gmap string (list posting)) (terms : list string)
    : gmap string (gmap nat nat) :=
  foldl (λ m t, <[t := tf_dict (default [] (postings !! t))]> m) ∅ terms.

(** The inner loop over [set(tokens)] for one document, [s] being the sum so
    far; [if not tf: s = 0.0; break] ends it with 0. *)
Fixpoint sum_terms (tf_map : gmap string (gmap nat nat)) (idf : gmap string R)
    (d : nat) (terms : list string) (s : R) : R :=
  match terms with
  | [] => s
  | t :: ts =>
      match tf_map !! t ≫= (.!! d) with
      | None | Some 0 => 0%R
      | Some n =>
          let w_tf := (1 + ln (INR n))%R in
          let w_idf := default 0%R (idf !! t) in
          sum_terms tf_map idf d ts (s + w_tf * w_idf)%R
      end
  end.

(** The body of [for d in candidate_docs], giving [scores[d]]. *)
Definition score_doc (index : Index) (tf_map : gmap string (gmap nat nat))
    (terms : list string) (d : nat) : R :=
  let s := sum_terms tf_map (idf index) d terms 0%R in
  let norm := default 1%R (doc_norm index !! KInt d) in
  if decide (0 < norm)%R then (s / norm)%R else s.

(** The sort key [lambda x: (-x[1], x[0])] and the order of its tuples. *)
Definition rank_key (x : nat * R) : R * nat := ((- x.2)%R, x.1).

Definition key_le (a b : R * nat) : Prop :=
  (a.1 < b.1)%R ∨ (a.1 = b.1 ∧ a.2 ≤ b.2).

Definition rank_le (x y : nat * R) : Prop := key_le (rank_key x) (rank_key y).

Global Instance rank_le_dec : RelDecision rank_le.
Proof. intros x y. unfold rank_le, key_le. apply _. Defined.

(** [def search(query, index)].  [candidate_docs] has no duplicates, so the
    dict [scores] holds one item per candidate, in that order. *)
Definition search (query : string) (index : Index) : list (nat * R) :=
  let tokens := preprocess query in
  match tokens with
  | [] => []
  | _ =>
      match collect_lists (postings index) tokens with
      | None => []
      | Some lists =>
          let candidate_docs := _and_intersect lists in
          match candidate_docs with
          | [] => []
          | _ =>
              let terms := distinct tokens in
              let tf_map := build_tf_map (postings index) terms in
              let scores := (λ d, (d, score_doc index tf_map terms d)) <$> candidate_docs in
              merge_sort rank_le scores
          end
      end
  end.

End Search.

(** ** backend/index/storage.py *)

Module Storage.

(** The JSON document that [json.dump(index_data, f, indent=2)] writes.  A
    JSON object has string keys only; numbers are written with [repr],
    which [json.load] reads back to the same value. *)
Record IndexJSON : Type := mkIndexJSON {
  j_doc_id_map : gmap string string;
  j_forward_index : gmap string string;
  j_postings : gmap string (list posting);
  j_df : gmap string nat;
  j_idf : gmap string R;
  j_N : nat;
  j_doc_norm : gmap string R
}.

(** The key that the encoder writes for a dict key: [str] keys as they
    are, [int] keys in decimal. *)
Definition json_key (k : pykey) : string :=
  match k with
  | KInt n => pretty n
  | KStr s => s
  end.

(** [def save_index(index_data, path)]: the contents of the file.  (A dict
    that held both the key [n] and the key [str(n)] would get two equal
    JSON keys; [build_index] makes no such dict.) *)
Definition save_index (index : Index) : IndexJSON :=
  mkIndexJSON (kmap json_key (doc_id_map index))
              (kmap json_key (forward_index index))
              (postings index) (df index) (idf index) (N index)
              (kmap json_key (doc_norm index)).

(** [def load_index(path)]: every JSON object becomes a dict with [str]
    keys. *)
Definition load_index (file : IndexJSON) : Index :=
  mkIndex (kmap KStr (j_doc_id_map file))
          (kmap KStr (j_forward_index file))
          (j_postings file) (j_df file) (j_idf file) (j_N file)
          (kmap KStr (j_doc_norm file)).

End Storage.

(** ** backend/service/lru_cache.py *)

Module LRU.

Section cache.
Context {V : Type}.

(** [class LRUCache].  [nodes] is the doubly linked list between the
    sentinels [head] and [tail], front first, each node named by its key;
    [map] sends a key to its node, whose [value] it holds here. *)
Record LRUCache : Type := mkLRU {
  capacity : Z;
  map : gmap string V;
  nodes : list string;
  hits : nat;
  misses : nat
}.

(** [def __init__(self, capacity=256)] *)
Definition init (capacity : Z) : LRUCache + exn :=
  if decide (capacity ≤ 0)%Z then inr (ValueError "capacity must be > 0")
  else inl (mkLRU capacity ∅ [] 0 0).

(** [def _remove(self, node)]: unlink the node of [key]. *)
Fixpoint unlink (key : string) (l : list string) : list string :=
  match l with
  | [] => []
  | k :: r => if decide (k = key) then r else k :: unlink key r
  end.

Definition _remove (key : string) (c : LRUCache) : LRUCache :=
  mkLRU (capacity c) (map c) (unlink key (nodes c)) (hits c) (misses c).

(** [def _insert_front(self, node)] *)
Definition _insert_front (key : string) (c : LRUCache) : LRUCache :=
  mkLRU (capacity c) (map c) (key :: nodes c) (hits c) (misses c).

(** [def _evict_lru(self)]: [lru = self.tail.prev] is the last node. *)
Definition _evict_lru (c : LRUCache) : LRUCache :=
  match last (nodes c) with
  | None => c
  | Some lru =>
      mkLRU (capacity c) (delete lru (map c)) (removelast (nodes c)) (hits c) (misses c)
  end.

(** [def get(self, key)] *)
Definition get (key : string) (c : LRUCache) : option V * LRUCache :=
  match map c !! key with
  | None => (None, mkLRU (capacity c) (map c) (nodes c) (hits c) (S (misses c)))
  | Some value =>
      let c := _insert_front key (_remove key c) in
      (Some value, mkLRU (capacity c) (map c) (nodes c) (S (hits c)) (misses c))
  end.

(** [def put(self, key, value)] *)
Definition put (key : string) (value : V) (c : LRUCache) : LRUCache :=
  match map c !! key with
  | Some _ =>
      let c := mkLRU (capacity c) (<[key := value]> (map c)) (nodes c) (hits c) (misses c) in
      _insert_front key (_remove key c)
  | None =>
      let c := mkLRU (capacity c) (<[key := value]> (map c)) (nodes c) (hits c) (misses c) in
      let c := _insert_front key c in
      if decide (capacity c < Z.of_nat (size (map c)))%Z then _evict_lru c else c
  end.

(** The dict that [stats] returns. *)
Record cache_stats : Type := mkStats {
  stat_capacity : Z;
  stat_size : nat;
  stat_hits : nat;
  stat_misses : nat;
  stat_hit_ratio : R
}.

(** [def stats(self)] *)
Definition stats (c : LRUCache) : cache_stats :=
  let total := hits c + misses c in
  let hit_ratio :=
    match total with
    | 0 => 0%R
    | _ => (INR (hits c) / INR total)%R
    end in
  mkStats (capacity c) (size (map c)) (hits c) (misses c) hit_ratio.

End cache.

Global Arguments LRUCache : clear implicits.

End LRU.

(** ** backend/service/search_service.py *)

Module Service.
Import Preprocess.

(** [class SearchService] *)
Record SearchService : Type := mkService {
  index : Index;
  cache : option (LRU.LRUCache (list (nat * R)));
  total_queries : nat;
  total_time_ms : R
}.

(** The dict that [SearchService.search] returns. *)
Record response : Type := mkResponse {
  results : list (nat * R);
  elapsed_ms : R;
  cached : bool
}.

(** [def __init__(self, index, cache_capacity=0)] *)
Definition init (index : Index) (cache_capacity : Z) : SearchService + exn :=
  if decide (0 < cache_capacity)%Z then
    match LRU.init cache_capacity with
    | inl c => inl (mkService index (Some c) 0 0%R)
    | inr e => inr e
    end
  else inl (mkService index None 0 0%R).

(** [def _normalize_key(self, query)] *)
Definition _normalize_key (query : string) : string :=
  join_space (preprocess query).

(** The last lines that the [return] statements share: [now] is the second
    reading of [time.perf_counter()], [start] the first. *)
Definition reply (svc : SearchService) (start now : R)
    (res : list (nat * R)) (was_cached : bool) (c : option (LRU.LRUCache (list (nat * R))))
    : response * SearchService :=
  let elapsed := ((now - start) * 1000)%R in
  (mkResponse res elapsed was_cached,
   mkService (index svc) c (S (total_queries svc)) (total_time_ms svc + elapsed)%R).

(** [def search(self, query)].  The two clock readings are inputs. *)
Definition search (svc : SearchService) (query : string) (start now : R)
    : response * SearchService :=
  let q := Indexer.strip query in
  match q with
  | EmptyString => reply svc start now [] false (cache svc)
  | _ =>
      let key := _normalize_key q in
      match key with
      | EmptyString => reply svc start now [] false (cache svc)
      | _ =>
          let lookup :=
            match cache svc with
            | Some c => let '(v, c') := LRU.get key c in (v, Some c')
            | None => (None, None)
            end in
          match lookup with
          | (Some hit, c) => reply svc start now hit true c
          | (None, c) =>
              let res := Search.search q (index svc) in
              let c :=
                match c, res with
                | Some c', _ :: _ => Some (LRU.put key res c')
                | _, _ => c
                end in
              reply svc start now res false c
          end
      end
  end.

(** The dict that [SearchService.stats] returns; [stat_cache] is [None]
    for [{"enabled": False}]. *)
Record service_stats : Type := mkServiceStats {
  stat_total_queries : nat;
  stat_avg_latency_ms : R;
  stat_cache : option LRU.cache_stats
}.

(** [def stats(self)] *)
Definition stats (svc : SearchService) : service_stats :=
  let avg :=
    match total_queries svc with
    | 0 => 0%R
    | n => (total_time_ms svc / INR n)%R
    end in
  mkServiceStats (total_queries svc) avg (LRU.stats <$> cache svc).

End Service.

(** ** backend/main.py *)

Module Main.
Import Preprocess.

(** [len(s)] *)
Definition len (s : string) : Z := Z.of_nat (String.length s).

(** A bound of a slice of a sequence of length [n]: a negative bound
    counts from the end, and every bound is brought into [0..n]. *)
Definition slice_bound (n i : Z) : Z :=
  if decide (i < 0)%Z then Z.max 0 (i + n) else Z.min i n.

(** [s[start:stop]] on a string. *)
Definition str_slice (s : string) (start stop : Z) : string :=
  let lo := slice_bound (len s) start in
  let hi := slice_bound (len s) stop in
  substring (Z.to_nat lo) (Z.to_nat (hi - lo)) s.

(** [l[start:stop]] on a list. *)
Definition list_slice {A} (l : list A) (start stop : Z) : list A :=
  let n := Z.of_nat (length l) in
  let lo := slice_bound n start in
  let hi := slice_bound n stop in
  take (Z.to_nat (hi - lo)) (drop (Z.to_nat lo) l).

(** [s.find(sub)]: the first position at which [sub] occurs in [s], and
    [-1] when there is none. *)
Definition find (s sub : string) : Z :=
  match String.index 0 sub s with
  | Some n => Z.of_nat n
  | None => (-1)%Z
  end.

(** [[q.lower().strip() for q in query.split() if q.strip()]] *)
Definition query_terms (query : string) : list string :=
  (λ q, Indexer.strip (lower q))
    <$> filter (λ q, Indexer.strip q ≠ EmptyString) (split query).

(** The loop [for term in query_terms] of [extract_snippet], on
    [best_pos]. *)
Definition best_position (text_lower : string) (terms : list string) (best_pos : Z) : Z :=
  foldl (λ best_pos term,
           let pos := find text_lower term in
           if decide (pos ≠ (-1)%Z ∧ (pos < best_pos)%Z) then pos else best_pos)
        best_pos terms.

(** [def extract_snippet(text, query, max_length=200)].  On code points
    below 256 [text.lower()] has the length of [text]; the code applies
    the position found in [text_lower] to [text]. *)
Definition extract_snippet (text query : string) (max_length : Z) : string :=
  let text_lower := lower text in
  match query_terms query with
  | [] =>
      if decide (len text > max_length)%Z
      then String.append (str_slice text 0 max_length) "..."
      else text
  | terms =>
      let best_pos := best_position text_lower terms (len text) in
      let start := Z.max 0 (best_pos - 50) in
      let end_ := Z.min (len text) (best_pos + max_length - 50) in
      let snippet := str_slice text start end_ in
      let snippet :=
        if decide (start > 0)%Z then String.append "..." snippet else snippet in
      let snippet :=
        if decide (end_ < len text)%Z then String.append snippet "..." else snippet in
      snippet
  end.

(** [def highlight_terms(text, query)] *)
Definition highlight_terms (text query : string) : string := text.

(** [s.split(sep)] for a separator of one character: the pieces between
    the separators, empty ones included; [split_on_go] gives the piece at
    the head and the pieces after it. *)
Fixpoint split_on_go (sep : ascii) (s : string) : string * list string :=
  match s with
  | EmptyString => (EmptyString, [])
  | String c r =>
      let '(w, ws) := split_on_go sep r in
      if decide (c = sep) then (EmptyString, w :: ws) else (String c w, ws)
  end.

Definition split_on (sep : ascii) (s : string) : list string :=
  let '(w, ws) := split_on_go sep s in w :: ws.

(** [s.endswith(suffix)] *)
Definition endswith (s suffix : string) : bool :=
  let n := String.length s in
  let m := String.length suffix in
  Nat.leb m n && String.eqb (substring (n - m) m s) suffix.

(** [os.path.basename(path)]: what follows the last slash. *)
Definition basename (path : string) : string :=
  List.last (split_on "/" path) EmptyString.

(** [raise HTTPException(status_code=..., detail=...)] *)
Inductive http_error : Type :=
  | HTTPException (status_code : nat) (detail : string).

(** [class SearchResultItem(BaseModel)] *)
Record SearchResultItem : Type := mkItem {
  item_id : string;
  item_title : string;
  item_url : string;
  item_snippet : string;
  item_score : R;
  item_type : string;
  item_year : option Z
}.

(** [class FrontendSearchResponse(BaseModel)] *)
Record FrontendSearchResponse : Type := mkFrontend {
  fr_results : list SearchResultItem;
  fr_totalResults : nat;
  fr_page : Z;
  fr_executionTime : R
}.

(** The body of [for doc_id, score in paginated_results] in [api_search],
    giving the item that is appended; [INDEX] is the index of the
    service, [str(doc_id)] and the f-strings write [doc_id] in decimal. *)
Definition result_item (INDEX : Index) (q : string) (r : nat * R) : SearchResultItem :=
  let '(doc_id, score) := r in
  let doc_text := default EmptyString (forward_index INDEX !! KInt doc_id) in
  let file_path := default EmptyString (doc_id_map INDEX !! KInt doc_id) in
  let lines := split_on "010" doc_text in
  let title :=
    match lines with
    | line :: _ => Indexer.strip line
    | [] => basename file_path
    end in
  let title :=
    match title with
    | EmptyString => String.append "Document " (pretty doc_id)
    | _ => title
    end in
  let url :=
    match file_path with
    | EmptyString => String.append "#doc-" (pretty doc_id)
    | _ => String.append "/document/" (pretty doc_id)
    end in
  let snippet := extract_snippet doc_text q 200 in
  let doc_type :=
    if endswith file_path ".pdf" then "pdf"
    else if endswith file_path ".docx" || endswith file_path ".doc" then "doc"
    else "article" in
  mkItem (pretty doc_id) title url snippet score doc_type None.

(** [async def api_search(q, page, limit, filter)], the body: the
    constraints declared for the parameters ([min_length=1], [ge=1],
    [le=100]) are checked by the framework before it runs.  [SERVICE] is
    the service of the module, built on [INDEX]; the two clock readings of
    [SERVICE.search] are inputs.  [filter] is not used. *)
Definition api_search (SERVICE : Service.SearchService) (q : string)
    (page limit : Z) (start now : R)
    : (FrontendSearchResponse + http_error) * Service.SearchService :=
  match Indexer.strip q with
  | EmptyString => (inr (HTTPException 400 "Query 'q' must be non-empty"), SERVICE)
  | _ =>
      let '(search_result, SERVICE') := Service.search SERVICE q start now in
      let all_results := Service.results search_result in
      let total_results := length all_results in
      let start_idx := ((page - 1) * limit)%Z in
      let end_idx := (start_idx + limit)%Z in
      let paginated_results := list_slice all_results start_idx end_idx in
      let transformed_results :=
        result_item (Service.index SERVICE) q <$> paginated_results in
      (inl (mkFrontend transformed_results total_results page
              (Service.elapsed_ms search_result)),
       SERVICE')
  end.

(** [async def health_check()]: the value of ["index_size"]. *)
Definition health_check (INDEX : Index) : nat := N INDEX.

(** One character of the pattern against one character of the text under
    [re.IGNORECASE], for code points below 256. *)
Definition char_matches (p c : ascii) : bool :=
  bool_decide (lower_char p = lower_char c).

(** The pattern [re.escape(term)] matches at the head of [text]. *)
Fixpoint matches_at_head (term text : string) : bool :=
  match term, text with
  | EmptyString, _ => true
  | String p term', String c text' => char_matches p c && matches_at_head term' text'
  | String _ _, EmptyString => false
  end.

(** [re.finditer(pattern, text, re.IGNORECASE)], the starts of the matches:
    the text is scanned from left to right, and after a match the scan
    goes on behind it.  [pos] is the position of the head of [text],
    [skip] the number of characters that still belong to the last
    match. *)
Fixpoint finditer_starts (term : string) (skip pos : nat) (text : string) : list nat :=
  match text with
  | EmptyString => []
  | String _ rest =>
      match skip with
      | S skip' => finditer_starts term skip' (S pos) rest
      | 0 =>
          if matches_at_head term text
          then pos :: finditer_starts term (String.length term - 1) (S pos) rest
          else finditer_starts term 0 (S pos) rest
      end
  end.

(** [def find_term_positions(text, term)] *)
Definition find_term_positions (text term : string) : list nat :=
  match term with
  | EmptyString => []
  | _ => finditer_starts term 0 0 text
  end.

(** [class MatchItem(BaseModel)] *)
Record MatchItem : Type := mkMatch {
  m_term : string;
  m_positions : list nat
}.

(** [class SearchResponseModel(BaseModel)] *)
Record SearchResponseModel : Type := mkSearchResponse {
  sr_query : string;
  sr_matches : list MatchItem;
  sr_total_matches : nat;
  sr_time_ms : R;
  sr_cache : string
}.

(** The two globals of the module that [upload_document] sets and
    [search_document] reads. *)
Record upload_state : Type := mkUpload {
  UPLOADED_DOCUMENT : option string;
  UPLOADED_DOCUMENT_CACHE : gmap string (list MatchItem)
}.

(** [sum(len(m.positions) for m in matches)] *)
Definition total_matches (matches : list MatchItem) : nat :=
  foldr (λ m acc, length (m_positions m) + acc) 0 matches.

(** The body of [for word in query_words] in [search_document], on
    [matches] and [seen_terms].  A word whose [lower()] was seen is
    skipped; on code points below 256 it has the matches of the word seen
    before. *)
Definition match_word (document : string) (acc : list MatchItem * gset string)
    (word : string) : list MatchItem * gset string :=
  let '(matches, seen_terms) := acc in
  if decide (0 < String.length word ∧ lower word ∉ seen_terms) then
    let seen_terms := seen_terms ∪ {[lower word]} in
    match find_term_positions document word with
    | [] => (matches, seen_terms)
    | positions => (matches ++ [mkMatch word positions], seen_terms)
    end
  else (matches, seen_terms).

(** [async def search_document(q)], the body; the two clock readings are
    inputs. *)
Definition search_document (st : upload_state) (q : string) (start_time now : R)
    : (SearchResponseModel + http_error) * upload_state :=
  match UPLOADED_DOCUMENT st with
  | None =>
      (inr (HTTPException 400 "No document uploaded. Please upload a document first."),
       st)
  | Some document =>
      let cache_key := Indexer.strip (lower q) in
      let elapsed_ms := ((now - start_time) * 1000)%R in
      match UPLOADED_DOCUMENT_CACHE st !! cache_key with
      | Some cached_matches =>
          (inl (mkSearchResponse q cached_matches (total_matches cached_matches)
                  elapsed_ms "HIT"),
           st)
      | None =>
          let query_words := split (Indexer.strip q) in
          let matches := (foldl (match_word document) ([], ∅) query_words).1 in
          (inl (mkSearchResponse q matches (total_matches matches) elapsed_ms "MISS"),
           mkUpload (UPLOADED_DOCUMENT st)
                    (<[cache_key := matches]> (UPLOADED_DOCUMENT_CACHE st)))
      end
  end.

End Main.

(** * Vocabulary of the properties *)

Module Vocabulary.
Import Preprocess.

(** Every character of [s] satisfies [p]. *)
Fixpoint all_chars (p : ascii → bool) (s : string) : bool :=
  match s with
  | EmptyString => true
  | String c r => p c && all_chars p r
  end.

(** What the tokenizer calls a term: a non-empty run of [[a-z0-9]]. *)
Definition is_term (t : string) : Prop :=
  t ≠ EmptyString ∧ all_chars is_term_char t = true.

Definition sub_char (c : ascii) : bool :=
  is_term_char c || bool_decide (c = " "%char).

(** The words of [split]: none is empty, none holds white space, and their
    characters come from the text. *)
Definition word_ok (p : ascii → bool) (w : string) : Prop :=
  all_chars p w = true ∧ all_chars (λ c, negb (is_space c)) w = true.

(** The words of a text, before the stop words are dropped: the word at
    the head and the words after it. *)
Definition words_go (b : bool) (s : string) : string * list string :=
  split_go (token_re_sub_from b (lower s)).

Definition flat (p : string * list string) : list string := cons_word p.1 p.2.

(** Document [d] occurs in the postings list of term [t]. *)
Definition has_posting (index : Index) (t : string) (d : nat) : Prop :=
  ∃ plist e, postings index !! t = Some plist ∧ e ∈ plist ∧ doc_id e = d.

(** Term [t] has no usable postings list: no entry, or an empty one. *)
Definition no_postings (index : Index) (t : string) : Prop :=
  postings index !! t = None ∨ postings index !! t = Some [].

(** The order of a ranked result: higher score first, equal scores by
    ascending document id. *)
Definition ranks_before (x y : nat * R) : Prop :=
  (x.2 > y.2)%R ∨ (x.2 = y.2 ∧ x.1 ≤ y.1).

(** How often term [t] occurs among [tokens]. *)
Definition term_count (t : string) (tokens : list string) : nat :=
  length (filter (λ u, u = t) tokens).

(** What holds of the loop variables of [build_index] after every file. *)
Record build_inv (st : Indexer.build_state) : Prop := BuildInv {
  inv_df : Indexer.st_df st = length <$> Indexer.st_postings st;
  inv_sorted : ∀ t pl, Indexer.st_postings st !! t = Some pl →
    pl ≠ [] ∧ StronglySorted lt (doc_id <$> pl)
    ∧ Forall (λ e, doc_id e < Indexer.st_doc_id st) pl;
  inv_size : size (Indexer.st_doc_id_map st) = Indexer.st_doc_id st;
  inv_fresh : ∀ d, Indexer.st_doc_id st ≤ d →
    Indexer.st_doc_id_map st !! KInt d = None
    ∧ Indexer.st_forward_index st !! KInt d = None;
  inv_assigned : ∀ d, d < Indexer.st_doc_id st →
    is_Some (Indexer.st_forward_index st !! KInt d);
  inv_entries : ∀ t d n,
    (∃ pl, Indexer.st_postings st !! t = Some pl ∧ Posting d n ∈ pl)
    ↔ (∃ text, Indexer.st_forward_index st !! KInt d = Some text
         ∧ t ∈ Preprocess.preprocess text
         ∧ n = term_count t (Preprocess.preprocess text))
}.

(** The sum of [f t] over the terms [t] of a list. *)
Definition sum_over (terms : list string) (f : string → R) : R :=
  foldr (λ t acc, (f t + acc)%R) 0%R terms.

(** [(1 + ln(termFrequency)) × inverseDocumentFrequency] for term [t] and a
    document with the tokens [doc_tokens], the inverse document frequency
    being [ln((N+1)/(documentFrequency+1)) + 1]. *)
Definition term_weight (index : Index) (doc_tokens : list string) (t : string) : R :=
  ((1 + ln (INR (term_count t doc_tokens)))
   * (ln (INR (N index + 1)%nat / INR (default 0%nat (df index !! t) + 1)%nat) + 1))%R.

(** What a score is divided by: the norm stored for the document, and 1
    when that norm is zero (or not positive) or absent. *)
Definition norm_divisor (index : Index) (d : nat) : R :=
  match doc_norm index !! KInt d with
  | Some v => if decide (0 < v)%R then v else 1%R
  | None => 1%R
  end.

(** [put] of every item of a list, first to last. *)
Definition put_all {V} (c : LRU.LRUCache V) (items : list (string * V)) : LRU.LRUCache V :=
  foldl (λ c kv, LRU.put kv.1 kv.2 c) c items.

(** The cache that holds the entries [kept], the most recently used last. *)
Definition lru_state {V} (cap : Z) (kept : list (string * V)) (h m : nat) : LRU.LRUCache V :=
  LRU.mkLRU cap (list_to_map kept) (reverse kept.*1) h m.

(** What holds of a cache between two calls of its methods: the list has no
    key twice, it holds the keys of [map] and no other, and no more of them
    than the capacity, which is positive. *)
Record lru_wf {V} (c : LRU.LRUCache V) : Prop := LruWf {
  wf_nodup : NoDup (LRU.nodes c);
  wf_keys : ∀ k, is_Some (LRU.map c !! k) ↔ k ∈ LRU.nodes c;
  wf_capacity : (0 < LRU.capacity c)%Z;
  wf_size : (Z.of_nat (length (LRU.nodes c)) ≤ LRU.capacity c)%Z
}.

(** A call of [get] or of [put]. *)
Inductive lru_op (V : Type) : Type :=
  | OpGet (key : string)
  | OpPut (key : string) (value : V).
Global Arguments OpGet {V} key.
Global Arguments OpPut {V} key value.

Definition run_op {V} (c : LRU.LRUCache V) (op : lru_op V) : LRU.LRUCache V :=
  match op with
  | OpGet key => (LRU.get key c).2
  | OpPut key value => LRU.put key value c
  end.

(** The cache after a sequence of calls. *)
Definition run_ops {V} (c : LRU.LRUCache V) (ops : list (lru_op V)) : LRU.LRUCache V :=
  foldl run_op c ops.

Definition is_get {V} (op : lru_op V) : bool :=
  match op with OpGet _ => true | OpPut _ _ => false end.

(** The recency list after [key] was touched: [key] first, the others in
    their order. *)
Definition touch (key : string) (l : list string) : list string :=
  key :: filter (λ k, k ≠ key) l.

(** The service after a sequence of calls of [search], each with its query
    and its two clock readings. *)
Definition search_all (svc : Service.SearchService) (calls : list (string * (R * R)))
    : Service.SearchService :=
  foldl (λ svc call, (Service.search svc call.1 call.2.1 call.2.2).2) svc calls.

(** What holds of a search service between two calls: the index is the
    one it was built with, the cache (if any) is well formed, and what it
    stores under a key is the non-empty result of searching for that key. *)
Record service_ok (idx : Index) (svc : Service.SearchService) : Prop := ServiceOk {
  ok_index : Service.index svc = idx;
  ok_cache : ∀ c, Service.cache svc = Some c →
    lru_wf c
    ∧ ∀ k v, LRU.map c !! k = Some v → v = Search.search k idx ∧ v ≠ []
}.


(** The files to which [build_index] gives a document id, in their order,
    each with its path and its trimmed text: the files whose extraction
    gave a text that is not empty once trimmed. *)
Definition indexed_docs (files : list Indexer.source_file) : list (string * string) :=
  omap (λ f, match Indexer.extracted f with
             | Some raw =>
                 match Indexer.strip raw with
                 | EmptyString => None
                 | text => Some (Indexer.file_path f, text)
                 end
             | None => None
             end) files.

(** The postings of term [t] over the texts of the documents [d], [d+1],
    ...: one entry per text that holds the term, with the number of its
    occurrences there, in the order of the documents. *)
Fixpoint postings_from (d : nat) (texts : list string) (t : string) : list posting :=
  match texts with
  | [] => []
  | text :: rest =>
      match term_count t (Preprocess.preprocess text) with
      | 0 => postings_from (S d) rest t
      | n => Posting d n :: postings_from (S d) rest t
      end
  end.

(** The sum of a list of real numbers. *)
Definition sum_list (l : list R) : R := foldr Rplus 0%R l.

(** The square of the weight that [build_index] adds to the norm of a
    document for one postings entry. *)
Definition entry_square (w_idf : R) (e : posting) : R :=
  (((1 + ln (INR (tf e))) * w_idf) ^ 2)%R.

(** The string [sub] occurs in the string [s] at position [i]. *)
Definition occurs_at (sub s : string) (i : nat) : Prop :=
  i + String.length sub ≤ String.length s
  ∧ substring i (String.length sub) s = sub.

(** C7 read literally, for document [d] of [index]: a norm is stored, it
    is not negative, and it is zero exactly when the text has no terms. *)
Definition norm_zero_iff_no_terms (index : Index) (d : nat) : Prop :=
  ∃ text v, forward_index index !! KInt d = Some text
    ∧ doc_norm index !! KInt d = Some v
    ∧ (0 <= v)%R
    ∧ (v = 0%R ↔ Preprocess.preprocess text = []).

End Vocabulary.
Import Vocabulary.

(** * Sample inputs *)

Module Examples.

(** The two documents of the scenario in the design document. *)
Definition two_docs : list Indexer.source_file :=
  [ Indexer.SourceFile "a.docx" (Some "Search engines index documents");
    Indexer.SourceFile "b.docx" (Some "Search indexing works") ].

(** One document with two terms. *)
Definition one_doc : list Indexer.source_file :=
  [ Indexer.SourceFile "a.docx" (Some "Search engines") ].

(** The index of [one_doc] with other norms in place of its own. *)
Definition one_doc_index (norms : gmap pykey R) : Index :=
  let index := Indexer.build_index one_doc in
  mkIndex (doc_id_map index) (forward_index index) (postings index) (df index)
          (idf index) (N index) norms.

(** One document that consists of stop words. *)
Definition stop_words_doc : list Indexer.source_file :=
  [ Indexer.SourceFile "a.docx" (Some "The of and") ].

(** Three items with distinct keys, for a cache of capacity 2. *)
Definition three_items : list (string * nat) := [("a", 1); ("b", 2); ("c", 3)].

End Examples.

(** * Properties *)

(** ** The code at small inputs *)

Example preprocess_sample :
  Preprocess.preprocess "The Search-Engines, INDEX  documents!"
  = ["search"; "engines"; "index"; "documents"].
Proof. vm_compute. reflexivity. Qed.

Example preprocess_stop_words : Preprocess.preprocess " The, of AND... " = [].
Proof. vm_compute. reflexivity. Qed.

Example normalize_key_sample :
  Service._normalize_key "  What is the Search   ENGINE?" = "search engine".
Proof. vm_compute. reflexivity. Qed.

Example strip_sample : Indexer.strip "  two words  " = "two words".
Proof. vm_compute. reflexivity. Qed.

Example Counter_sample :
  Indexer.Counter ["b"; "a"; "b"; "c"; "b"] = [("b", 3); ("a", 1); ("c", 1)].
Proof. vm_compute. reflexivity. Qed.

Example and_intersect_sample :
  Search._and_intersect
    [[Posting 0 1; Posting 2 1; Posting 5 3]; [Posting 5 1; Posting 2 2]; [Posting 2 1; Posting 7 1; Posting 5 1; Posting 9 1]]
  = [2; 5].
Proof. vm_compute. reflexivity. Qed.

(** The cache scenario of the design document: capacity 2, [put] of a, b
    and c; then a is a miss, b and c are hits. *)
Example lru_capacity_2 :
  let c := put_all (LRU.mkLRU 2 ∅ [] 0 0) Examples.three_items in
  let '(va, c) := LRU.get "a" c in
  let '(vb, c) := LRU.get "b" c in
  let '(vc, c) := LRU.get "c" c in
  (va, vb, vc) = (None, Some 2, Some 3)
  ∧ LRU.nodes c = ["c"; "b"] ∧ LRU.hits c = 2 ∧ LRU.misses c = 1.
Proof. vm_compute. repeat split. Qed.

(** ** Tokenizer *)

Section tokenizer_facts.
Import Preprocess.

Lemma term_char_facts c :
  is_term_char c = true → lower_char c = c ∧ is_space c = false.
Proof.
  destruct c as [[] [] [] [] [] [] [] []]; vm_compute; intros; split; congruence.
Qed.

Lemma sub_char_not_space c :
  sub_char c = true → is_space c = false → is_term_char c = true.
Proof.
  destruct c as [[] [] [] [] [] [] [] []]; vm_compute; congruence.
Qed.

Lemma append_cons c r s : String.append (String c r) s = String c (String.append r s).
Proof. reflexivity. Qed.

Lemma append_nil s : String.append EmptyString s = s.
Proof. reflexivity. Qed.

Lemma all_chars_app p s1 s2 :
  all_chars p (String.append s1 s2) = all_chars p s1 && all_chars p s2.
Proof.
  induction s1 as [|c r IH]; [done|]. rewrite append_cons. simpl.
  by rewrite IH, andb_assoc.
Qed.

Lemma token_re_sub_from_chars b s : all_chars sub_char (token_re_sub_from b s) = true.
Proof.
  revert b. induction s as [|c r IH]; intros b; simpl; [done|].
  destruct (is_term_char c) eqn:Hc; simpl.
  - unfold sub_char at 1. by rewrite Hc, IH.
  - destruct b; simpl; by rewrite ?IH.
Qed.

Lemma split_go_words p s :
  all_chars p s = true →
  word_ok p (split_go s).1 ∧
  Forall (λ w, w ≠ EmptyString ∧ word_ok p w) (split_go s).2.
Proof.
  induction s as [|c r IH]; simpl; intros Hp.
  - by repeat split.
  - apply andb_prop in Hp as [Hc Hr]. destruct (IH Hr) as [[Hw1 Hw2] Hws].
    destruct (split_go r) as [w ws]; unfold word_ok; simpl in *.
    destruct (is_space c) eqn:Hsp; simpl.
    + repeat split; [done..|]. destruct w; simpl; [done|].
      constructor; [|done]. by repeat split.
    + rewrite Hc, Hw1, Hsp, Hw2. by repeat split.
Qed.

Lemma split_words p s :
  all_chars p s = true → Forall (λ w, w ≠ EmptyString ∧ word_ok p w) (split s).
Proof.
  intros Hp. unfold split. pose proof (split_go_words p s Hp) as [Hw Hws].
  destruct (split_go s) as [w ws]; simpl in *.
  destruct w; simpl; [done|]. constructor; [|done]. by split.
Qed.

Lemma all_chars_term w :
  all_chars sub_char w = true → all_chars (λ c, negb (is_space c)) w = true →
  all_chars is_term_char w = true.
Proof.
  induction w as [|c r IH]; simpl; [done|].
  intros [Hc Hr]%andb_prop [Hs Hr']%andb_prop.
  rewrite IH by done. rewrite sub_char_not_space; [done..|].
  by destruct (is_space c).
Qed.

(** Every token of [preprocess] is a term and no stop word. *)
Lemma preprocess_terms s :
  Forall (λ t, is_term t ∧ t ∉ STOPWORDS) (preprocess s).
Proof.
  unfold preprocess, preprocess_with. destruct s as [|c r]; [constructor|].
  set (text := token_re_sub _).
  pose proof (split_words sub_char text (token_re_sub_from_chars _ _)) as Hw.
  apply Forall_forall. intros t [[Hne Hst] Ht]%list_elem_of_filter.
  rewrite Forall_forall in Hw. destruct (Hw t Ht) as [_ [H1 H2]].
  repeat split; [done| |done]. by apply all_chars_term.
Qed.

Lemma lower_term t : all_chars is_term_char t = true → lower t = t.
Proof.
  induction t as [|c r IH]; simpl; [done|]. intros [Hc Hr]%andb_prop.
  rewrite IH by done. by destruct (term_char_facts c Hc) as [-> _].
Qed.

Lemma lower_app s1 s2 : lower (String.append s1 s2) = String.append (lower s1) (lower s2).
Proof.
  induction s1 as [|c r IH]; [done|]. rewrite append_cons. simpl.
  by rewrite IH, append_cons.
Qed.

Lemma token_re_sub_term_chars t s :
  all_chars is_term_char t = true →
  token_re_sub_from false (String.append t s) = String.append t (token_re_sub_from false s).
Proof.
  induction t as [|c r IH]; [done|]. rewrite !append_cons. simpl.
  intros [Hc Hr]%andb_prop. rewrite Hc. f_equal. by apply IH.
Qed.

Lemma token_re_sub_from_term b t s :
  is_term t →
  token_re_sub_from b (String.append t s) = String.append t (token_re_sub_from false s).
Proof.
  intros [Hne Ht]. destruct t as [|c r]; [done|]. rewrite !append_cons.
  simpl in *. apply andb_prop in Ht as [Hc Hr]. rewrite Hc. f_equal.
  by apply token_re_sub_term_chars.
Qed.

Lemma split_go_term t s :
  all_chars is_term_char t = true →
  split_go (String.append t s) = (String.append t (split_go s).1, (split_go s).2).
Proof.
  induction t as [|c r IH].
  - rewrite !append_nil. by destruct (split_go s).
  - rewrite !append_cons. simpl. intros [Hc Hr]%andb_prop. rewrite (IH Hr).
    by destruct (term_char_facts c Hc) as [_ ->].
Qed.

Lemma append_empty_r s : String.append s EmptyString = s.
Proof. induction s as [|c r IH]; [done|]. by rewrite append_cons, IH. Qed.

Local Arguments join_space : simpl never.

Lemma join_space_single t : join_space [t] = t.
Proof. reflexivity. Qed.

Lemma join_space_cons t ts :
  ts ≠ [] → join_space (t :: ts) = String.append t (String " " (join_space ts)).
Proof. by destruct ts. Qed.

Lemma join_space_lower ts : Forall is_term ts → lower (join_space ts) = join_space ts.
Proof.
  induction 1 as [|t ts [_ Ht] Hts IH]; [done|].
  destruct ts as [|t' ts]; [by apply lower_term|].
  rewrite join_space_cons by done. rewrite lower_app. simpl lower at 2.
  rewrite IH, lower_term by done. done.
Qed.

Lemma join_space_sub b ts :
  Forall is_term ts → token_re_sub_from b (join_space ts) = join_space ts.
Proof.
  intros Hts. revert b. induction Hts as [|t ts Ht Hts IH]; intros b; [done|].
  destruct ts as [|t' ts].
  - rewrite join_space_single. rewrite <-(append_empty_r t) at 1.
    rewrite token_re_sub_from_term by done. simpl. apply append_empty_r.
  - rewrite join_space_cons by done. rewrite token_re_sub_from_term by done.
    f_equal. simpl token_re_sub_from at 1. change (is_term_char " ") with false.
    simpl. f_equal. apply IH.
Qed.

Lemma join_space_split ts : Forall is_term ts → split (join_space ts) = ts.
Proof.
  induction 1 as [|t ts Ht Hts IH]; [done|].
  destruct Ht as [Hne Ht]. destruct ts as [|t' ts].
  - rewrite join_space_single. unfold split. rewrite <-(append_empty_r t) at 1.
    rewrite split_go_term by done. simpl. rewrite append_empty_r. by destruct t.
  - rewrite join_space_cons by done. unfold split in *.
    rewrite split_go_term by done. simpl split_go.
    destruct (split_go (join_space (t' :: ts))) as [w ws].
    change (is_space " ") with true. simpl. rewrite append_empty_r.
    simpl in IH. rewrite IH. by destruct t.
Qed.

Lemma join_space_empty ts :
  Forall is_term ts → join_space ts = EmptyString → ts = [].
Proof.
  intros Hts. destruct Hts as [|t ts [Hne _] _]; [done|].
  destruct ts; simpl; [done|]. by destruct t.
Qed.

(** Tokenizing the joined terms gives the terms back. *)
Lemma preprocess_join_space ts :
  Forall (λ t, is_term t ∧ t ∉ STOPWORDS) ts → preprocess (join_space ts) = ts.
Proof.
  intros Hts. assert (Forall is_term ts) as Hterm.
  { eapply Forall_impl; [done|]. by intros t [? _]. }
  unfold preprocess, preprocess_with.
  destruct (join_space ts) as [|c r] eqn:Hj.
  { symmetry. by apply join_space_empty. }
  rewrite <-Hj. unfold token_re_sub.
  rewrite join_space_lower, join_space_sub, join_space_split by done.
  clear Hj. induction Hts as [|t ts [[Hne Ht] Hst] Hts IH]; [done|].
  rewrite filter_cons_True by done. f_equal. apply IH. by inversion Hterm.
Qed.

End tokenizer_facts.

(** *** Trimming a text does not change its tokens *)

Section strip_facts.
Import Preprocess Indexer.

Lemma space_not_term c : is_space c = true → is_term_char (lower_char c) = false.
Proof. destruct c as [[] [] [] [] [] [] [] []]; vm_compute; congruence. Qed.

Lemma words_go_term b c r :
  is_term_char (lower_char c) = true →
  words_go b (String c r)
  = (String (lower_char c) (words_go false r).1, (words_go false r).2).
Proof.
  intros Hc. unfold words_go. simpl. rewrite Hc. simpl.
  destruct (split_go _) as [w ws]. simpl.
  by destruct (term_char_facts _ Hc) as [_ ->].
Qed.

Lemma words_go_sep b c r :
  is_term_char (lower_char c) = false →
  words_go b (String c r)
  = if b then words_go true r else (EmptyString, flat (words_go true r)).
Proof.
  intros Hc. unfold words_go, flat. simpl. rewrite Hc. destruct b; [done|].
  simpl. by destruct (split_go _) as [w ws].
Qed.

Lemma flat_words_go_sep b c r :
  is_term_char (lower_char c) = false →
  flat (words_go b (String c r)) = flat (words_go true r).
Proof. intros Hc. rewrite words_go_sep by done. by destruct b. Qed.

Lemma flat_words_go b s : flat (words_go b s) = flat (words_go false s).
Proof.
  destruct s as [|c r]; [done|].
  destruct (is_term_char (lower_char c)) eqn:Hc.
  - by rewrite !words_go_term.
  - by rewrite !flat_words_go_sep.
Qed.

Lemma words_go_lstrip b s : flat (words_go b (lstrip s)) = flat (words_go b s).
Proof.
  revert b. induction s as [|c r IH]; intros b; [done|]. simpl.
  destruct (is_space c) eqn:Hc; [|done].
  rewrite flat_words_go_sep by by apply space_not_term.
  by rewrite IH, (flat_words_go b), (flat_words_go true).
Qed.

Lemma words_go_nil b : words_go b EmptyString = (EmptyString, []).
Proof. done. Qed.

Lemma words_go_rstrip b s : words_go b (rstrip s) = words_go b s.
Proof.
  revert b. induction s as [|c r IH]; intros b; [done|]. simpl.
  destruct (rstrip r) as [|c' r'] eqn:Hr.
  - assert (∀ b', words_go b' r = (EmptyString, [])) as Hnil.
    { intros b'. by rewrite <-IH. }
    destruct (is_space c) eqn:Hc.
    + rewrite words_go_sep by by apply space_not_term.
      rewrite words_go_nil, !Hnil. by destruct b.
    + destruct (is_term_char (lower_char c)) eqn:Ht.
      * rewrite (words_go_term b c EmptyString), (words_go_term b c r) by done.
        by rewrite Hnil.
      * rewrite (words_go_sep b c EmptyString), (words_go_sep b c r) by done.
        by rewrite Hnil.
  - destruct (is_term_char (lower_char c)) eqn:Ht.
    + rewrite (words_go_term b c (String c' r')), (words_go_term b c r) by done.
      by rewrite IH.
    + rewrite (words_go_sep b c (String c' r')), (words_go_sep b c r) by done.
      by rewrite IH.
Qed.

Lemma preprocess_words s :
  preprocess s
  = filter (λ t, t ≠ EmptyString ∧ t ∉ STOPWORDS) (flat (words_go false s)).
Proof.
  destruct s as [|c r]; [done|].
  unfold preprocess, preprocess_with, flat, words_go, split, token_re_sub.
  by destruct (split_go _).
Qed.

(** [preprocess(text.strip()) = preprocess(text)] *)
Lemma preprocess_strip s : preprocess (strip s) = preprocess s.
Proof.
  rewrite !preprocess_words. unfold strip.
  by rewrite words_go_rstrip, words_go_lstrip.
Qed.

Lemma search_strip query index :
  Search.search (strip query) index = Search.search query index.
Proof. unfold Search.search. by rewrite preprocess_strip. Qed.

End strip_facts.

(** C10: [preprocess] applied to the single-space join of [preprocess s]
    returns [preprocess s], for every string [s]; hence the cache key of
    the search service normalizes to itself. *)
Theorem C10_preprocess_idempotent_on_key (s : string) :
  Preprocess.preprocess (Preprocess.join_space (Preprocess.preprocess s))
    = Preprocess.preprocess s
  ∧ Service._normalize_key (Service._normalize_key s) = Service._normalize_key s.
Proof.
  assert (Preprocess.preprocess (Preprocess.join_space (Preprocess.preprocess s))
          = Preprocess.preprocess s) as H.
  { apply preprocess_join_space, preprocess_terms. }
  split; [done|]. unfold Service._normalize_key. by rewrite H.
Qed.

(** ** Query engine *)

Section search_facts.
Import Preprocess Search.

Lemma collect_lists_None postings tokens t :
  t ∈ tokens → postings !! t = None ∨ postings !! t = Some [] →
  collect_lists postings tokens = None.
Proof.
  induction tokens as [|u ts IH]; [by intros ?%elem_of_nil|].
  intros [->|Hin]%elem_of_cons Ht; simpl.
  - by destruct Ht as [-> | ->].
  - destruct (postings !! u) as [[|e pl]|]; [done| |done].
    by rewrite IH.
Qed.

Lemma collect_lists_Some postings tokens :
  (∀ t, t ∈ tokens → ∃ pl, postings !! t = Some pl ∧ pl ≠ []) →
  collect_lists postings tokens = Some ((λ t, default [] (postings !! t)) <$> tokens).
Proof.
  induction tokens as [|u ts IH]; intros H; [done|]. simpl.
  destruct (H u) as (pl & -> & Hne); [left|].
  destruct pl as [|e pl]; [done|]. rewrite IH; [done|].
  intros t Ht. apply H. by right.
Qed.

Lemma elem_of_doc_ids d plist : d ∈ doc_ids plist ↔ ∃ e, e ∈ plist ∧ doc_id e = d.
Proof.
  unfold doc_ids. rewrite elem_of_list_to_set, list_elem_of_fmap.
  split; [intros (e & -> & He)|intros (e & He & <-)]; by exists e.
Qed.

Lemma intersect_rest_Some common rest s d :
  intersect_rest common rest = Some s →
  d ∈ s ↔ d ∈ common ∧ ∀ pl, pl ∈ rest → d ∈ doc_ids pl.
Proof.
  revert common. induction rest as [|pl rest IH]; intros common; simpl.
  - intros [= ->]. split; [|by intros [? _]]. intros ?; split; [done|].
    by intros ? ?%elem_of_nil.
  - case_decide; [done|]. intros Hs. rewrite (IH _ Hs), elem_of_intersection.
    split.
    + intros [[? ?] Hr]. split; [done|]. intros pl' [->|?]%elem_of_cons; auto.
    + intros [? Hr]. repeat split; [done|apply Hr; left|].
      intros pl' ?. apply Hr. by right.
Qed.

Lemma intersect_rest_None common rest d :
  intersect_rest common rest = None →
  ¬ (d ∈ common ∧ ∀ pl, pl ∈ rest → d ∈ doc_ids pl).
Proof.
  revert common. induction rest as [|pl rest IH]; intros common; simpl; [done|].
  case_decide as Hc.
  - intros _ [Hd Hr]. assert (d ∈ common ∩ doc_ids pl) as Hin.
    { apply elem_of_intersection. split; [done|]. apply Hr. left. }
    rewrite Hc in Hin. by apply not_elem_of_empty in Hin.
  - intros Hn [Hd Hr]. apply (IH _ Hn). split.
    + apply elem_of_intersection. split; [done|]. apply Hr. left.
    + intros pl' ?. apply Hr. by right.
Qed.

Lemma elem_of_sorted_nat d l : d ∈ sorted_nat l ↔ d ∈ l.
Proof. unfold sorted_nat. by rewrite merge_sort_Permutation. Qed.

(** [_and_intersect] returns the ids that occur in every list. *)
Lemma and_intersect_elem lists d :
  lists ≠ [] →
  d ∈ _and_intersect lists ↔ ∀ pl, pl ∈ lists → d ∈ doc_ids pl.
Proof.
  intros Hne. unfold _and_intersect. destruct lists as [|l0 ls]; [done|].
  pose proof (merge_sort_Permutation len_le (l0 :: ls)) as Hp.
  destruct (merge_sort len_le (l0 :: ls)) as [|base rest].
  { by apply Permutation_nil_cons in Hp. }
  assert (∀ P : list posting → Prop,
    (∀ pl, pl ∈ l0 :: ls → P pl) ↔ P base ∧ ∀ pl, pl ∈ rest → P pl) as Hall.
  { intros P. setoid_rewrite <-Hp. split.
    - intros H. split; [apply H; left|]. intros pl ?. apply H. by right.
    - intros [? H] pl [->|?]%elem_of_cons; auto. }
  rewrite (Hall (λ pl, d ∈ doc_ids pl)).
  destruct (intersect_rest (doc_ids base) rest) as [s|] eqn:Hs.
  - by rewrite elem_of_sorted_nat, elem_of_elements, (intersect_rest_Some _ _ _ _ Hs).
  - split; [by intros ?%elem_of_nil|]. intros H.
    by destruct (intersect_rest_None _ _ d Hs).
Qed.

Lemma and_intersect_NoDup lists : NoDup (_and_intersect lists).
Proof.
  unfold _and_intersect. destruct lists as [|l0 ls]; [constructor|].
  destruct (merge_sort len_le (l0 :: ls)) as [|base rest]; [constructor|].
  destruct (intersect_rest (doc_ids base) rest) as [s|]; [|constructor].
  unfold sorted_nat. rewrite merge_sort_Permutation. apply NoDup_elements.
Qed.

Global Instance rank_le_total : Total rank_le.
Proof.
  intros [d1 s1] [d2 s2]. unfold rank_le, key_le, rank_key; simpl.
  destruct (Rtotal_order (- s1) (- s2)) as [?|[?|?]]; [by left; left| |by right; left].
  destruct (Nat.le_ge_cases d1 d2); [left|right]; right; split; [done..|by symmetry|done].
Qed.

Global Instance rank_le_trans : Transitive rank_le.
Proof.
  intros [d1 s1] [d2 s2] [d3 s3]. unfold rank_le, key_le, rank_key; simpl.
  intros [?|[? ?]] [?|[? ?]]; [left; lra|left; lra|left; lra|right; split; [lra|lia]].
Qed.

Lemma StronglySorted_weaken {A} (R1 R2 : relation A) l :
  (∀ x y, R1 x y → R2 x y) → StronglySorted R1 l → StronglySorted R2 l.
Proof.
  intros H. induction 1 as [|x l Hl IH Hx]; constructor; [done|].
  eapply Forall_impl; [done|]. intros y. apply H.
Qed.

Lemma rank_le_ranks_before x y : rank_le x y ↔ ranks_before x y.
Proof.
  unfold rank_le, key_le, rank_key, ranks_before; simpl.
  split; (intros [?|[? ?]]; [left; lra|right; split; [lra|done]]).
Qed.

End search_facts.

Lemma search_no_postings query index :
  (Preprocess.preprocess query = []
   ∨ ∃ t, t ∈ Preprocess.preprocess query ∧ no_postings index t) →
  Search.search query index = [].
Proof.
  unfold Search.search. intros [-> | (t & Hin & Ht)]; [done|].
  destruct (Preprocess.preprocess query) as [|t0 ts] eqn:Htok; [done|].
  by rewrite (collect_lists_None _ _ t Hin Ht).
Qed.

(** C3: for every index and every query, [search] returns the empty list
    when the query has no terms, or when one of its terms has no postings
    entry (or an empty one) in the index. *)
Theorem C3_search_empty_result (query : string) (index : Index) :
  (Preprocess.preprocess query = []
   ∨ ∃ t, t ∈ Preprocess.preprocess query ∧ no_postings index t) →
  Search.search query index = [].
Proof. apply search_no_postings. Qed.

(** C1: when the query has terms and each of them has a non-empty postings
    list, [search] returns one pair per document of the intersection of
    those lists and no other, ordered by descending score, equal scores in
    ascending order of document id. *)
Theorem C1_search_intersection_ranked (query : string) (index : Index) :
  Preprocess.preprocess query ≠ [] →
  (∀ t, t ∈ Preprocess.preprocess query →
        ∃ plist, postings index !! t = Some plist ∧ plist ≠ []) →
  (∀ d, d ∈ (Search.search query index).*1 ↔
        ∀ t, t ∈ Preprocess.preprocess query → has_posting index t d)
  ∧ NoDup (Search.search query index).*1
  ∧ StronglySorted ranks_before (Search.search query index).
Proof.
  intros Hne Hall. unfold Search.search.
  destruct (Preprocess.preprocess query) as [|t0 ts] eqn:Htok; [done|].
  rewrite (collect_lists_Some _ _ Hall).
  set (lists := (λ t, default [] (postings index !! t)) <$> t0 :: ts).
  assert (lists ≠ []) as Hl by done.
  assert (∀ d, d ∈ Search._and_intersect lists ↔
               ∀ t, t ∈ t0 :: ts → has_posting index t d) as Hmem.
  { intros d. rewrite (and_intersect_elem lists d Hl). unfold lists. split.
    - intros H t Ht. destruct (Hall t Ht) as (pl & Hpl & _).
      specialize (H pl). rewrite elem_of_doc_ids in H.
      destruct H as (e & He & Hd).
      + apply list_elem_of_fmap. exists t. by rewrite Hpl.
      + by exists pl, e.
    - intros H pl (t & -> & Ht)%list_elem_of_fmap.
      destruct (H t Ht) as (pl & e & Hpl & He & Hd). rewrite Hpl. simpl.
      apply elem_of_doc_ids. by exists e. }
  pose proof (and_intersect_NoDup lists) as Hnd.
  destruct (Search._and_intersect lists) as [|d0 ds] eqn:Hc.
  { repeat split; [by intros ?%elem_of_nil| |constructor|constructor].
    intros H. by apply Hmem in H. }
  set (scores := (λ d, (d, _)) <$> d0 :: ds).
  assert ((merge_sort Search.rank_le scores).*1 ≡ₚ d0 :: ds) as Hperm.
  { rewrite merge_sort_Permutation. unfold scores.
    rewrite <-list_fmap_compose. by rewrite list_fmap_id. }
  repeat split.
  - rewrite Hperm. apply Hmem.
  - rewrite Hperm. intros H. by apply Hmem.
  - by rewrite Hperm.
  - eapply StronglySorted_weaken; [|apply StronglySorted_merge_sort; apply _].
    intros x y. apply rank_le_ranks_before.
Qed.

(** ** Indexer *)

Section counter_facts.
Import Indexer.

Lemma counter_add_map u c :
  (list_to_map (counter_add u c) : gmap string nat)
  = <[u := S (default 0 ((list_to_map c : gmap string nat) !! u))]> (list_to_map c).
Proof.
  induction c as [|[v m] r IH]; simpl; [done|].
  case_decide as Huv; simpl.
  - subst v. by rewrite lookup_insert_eq, insert_insert_eq.
  - rewrite IH, lookup_insert_ne by done. by apply insert_insert_ne.
Qed.

Lemma counter_add_keys u c :
  (counter_add u c).*1 = if decide (u ∈ c.*1) then c.*1 else c.*1 ++ [u].
Proof.
  induction c as [|[v m] r IH]; [done|]. cbn [counter_add].
  destruct (decide (u = v)) as [->|Huv].
  - rewrite decide_True; [done|left].
  - rewrite fmap_cons, IH. simpl. destruct (decide (u ∈ r.*1)) as [Hin|Hin].
    + rewrite decide_True; [done|by right].
    + rewrite decide_False; [done|]. by intros [?|?]%elem_of_cons.
Qed.

Lemma counter_add_NoDup u c : NoDup c.*1 → NoDup (counter_add u c).*1.
Proof.
  intros Hnd. rewrite counter_add_keys. case_decide as Hin; [done|].
  apply NoDup_app. repeat split; [done| |apply NoDup_singleton].
  intros x Hx ->%list_elem_of_singleton. done.
Qed.

Lemma Counter_snoc tokens u : Counter (tokens ++ [u]) = counter_add u (Counter tokens).
Proof. unfold Counter. by rewrite foldl_snoc. Qed.

Lemma Counter_NoDup tokens : NoDup (Counter tokens).*1.
Proof.
  induction tokens as [|u tokens IH] using rev_ind; [constructor|].
  rewrite Counter_snoc. by apply counter_add_NoDup.
Qed.

Lemma term_count_snoc t tokens u :
  term_count t (tokens ++ [u]) = term_count t tokens + (if decide (u = t) then 1 else 0).
Proof.
  unfold term_count. rewrite filter_app, length_app. f_equal.
  case_decide; [by rewrite filter_cons_True|by rewrite filter_cons_False].
Qed.

Lemma term_count_pos t tokens : t ∈ tokens ↔ 1 ≤ term_count t tokens.
Proof.
  unfold term_count. induction tokens as [|u tokens IH]; simpl.
  - split; [by intros ?%elem_of_nil|lia].
  - rewrite elem_of_cons, IH. destruct (decide (u = t)) as [->|Hne].
    + rewrite filter_cons_True by done. simpl. split; [lia|by left].
    + rewrite filter_cons_False by done. split; [|by right].
      by intros [->|?].
Qed.

(** [Counter(tokens)] as a map: the count of every token that occurs. *)
Lemma Counter_lookup tokens t :
  (list_to_map (Counter tokens) : gmap string nat) !! t
  = if decide (t ∈ tokens) then Some (term_count t tokens) else None.
Proof.
  induction tokens as [|u tokens IH] using rev_ind; [done|].
  rewrite Counter_snoc, counter_add_map, term_count_snoc.
  destruct (decide (u = t)) as [->|Hne].
  - rewrite (decide_True (P := t ∈ tokens ++ [t])) by (apply elem_of_app; right; left).
    rewrite lookup_insert_eq, IH.
    f_equal. case_decide as Hin; simpl; [lia|].
    assert (term_count t tokens = 0) as ->; [|done].
    destruct (term_count t tokens) eqn:E; [done|].
    exfalso. apply Hin, term_count_pos. lia.
  - rewrite lookup_insert_ne, IH by done.
    destruct (decide (t ∈ tokens)) as [Hin|Hin].
    + rewrite decide_True by (apply elem_of_app; by left). f_equal. lia.
    + rewrite decide_False; [done|].
      intros [?|?%list_elem_of_singleton]%elem_of_app; done.
Qed.

End counter_facts.

Section build_facts.
Import Preprocess Indexer.

Lemma foldl_add_posting d items p f :
  NoDup items.*1 →
  (∀ t, (foldl (add_posting d) (p, f) items).1 !! t
        = match (list_to_map items : gmap string nat) !! t with
          | Some n => Some (default [] (p !! t) ++ [Posting d n])
          | None => p !! t
          end)
  ∧ (∀ t, (foldl (add_posting d) (p, f) items).2 !! t
        = match (list_to_map items : gmap string nat) !! t with
          | Some _ => Some (S (default 0 (f !! t)))
          | None => f !! t
          end).
Proof.
  revert p f. induction items as [|[u n] r IH]; intros p f Hnd.
  { split; intros t; simpl; by rewrite lookup_empty. }
  rewrite fmap_cons in Hnd. apply NoDup_cons in Hnd as [Hu Hr]. simpl in Hu.
  cbn [foldl add_posting].
  destruct (IH (<[u := default [] (p !! u) ++ [Posting d n]]> p)
               (<[u := S (default 0 (f !! u))]> f) Hr) as [H1 H2].
  apply not_elem_of_list_to_map_1 in Hu.
  split; intros t; rewrite ?H1, ?H2, list_to_map_cons;
    (destruct (decide (t = u)) as [->|Hne];
     [rewrite Hu, !lookup_insert_eq; done
     |rewrite !(lookup_insert_ne _ u t) by done; done]).
Qed.

(** The tokens of one document, added to the postings and to [df]. *)
Lemma index_tokens_lookup d tokens p f t :
  let r := match tokens with
           | [] => (p, f)
           | _ => foldl (add_posting d) (p, f) (Counter tokens)
           end in
  r.1 !! t = (if decide (t ∈ tokens)
              then Some (default [] (p !! t) ++ [Posting d (term_count t tokens)])
              else p !! t)
  ∧ r.2 !! t = (if decide (t ∈ tokens)
                then Some (S (default 0 (f !! t)))
                else f !! t).
Proof.
  intros r. assert (r = foldl (add_posting d) (p, f) (Counter tokens)) as ->.
  { unfold r. by destruct tokens. }
  destruct (foldl_add_posting d (Counter tokens) p f (Counter_NoDup tokens)) as [H1 H2].
  rewrite H1, H2, Counter_lookup. by case_decide.
Qed.

Lemma build_inv_init : build_inv init_state.
Proof.
  split; simpl.
  - by rewrite fmap_empty.
  - intros t pl. by rewrite lookup_empty.
  - apply map_size_empty.
  - intros d _. by rewrite !lookup_empty.
  - intros d ?. lia.
  - intros t d n. split.
    + intros (pl & Hpl & _). by rewrite lookup_empty in Hpl.
    + intros (text & Htext & _). by rewrite lookup_empty in Htext.
Qed.

Lemma build_inv_step st f : build_inv st → build_inv (index_file st f).
Proof.
  intros [Hdf Hsorted Hsize Hfresh Hassigned Hentries]. unfold index_file.
  destruct (extracted f) as [raw|]; [|by split].
  destruct (strip raw) as [|c0 r0] eqn:Htext; [by split|].
  set (text := String c0 r0) in *. set (d := st_doc_id st) in *.
  set (tokens := preprocess text).
  pose proof (index_tokens_lookup d tokens (st_postings st) (st_df st)) as Hlook.
  simpl in Hlook. fold tokens.
  destruct (match tokens with
            | [] => (st_postings st, st_df st)
            | _ => foldl (add_posting d) (st_postings st, st_df st) (Counter tokens)
            end) as [p' f'] eqn:E.
  simpl in Hlook.
  assert (∀ t pl, st_postings st !! t = Some pl → Forall (λ e, doc_id e < d) pl) as Hlt.
  { intros t pl Hpl. by destruct (Hsorted t pl Hpl) as (_ & _ & ?). }
  assert (∀ t e, e ∈ default [] (st_postings st !! t) → doc_id e < d) as Hold.
  { intros t e. destruct (st_postings st !! t) as [pl|] eqn:Hpl; simpl.
    - intros He. specialize (Hlt t pl Hpl). rewrite Forall_forall in Hlt. auto.
    - by intros ?%elem_of_nil. }
  destruct (Hfresh d (reflexivity _)) as [Hfm Hff].
  split; simpl.
  - apply map_eq. intros t. destruct (Hlook t) as [H1 H2].
    rewrite lookup_fmap, H1, H2, Hdf, lookup_fmap.
    case_decide; [|done]. simpl. rewrite length_app. simpl.
    destruct (st_postings st !! t); simpl; f_equal; lia.
  - intros t pl. destruct (Hlook t) as [H1 _]. rewrite H1.
    case_decide as Hin.
    + intros [= <-]. split; [by destruct (default [] _)|]. split.
      * rewrite fmap_app. apply StronglySorted_app_2.
        -- intros x1 x2 (e & -> & He)%list_elem_of_fmap ->%list_elem_of_singleton.
           simpl. by apply (Hold t).
        -- destruct (st_postings st !! t) as [pl|] eqn:Hpl; simpl; [|constructor].
           by destruct (Hsorted t pl Hpl) as (_ & ? & _).
        -- repeat constructor.
      * apply Forall_app. split.
        -- apply Forall_forall. intros e He. specialize (Hold t e He). lia.
        -- constructor; [simpl; lia|constructor].
    + intros Hpl. destruct (Hsorted t pl Hpl) as (? & ? & Hall).
      repeat split; [done..|]. eapply Forall_impl; [done|]. simpl. intros; lia.
  - rewrite map_size_insert_None by done. by rewrite Hsize.
  - intros d' Hd'. rewrite !lookup_insert_ne by (intros [= ->]; lia).
    apply Hfresh. fold d. lia.
  - intros d' Hd'. destruct (decide (d' = d)) as [->|Hne].
    + rewrite lookup_insert_eq. by eexists.
    + rewrite lookup_insert_ne by congruence. apply Hassigned. fold d. lia.
  - intros t d' n. destruct (Hlook t) as [H1 _]. rewrite H1.
    destruct (decide (d' = d)) as [->|Hne].
    + rewrite lookup_insert_eq. split.
      * intros (pl & Hpl & He). exists text. split; [done|].
        case_decide as Hin.
        -- injection Hpl as <-.
           apply elem_of_app in He as [He|[= ->]%list_elem_of_singleton]; [|done].
           apply Hold in He. simpl in He. lia.
        -- specialize (Hlt t pl Hpl). rewrite Forall_forall in Hlt.
           apply Hlt in He. simpl in He. lia.
      * intros (text' & [= <-] & Hin & ->). fold tokens in Hin |- *.
        rewrite decide_True by done. eexists. split; [done|].
        apply elem_of_app. right. by left.
    + rewrite lookup_insert_ne by congruence. rewrite <-Hentries.
      case_decide as Hin; [|done]. split.
      * intros (pl & [= <-] & He).
        apply elem_of_app in He as [He|[= ->]%list_elem_of_singleton]; [|done].
        destruct (st_postings st !! t) as [pl|]; simpl in He; [by exists pl|].
        by apply elem_of_nil in He.
      * intros (pl & Hpl & He). eexists. split; [done|].
        rewrite Hpl. simpl. apply elem_of_app. by left.
Qed.

Lemma build_inv_foldl files st :
  build_inv st → build_inv (foldl index_file st files).
Proof.
  revert st. induction files as [|f files IH]; intros st Hst; [done|].
  simpl. by apply IH, build_inv_step.
Qed.

(** The loop invariant holds when the loop over the files ends. *)
Lemma build_inv_loop files : build_inv (foldl index_file init_state files).
Proof. apply build_inv_foldl, build_inv_init. Qed.

End build_facts.

Section finish_facts.
Import Preprocess Indexer.

Global Instance doc_id_le_trans : Transitive doc_id_le.
Proof. intros a b c. unfold doc_id_le. lia. Qed.

Global Instance doc_id_le_total : Total doc_id_le.
Proof. intros a b. unfold doc_id_le. lia. Qed.

Lemma StronglySorted_lt_NoDup (l : list nat) : StronglySorted lt l → NoDup l.
Proof.
  induction 1 as [|x l Hl IH Hx]; constructor; [|done].
  intros Hin. rewrite Forall_forall in Hx. specialize (Hx x Hin). lia.
Qed.

Lemma StronglySorted_lt_doc_id_le pl :
  StronglySorted lt (doc_id <$> pl) → StronglySorted doc_id_le pl.
Proof.
  induction pl as [|e pl IH]; [constructor|]. rewrite fmap_cons.
  intros [Hpl He]%StronglySorted_inv. constructor; [by apply IH|].
  apply Forall_forall. intros e' He'. rewrite Forall_forall in He.
  unfold doc_id_le. specialize (He (doc_id e')).
  assert (doc_id e < doc_id e'); [|lia]. apply He. by apply list_elem_of_fmap_2.
Qed.

Lemma NoDup_fmap_eq {A B} (f : A → B) (l : list A) x y :
  NoDup (f <$> l) → x ∈ l → y ∈ l → f x = f y → x = y.
Proof.
  induction l as [|a l IH]; [by intros _ ?%elem_of_nil|]. rewrite fmap_cons.
  intros [Ha Hl]%NoDup_cons [->|Hx]%elem_of_cons [->|Hy]%elem_of_cons Hf; [done| | |by apply IH].
  - destruct Ha. rewrite Hf. by apply list_elem_of_fmap_2.
  - destruct Ha. rewrite <-Hf. by apply list_elem_of_fmap_2.
Qed.

(** Sorting a postings list that is already in strict order of document id
    leaves it as it is. *)
Lemma sort_plist_sorted pl : StronglySorted lt (doc_id <$> pl) → sort_plist pl = pl.
Proof.
  intros Hs. unfold sort_plist.
  apply (StronglySorted_unique_strong doc_id_le).
  - intros x1 x2 Hx1 Hx2 H12 H21. rewrite merge_sort_Permutation in Hx1.
    apply (NoDup_fmap_eq doc_id pl); [by apply StronglySorted_lt_NoDup|done..|].
    unfold doc_id_le in *. lia.
  - apply StronglySorted_merge_sort; apply _.
  - by apply StronglySorted_lt_doc_id_le.
  - apply merge_sort_Permutation.
Qed.

Lemma build_index_postings files :
  postings (build_index files) = st_postings (foldl index_file init_state files).
Proof.
  unfold build_index, finish; simpl. apply map_eq. intros t.
  rewrite lookup_fmap.
  destruct (st_postings _ !! t) as [pl|] eqn:Hpl; simpl; [|done].
  f_equal. apply sort_plist_sorted.
  by destruct (inv_sorted _ (build_inv_loop files) t pl Hpl) as (_ & ? & _).
Qed.

Lemma build_index_N files :
  N (build_index files) = st_doc_id (foldl index_file init_state files).
Proof. unfold build_index, finish; simpl. apply (inv_size _ (build_inv_loop files)). Qed.

Lemma build_index_df files :
  df (build_index files) = length <$> postings (build_index files).
Proof.
  rewrite build_index_postings. unfold build_index, finish; simpl.
  apply (inv_df _ (build_inv_loop files)).
Qed.

Lemma build_index_idf files :
  idf (build_index files) = idf_of (N (build_index files)) <$> df (build_index files).
Proof. done. Qed.

Lemma build_index_forward files :
  forward_index (build_index files) = st_forward_index (foldl index_file init_state files).
Proof. done. Qed.

(** The postings of a built index, entry by entry: document [d] is listed
    under [t] with frequency [n] exactly when [t] occurs [n] times, and at
    least once, among the tokens of the text of [d]. *)
Lemma build_index_entries files t d n :
  (∃ pl, postings (build_index files) !! t = Some pl ∧ Posting d n ∈ pl)
  ↔ (∃ text, forward_index (build_index files) !! KInt d = Some text
       ∧ t ∈ preprocess text ∧ n = term_count t (preprocess text)).
Proof.
  rewrite build_index_postings, build_index_forward.
  apply (inv_entries _ (build_inv_loop files)).
Qed.

Lemma build_index_plist files t pl :
  postings (build_index files) !! t = Some pl →
  pl ≠ [] ∧ StronglySorted lt (doc_id <$> pl)
  ∧ Forall (λ e, doc_id e < N (build_index files) ∧ 1 ≤ tf e) pl.
Proof.
  intros Hpl. pose proof Hpl as Hpl'. rewrite build_index_postings in Hpl'.
  destruct (inv_sorted _ (build_inv_loop files) t pl Hpl') as (Hne & Hs & Hlt).
  repeat split; [done..|]. rewrite build_index_N.
  apply Forall_forall. intros [d n] He. rewrite Forall_forall in Hlt.
  split; [by apply (Hlt _ He)|]. simpl.
  destruct (proj1 (build_index_entries files t d n)) as (text & _ & Hin & ->).
  { by exists pl. }
  by apply term_count_pos.
Qed.

End finish_facts.

(** C8: in a built index the postings list of every term is in strictly
    ascending order of document id, so it holds a document at most once,
    and the document frequency of the term is the length of the list. *)
Theorem C8_postings_sorted_df (files : list Indexer.source_file)
    (t : string) (plist : list posting) :
  postings (Indexer.build_index files) !! t = Some plist →
  StronglySorted lt (doc_id <$> plist)
  ∧ NoDup (doc_id <$> plist)
  ∧ df (Indexer.build_index files) !! t = Some (length plist).
Proof.
  intros Hpl. destruct (build_index_plist files t plist Hpl) as (_ & Hs & _).
  repeat split; [done|by apply StronglySorted_lt_NoDup|].
  by rewrite build_index_df, lookup_fmap, Hpl.
Qed.

(** ** Weights and norms *)

Section weight_facts.
Import Indexer.
Local Open Scope R_scope.

Lemma ln_nonneg x : 1 <= x → 0 <= ln x.
Proof.
  intros [Hlt| <-]; [|rewrite ln_1; lra].
  rewrite <-ln_1. left. apply ln_increasing; lra.
Qed.

(** [1.0 + math.log(tf)] is at least 1 for a frequency of at least 1. *)
Lemma w_tf_ge_1 (n : nat) : (1 ≤ n)%nat → 1 <= 1 + ln (INR n).
Proof.
  intros Hn. assert (0 <= ln (INR n)); [|lra].
  apply ln_nonneg. change 1 with (INR 1). by apply le_INR.
Qed.

(** The inverse document frequency is at least 1 when [dfi <= n]. *)
Lemma idf_of_ge_1 (n dfi : nat) : (dfi ≤ n)%nat → 1 <= idf_of n dfi.
Proof.
  intros Hle. unfold idf_of.
  assert (0 <= ln (INR (n + 1) / INR (dfi + 1))); [|lra].
  apply ln_nonneg.
  assert (0 < INR (dfi + 1)) as Hpos by (apply lt_0_INR; lia).
  assert (INR (dfi + 1) <= INR (n + 1)) as Hb by (apply le_INR; lia).
  apply Rmult_le_reg_r with (INR (dfi + 1)); [done|].
  unfold Rdiv. rewrite Rmult_assoc, Rinv_l by lra. lra.
Qed.

Lemma weight_square_pos (n : nat) w : (1 ≤ n)%nat → 1 <= w → 0 < ((1 + ln (INR n)) * w) ^ 2.
Proof.
  intros Hn Hw. pose proof (w_tf_ge_1 n Hn). simpl. nra.
Qed.

(** The inner loop over one postings list. *)
Lemma foldl_add_norm_keys w pl dn k :
  is_Some (foldl (add_norm w) dn pl !! k)
  ↔ is_Some (dn !! k) ∨ ∃ e, e ∈ pl ∧ k = KInt (doc_id e).
Proof.
  revert dn. induction pl as [|e pl IH]; intros dn; simpl.
  - split; [by left|]. intros [?|(e & ?%elem_of_nil & _)]; done.
  - rewrite IH. unfold add_norm at 1. rewrite lookup_insert_is_Some'. split.
    + intros [[<-|?]|(e' & He' & ->)]; [right; exists e; split; [left|done]|by left|].
      right. exists e'. split; [by right|done].
    + intros [?|(e' & [->|He']%elem_of_cons & ->)]; [left; by right|left; by left|].
      right. by exists e'.
Qed.

Lemma foldl_add_norm_pos w pl dn :
  1 <= w → Forall (λ e, (1 ≤ tf e)%nat) pl →
  map_Forall (λ _ v, 0 < v) dn →
  map_Forall (λ _ v, 0 < v) (foldl (add_norm w) dn pl).
Proof.
  intros Hw Hpl. revert dn. induction Hpl as [|e pl He Hpl IH]; intros dn Hdn; [done|].
  simpl. apply IH. unfold add_norm. apply map_Forall_insert_2; [|done].
  pose proof (weight_square_pos (tf e) w He Hw) as Hsq.
  destruct (dn !! KInt (doc_id e)) as [v|] eqn:Hv; simpl; [|lra].
  specialize (Hdn _ _ Hv). simpl in Hdn. lra.
Qed.

(** The outer loop over the items of [postings]. *)
Lemma foldl_norm_items_keys (idf : gmap string R) items dn k :
  is_Some (foldl (λ dn '(token, plist),
             foldl (add_norm (default 0 (idf !! token))) dn plist) dn items !! k)
  ↔ is_Some (dn !! k)
    ∨ ∃ t pl e, (t, pl) ∈ items ∧ e ∈ pl ∧ k = KInt (doc_id e).
Proof.
  revert dn. induction items as [|[t pl] items IH]; intros dn; simpl.
  - split; [by left|]. intros [?|(? & ? & ? & ?%elem_of_nil & _)]; done.
  - rewrite IH, foldl_add_norm_keys. split.
    + intros [[?|(e & He & ->)]|(t' & pl' & e & Hin & He & ->)]; [by left| |].
      * right. exists t, pl, e. split; [left|done].
      * right. exists t', pl', e. split; [by right|done].
    + intros [?|(t' & pl' & e & [[= -> ->]|Hin]%elem_of_cons & He & ->)].
      * left. by left.
      * left. right. by exists e.
      * right. by exists t', pl', e.
Qed.

Lemma foldl_norm_items_pos (idf : gmap string R) items dn :
  Forall (λ '(t, pl), 1 <= default 0 (idf !! t) ∧ Forall (λ e, (1 ≤ tf e)%nat) pl) items →
  map_Forall (λ _ v, 0 < v) dn →
  map_Forall (λ _ v, 0 < v)
    (foldl (λ dn '(token, plist),
       foldl (add_norm (default 0 (idf !! token))) dn plist) dn items).
Proof.
  intros Hitems. revert dn.
  induction Hitems as [|[t pl] items [Hw Hpl] Hitems IH]; intros dn Hdn; [done|].
  simpl. apply IH. by apply foldl_add_norm_pos.
Qed.

End weight_facts.

Section norm_facts.
Import Preprocess Indexer.

Lemma sorted_lt_length (l : list nat) n :
  StronglySorted lt l → Forall (λ x, x < n) l → length l ≤ n.
Proof.
  intros Hs Hl. transitivity (length (seq 0 n)); [|by rewrite length_seq].
  apply submseteq_length.
  apply NoDup_submseteq; [by apply StronglySorted_lt_NoDup|].
  intros x Hx. rewrite Forall_forall in Hl. apply elem_of_seq.
  specialize (Hl x Hx). lia.
Qed.

Lemma build_index_doc_norm_eq files :
  doc_norm (build_index files)
  = sqrt <$> norm_squares (postings (build_index files)) (idf (build_index files)).
Proof. done. Qed.

(** The inverse document frequency stored for a term of a built index. *)
Lemma build_index_idf_lookup files t pl :
  postings (build_index files) !! t = Some pl →
  idf (build_index files) !! t
    = Some (idf_of (N (build_index files)) (length pl))
  ∧ length pl ≤ N (build_index files).
Proof.
  intros Hpl. rewrite build_index_idf, build_index_df, !lookup_fmap, Hpl.
  split; [done|].
  destruct (build_index_plist files t pl Hpl) as (_ & Hs & Hall).
  rewrite <-(length_fmap doc_id). apply sorted_lt_length; [done|].
  apply Forall_fmap. eapply Forall_impl; [done|]. by intros e [? _].
Qed.

(** A norm is stored for exactly the documents that occur in postings. *)
Lemma build_index_doc_norm_keys files k :
  is_Some (doc_norm (build_index files) !! k)
  ↔ ∃ t pl e, postings (build_index files) !! t = Some pl ∧ e ∈ pl ∧ k = KInt (doc_id e).
Proof.
  rewrite build_index_doc_norm_eq, lookup_fmap, fmap_is_Some.
  unfold norm_squares. rewrite foldl_norm_items_keys, lookup_empty. split.
  - intros [[? [=]]|(t & pl & e & Hin%elem_of_map_to_list & He & ->)].
    by exists t, pl, e.
  - intros (t & pl & e & Hin & He & ->). right. exists t, pl, e.
    by rewrite elem_of_map_to_list.
Qed.

(** Every stored norm is positive. *)
Lemma build_index_doc_norm_pos files k v :
  doc_norm (build_index files) !! k = Some v → (0 < v)%R.
Proof.
  rewrite build_index_doc_norm_eq, lookup_fmap.
  destruct (norm_squares _ _ !! k) as [sq|] eqn:Hsq; [|done].
  intros [= <-]. apply sqrt_lt_R0. revert Hsq. unfold norm_squares.
  apply (foldl_norm_items_pos (idf (build_index files))
           (map_to_list (postings (build_index files))) ∅); [|apply map_Forall_empty].
  apply Forall_forall. intros [t pl] Hin%elem_of_map_to_list.
  destruct (build_index_idf_lookup files t pl Hin) as [-> Hlen]. simpl. split.
  - by apply idf_of_ge_1.
  - destruct (build_index_plist files t pl Hin) as (_ & _ & Hall).
    eapply Forall_impl; [done|]. by intros e [_ ?].
Qed.

(** A norm is stored for document [d] exactly when its text has terms. *)
Lemma build_index_doc_norm_terms files d text :
  forward_index (build_index files) !! KInt d = Some text →
  is_Some (doc_norm (build_index files) !! KInt d) ↔ preprocess text ≠ [].
Proof.
  intros Htext. rewrite build_index_doc_norm_keys. split.
  - intros (t & pl & [d' n] & Hpl & He & [= ->]). simpl in *.
    destruct (proj1 (build_index_entries files t d' n)) as (text' & Htext' & Hin & _).
    { by exists pl. }
    pose proof (eq_trans (eq_sym Htext) Htext') as [= <-].
    intros Hnil. rewrite Hnil in Hin. by apply elem_of_nil in Hin.
  - intros Hne. destruct (preprocess text) as [|t ts] eqn:Htok; [done|].
    destruct (proj2 (build_index_entries files t d (term_count t (preprocess text))))
      as (pl & Hpl & He).
    { exists text. rewrite Htok. repeat split; [done|left]. }
    by exists t, pl, (Posting d (term_count t (preprocess text))).
Qed.

Lemma build_index_assigned files d :
  d < N (build_index files) ↔ is_Some (forward_index (build_index files) !! KInt d).
Proof.
  rewrite build_index_N, build_index_forward.
  pose proof (build_inv_loop files) as Hinv. split.
  - apply (inv_assigned _ Hinv).
  - intros [text Htext]. destruct (decide (d < st_doc_id (foldl index_file init_state files)))
      as [?|Hge]; [done|].
    destruct (inv_fresh _ Hinv d) as [_ Hnone]; [lia|]. congruence.
Qed.

End norm_facts.

(** C7, as the code has it: every document id assigned by [build_index]
    has a text; when that text has terms the index stores a norm for the
    document and the norm is positive, and when the text has no terms the
    index stores no norm for it. *)
Theorem C7_doc_norm_positive_or_absent (files : list Indexer.source_file) (d : nat) :
  d < N (Indexer.build_index files) →
  ∃ text, forward_index (Indexer.build_index files) !! KInt d = Some text
    ∧ match doc_norm (Indexer.build_index files) !! KInt d with
      | Some v => (0 < v)%R ∧ Preprocess.preprocess text ≠ []
      | None => Preprocess.preprocess text = []
      end.
Proof.
  intros [text Htext]%build_index_assigned. exists text. split; [done|].
  pose proof (build_index_doc_norm_terms files d text Htext) as Hterms.
  destruct (doc_norm _ !! KInt d) as [v|] eqn:Hv.
  - split; [by eapply build_index_doc_norm_pos|]. apply Hterms. by eexists.
  - destruct (decide (Preprocess.preprocess text = [])) as [?|Hne]; [done|].
    apply Hterms in Hne as [? [=]].
Qed.

(** ** Scores *)

Section score_facts.
Import Preprocess Indexer Search.

Lemma collect_lists_inv postings tokens lists :
  collect_lists postings tokens = Some lists →
  ∀ t, t ∈ tokens → ∃ pl, postings !! t = Some pl ∧ pl ≠ [].
Proof.
  revert lists. induction tokens as [|u ts IH]; intros lists; simpl.
  { by intros _ t ?%elem_of_nil. }
  destruct (postings !! u) as [[|e pl]|] eqn:Hu; [done| |done].
  destruct (collect_lists postings ts) as [ls|]; [|done].
  intros _ t [->|Ht]%elem_of_cons; [by exists (e :: pl)|by eapply IH].
Qed.

(** What [search] returns for a document: it is listed under every token of
    the query, and its score is the one the scoring loop computes. *)
Lemma search_elem query index d s :
  (d, s) ∈ search query index →
  (∀ t, t ∈ preprocess query → has_posting index t d)
  ∧ s = score_doc index
          (build_tf_map (postings index) (distinct (preprocess query)))
          (distinct (preprocess query)) d.
Proof.
  unfold search. destruct (preprocess query) as [|t0 ts] eqn:Htok.
  { by intros ?%elem_of_nil. }
  destruct (collect_lists (postings index) (t0 :: ts)) as [lists|] eqn:Hl.
  2:{ by intros ?%elem_of_nil. }
  pose proof (collect_lists_inv _ _ _ Hl) as Hall.
  assert (lists = (λ t, default [] (postings index !! t)) <$> t0 :: ts) as Hlists.
  { rewrite (collect_lists_Some _ _ Hall) in Hl. by injection Hl. }
  assert (lists ≠ []) as Hne by (by rewrite Hlists).
  destruct (_and_intersect lists) as [|d0 ds] eqn:Hc.
  { by intros ?%elem_of_nil. }
  rewrite merge_sort_Permutation.
  intros (d' & [= -> ->] & Hd)%list_elem_of_fmap. split; [|done].
  rewrite <-Hc in Hd. pose proof (proj1 (and_intersect_elem lists d' Hne) Hd) as Hd'.
  intros t Ht. destruct (Hall t Ht) as (pl & Hpl & _).
  specialize (Hd' pl). rewrite elem_of_doc_ids in Hd'.
  destruct Hd' as (e & He & Hde).
  - rewrite Hlists. apply list_elem_of_fmap. exists t. by rewrite Hpl.
  - by exists pl, e.
Qed.

Lemma tf_dict_lookup_ne pl (m : gmap nat nat) k :
  k ∉ doc_id <$> pl → foldl (λ d e, <[doc_id e := tf e]> d) m pl !! k = m !! k.
Proof.
  revert m. induction pl as [|e pl IH]; intros m; simpl; [done|].
  intros [Hk Hpl]%not_elem_of_cons. rewrite IH by done.
  by rewrite lookup_insert_ne.
Qed.

Lemma tf_dict_lookup pl e :
  NoDup (doc_id <$> pl) → e ∈ pl → tf_dict pl !! doc_id e = Some (tf e).
Proof.
  unfold tf_dict. generalize (∅ : gmap nat nat).
  induction pl as [|e0 pl IH]; intros m; [by intros _ ?%elem_of_nil|].
  rewrite fmap_cons. intros [H0 Hnd]%NoDup_cons [->|He]%elem_of_cons; simpl.
  - rewrite tf_dict_lookup_ne by done. apply lookup_insert_eq.
  - by apply IH.
Qed.

Lemma build_tf_map_lookup postings terms t :
  t ∈ terms →
  build_tf_map postings terms !! t = Some (tf_dict (default [] (postings !! t))).
Proof.
  unfold build_tf_map. generalize (∅ : gmap string (gmap nat nat)).
  induction terms as [|u terms IH] using rev_ind; intros m; [by intros ?%elem_of_nil|].
  rewrite foldl_snoc. destruct (decide (t = u)) as [->|Hne].
  - intros _. apply lookup_insert_eq.
  - intros [?|?%list_elem_of_singleton]%elem_of_app; [|done].
    rewrite lookup_insert_ne by done. by apply IH.
Qed.

Lemma sum_terms_eq tf_map (idf : gmap string R) d (c : string → nat) terms s0 :
  (∀ t, t ∈ terms → tf_map !! t ≫= (.!! d) = Some (c t) ∧ 1 ≤ c t) →
  sum_terms tf_map idf d terms s0
  = (s0 + sum_over terms (λ t, (1 + ln (INR (c t))) * default 0 (idf !! t)))%R.
Proof.
  revert s0. induction terms as [|t terms IH]; intros s0 H; simpl.
  { unfold sum_over. simpl. lra. }
  destruct (H t) as [-> Hc]; [left|].
  destruct (c t) as [|n] eqn:Hct; [lia|].
  rewrite IH by (intros u Hu; apply H; by right).
  unfold sum_over. cbn [foldr]. rewrite ?Hct. lra.
Qed.

Lemma sum_over_ext terms f g :
  (∀ t, t ∈ terms → f t = g t) → sum_over terms f = sum_over terms g.
Proof.
  induction terms as [|t terms IH]; intros H; [done|].
  unfold sum_over in *. simpl. rewrite (H t) by left. f_equal.
  apply IH. intros u Hu. apply H. by right.
Qed.

(** The order in which the terms are visited does not change the sum. *)
Lemma sum_over_Permutation terms1 terms2 f :
  terms1 ≡ₚ terms2 → sum_over terms1 f = sum_over terms2 f.
Proof.
  induction 1 as [|t l1 l2 Hp IH|t u l|l1 l2 l3 H1 IH1 H2 IH2];
    unfold sum_over in *; simpl; [done| |lra|congruence].
  by rewrite IH.
Qed.

Lemma elem_of_distinct t tokens : t ∈ distinct tokens ↔ t ∈ tokens.
Proof. unfold distinct. by rewrite elem_of_elements, elem_of_list_to_set. Qed.

Lemma score_doc_divisor index tf_map terms d :
  score_doc index tf_map terms d
  = (sum_terms tf_map (idf index) d terms 0 / norm_divisor index d)%R.
Proof.
  unfold score_doc, norm_divisor.
  destruct (doc_norm index !! KInt d) as [v|]; simpl.
  - case_decide; [done|]. unfold Rdiv. rewrite Rinv_1. lra.
  - rewrite decide_True by lra. done.
Qed.

(** The score of a document in a built index. *)
Lemma build_index_score files query d s text :
  (d, s) ∈ search query (build_index files) →
  forward_index (build_index files) !! KInt d = Some text →
  s = (sum_over (distinct (preprocess query))
         (term_weight (build_index files) (preprocess text))
       / norm_divisor (build_index files) d)%R.
Proof.
  intros [Hposts ->]%search_elem Htext. rewrite score_doc_divisor. f_equal.
  set (index := build_index files) in *.
  rewrite (sum_terms_eq _ _ _ (λ t, term_count t (preprocess text))).
  - rewrite Rplus_0_l. apply sum_over_ext. intros t Ht.
    apply (proj1 (elem_of_distinct _ _)) in Ht.
    destruct (Hposts t Ht) as (pl & e & Hpl & _).
    destruct (build_index_idf_lookup files t pl Hpl) as [Hidf _].
    assert (df index !! t = Some (length pl)) as Hdf.
    { unfold index. rewrite build_index_df, lookup_fmap. fold index. by rewrite Hpl. }
    fold index in Hidf. unfold term_weight. by rewrite Hidf, Hdf.
  - intros t Ht. pose proof (proj1 (elem_of_distinct _ _) Ht) as Ht'.
    destruct (Hposts t Ht') as (pl & [d' n] & Hpl & He & Hd). simpl in Hd. subst d'.
    destruct (proj1 (build_index_entries files t d n)) as (text' & Htext' & Hin & Hn).
    { by exists pl. }
    pose proof (eq_trans (eq_sym Htext) Htext') as [= <-].
    rewrite build_tf_map_lookup by done. fold index in Hpl. rewrite Hpl. simpl.
    destruct (build_index_plist files t pl Hpl) as (_ & Hs & _).
    split; [|by apply term_count_pos].
    rewrite <-Hn. apply (tf_dict_lookup pl (Posting d n)); [|done].
    by apply StronglySorted_lt_NoDup.
Qed.

End score_facts.

(** C2: in a built index, the score that [search] returns for a document
    is the sum, over the distinct terms of the query, of
    [(1 + ln tf) * (ln((N+1)/(df+1)) + 1)], [tf] being the number of times
    the term occurs among the tokens of the document, divided by the norm
    stored for the document (by 1 if that norm were zero or absent); the
    stored norm is positive, and the stored inverse document frequencies
    are [ln((N+1)/(df+1)) + 1].  The distinct terms are any list that holds
    every token of the query once and nothing else: a term that the query
    repeats is counted once. *)
Theorem C2_score_formula (files : list Indexer.source_file) (query : string)
    (d : nat) (s : R) :
  (d, s) ∈ Search.search query (Indexer.build_index files) →
  (∃ text, forward_index (Indexer.build_index files) !! KInt d = Some text
     ∧ ∀ terms, NoDup terms →
         (∀ t, t ∈ terms ↔ t ∈ Preprocess.preprocess query) →
         s = (sum_over terms
                (term_weight (Indexer.build_index files) (Preprocess.preprocess text))
              / norm_divisor (Indexer.build_index files) d)%R)
  ∧ doc_norm (Indexer.build_index files) !! KInt d
    = Some (norm_divisor (Indexer.build_index files) d)
  ∧ (∀ t, idf (Indexer.build_index files) !! t
          = (λ dfi, (ln (INR (N (Indexer.build_index files) + 1) / INR (dfi + 1)) + 1)%R)
            <$> df (Indexer.build_index files) !! t).
Proof.
  intros Hin. pose proof (search_elem _ _ _ _ Hin) as [Hposts _].
  assert (Preprocess.preprocess query ≠ []) as Htok.
  { intros Hnil. unfold Search.search in Hin. rewrite Hnil in Hin.
    by apply elem_of_nil in Hin. }
  destruct (Preprocess.preprocess query) as [|t ts] eqn:Hq; [done|].
  destruct (Hposts t) as (pl & [d' n] & Hpl & He & Hd); [left|].
  simpl in Hd. subst d'.
  destruct (proj1 (build_index_entries files t d n)) as (text & Htext & Ht & _).
  { by exists pl. }
  assert (is_Some (doc_norm (Indexer.build_index files) !! KInt d)) as [v Hv].
  { apply (build_index_doc_norm_terms files d text Htext).
    intros Hnil. rewrite Hnil in Ht. by apply elem_of_nil in Ht. }
  repeat split.
  - exists text. split; [done|]. rewrite <-Hq. intros terms Hnd Hmem.
    etrans; [by apply build_index_score|]. f_equal.
    apply sum_over_Permutation, NoDup_Permutation; [|done|].
    + unfold Search.distinct. apply NoDup_elements.
    + intros u. by rewrite elem_of_distinct, Hmem.
  - unfold norm_divisor. rewrite Hv.
    by rewrite decide_True by by eapply build_index_doc_norm_pos.
  - intros u. by rewrite build_index_idf, lookup_fmap.
Qed.

(** ** Persistence *)

Section storage_facts.
Import Storage.

Global Instance KStr_inj : Inj (=) (=) KStr.
Proof. by intros ?? [=]. Qed.

(** After the round trip no norm is found under an integer key. *)
Lemma roundtrip_doc_norm index d :
  doc_norm (load_index (save_index index)) !! KInt d = None.
Proof.
  unfold load_index; simpl. apply lookup_kmap_None; [apply _|]. by intros s [=].
Qed.

(** Searching the index that was saved and loaded is searching the index
    without its norms. *)
Lemma search_roundtrip query index :
  Search.search query (load_index (save_index index))
  = Search.search query
      (mkIndex (doc_id_map index) (forward_index index) (postings index)
               (df index) (idf index) (N index) ∅).
Proof.
  unfold Search.search.
  change (postings (load_index (save_index index))) with (postings index).
  cbn [postings].
  destruct (Preprocess.preprocess query) as [|t ts]; [done|].
  destruct (Search.collect_lists _ _) as [lists|]; [|done].
  destruct (Search._and_intersect lists) as [|d ds]; [done|].
  f_equal. apply list_fmap_ext. intros _ d' _. f_equal.
  unfold Search.score_doc. rewrite roundtrip_doc_norm. cbn [doc_norm idf].
  by rewrite lookup_empty.
Qed.

End storage_facts.

(** ** LRU cache *)

Section lru_facts.
Context {V : Type}.
Implicit Types (kept items : list (string * V)) (c : LRU.LRUCache V).

Lemma lru_init_inv (cap : Z) c :
  LRU.init cap = inl c → (0 < cap)%Z ∧ c = lru_state cap [] 0 0.
Proof.
  unfold LRU.init. case_decide; [done|]. intros [= <-]. split; [lia|done].
Qed.

(** [put] of a new key into a cache that is not full. *)
Lemma put_not_full cap kept h m key v :
  NoDup kept.*1 → key ∉ kept.*1 → (Z.of_nat (length kept) < cap)%Z →
  LRU.put key v (lru_state cap kept h m)
  = LRU.mkLRU cap (<[key := v]> (list_to_map kept)) (key :: reverse kept.*1) h m
  ∧ LRU.put key v (lru_state cap kept h m) = lru_state cap (kept ++ [(key, v)]) h m.
Proof.
  intros Hnd Hkey Hlen.
  assert (LRU.put key v (lru_state cap kept h m)
    = LRU.mkLRU cap (<[key := v]> (list_to_map kept)) (key :: reverse kept.*1) h m) as Hput.
  { unfold LRU.put, lru_state. simpl.
    rewrite (not_elem_of_list_to_map_1 _ _ Hkey). simpl.
    rewrite decide_False; [done|].
    rewrite map_size_insert_None by by apply not_elem_of_list_to_map_1.
    rewrite map_size_list_to_map by done. lia. }
  split; [done|]. rewrite Hput. unfold lru_state.
  rewrite list_to_map_snoc by done. by rewrite fmap_snoc, reverse_snoc.
Qed.

(** [put] of a new key into a full cache: the entry at the tail of the
    list goes, and only that one. *)
Lemma put_full cap lru v0 kept h m key v :
  NoDup (lru :: kept.*1) → key ∉ lru :: kept.*1 →
  Z.of_nat (S (length kept)) = cap →
  last (LRU.nodes (lru_state cap ((lru, v0) :: kept) h m)) = Some lru
  ∧ LRU.put key v (lru_state cap ((lru, v0) :: kept) h m)
    = LRU.mkLRU cap
        (delete lru (<[key := v]> (list_to_map ((lru, v0) :: kept))))
        (key :: removelast (reverse ((lru, v0) :: kept).*1)) h m
  ∧ LRU.put key v (lru_state cap ((lru, v0) :: kept) h m)
    = lru_state cap (kept ++ [(key, v)]) h m.
Proof.
  intros [Hlru Hnd]%NoDup_cons [Hne Hkey]%not_elem_of_cons Hlen.
  assert (reverse ((lru, v0) :: kept).*1 = reverse kept.*1 ++ [lru]) as Hrev.
  { by rewrite fmap_cons, reverse_cons. }
  assert (LRU.put key v (lru_state cap ((lru, v0) :: kept) h m)
    = LRU.mkLRU cap
        (delete lru (<[key := v]> (list_to_map ((lru, v0) :: kept))))
        (key :: removelast (reverse ((lru, v0) :: kept).*1)) h m) as Hput.
  { unfold LRU.put. cbn [lru_state LRU.map LRU.nodes LRU.capacity LRU.hits LRU.misses].
    rewrite list_to_map_cons, lookup_insert_ne by done.
    rewrite (not_elem_of_list_to_map_1 _ _ Hkey).
    cbn [LRU._insert_front LRU.map LRU.nodes LRU.capacity LRU.hits LRU.misses].
    rewrite decide_True.
    - unfold LRU._evict_lru, LRU._insert_front.
      cbn [LRU.map LRU.nodes LRU.capacity LRU.hits LRU.misses].
      rewrite Hrev. rewrite (last_cons key), last_snoc.
      by rewrite (app_comm_cons _ _ key), !removelast_last.
    - rewrite map_size_insert_None.
      2:{ rewrite lookup_insert_ne by done. by apply not_elem_of_list_to_map_1. }
      rewrite map_size_insert_None by by apply not_elem_of_list_to_map_1.
      rewrite map_size_list_to_map by done. lia. }
  split; [|split; [done|]].
  - unfold lru_state. cbn [LRU.nodes]. by rewrite Hrev, last_snoc.
  - rewrite Hput. unfold lru_state. f_equal.
    + rewrite list_to_map_cons, list_to_map_snoc by done.
      rewrite delete_insert_ne by done. f_equal.
      rewrite delete_insert_eq. apply delete_id. by apply not_elem_of_list_to_map_1.
    + rewrite Hrev, removelast_last. by rewrite fmap_snoc, reverse_snoc.
Qed.

Lemma put_all_snoc c items kv :
  put_all c (items ++ [kv]) = LRU.put kv.1 kv.2 (put_all c items).
Proof. unfold put_all. by rewrite foldl_snoc. Qed.

Lemma NoDup_drop_fst items n : NoDup items.*1 → NoDup (drop n items).*1.
Proof. rewrite fmap_drop. intros Hnd. eapply sublist_NoDup; [done|apply sublist_drop]. Qed.

Lemma not_elem_of_drop_fst items n (key : string) :
  key ∉ items.*1 → key ∉ (drop n items).*1.
Proof. rewrite fmap_drop. intros Hk Hin. by apply Hk, (subseteq_drop n). Qed.

(** One more [put] of a new key, after the fresh cache received [items]. *)
Lemma put_after_fresh cap items key v :
  (0 < cap)%Z → NoDup items.*1 → key ∉ items.*1 →
  let before := lru_state cap (drop (length items - Z.to_nat cap) items) 0 0 in
  let after := LRU.put key v before in
  after = lru_state cap
            (drop (length (items ++ [(key, v)]) - Z.to_nat cap) (items ++ [(key, v)])) 0 0
  ∧ (length items < Z.to_nat cap →
       LRU.nodes after = key :: LRU.nodes before
       ∧ LRU.map after = <[key := v]> (LRU.map before))
  ∧ (Z.to_nat cap ≤ length items →
       ∃ lru, fst <$> items !! (length items - Z.to_nat cap) = Some lru
         ∧ last (LRU.nodes before) = Some lru
         ∧ LRU.nodes after = key :: removelast (LRU.nodes before)
         ∧ LRU.map after = delete lru (<[key := v]> (LRU.map before))).
Proof.
  intros Hcap Hnd Hkey before after. unfold after, before. clear after before.
  rewrite length_app. simpl.
  destruct (decide (length items < Z.to_nat cap)) as [Hlt|Hge].
  - replace (length items - Z.to_nat cap) with 0 by lia.
    replace (length items + 1 - Z.to_nat cap) with 0 by lia. rewrite !drop_0.
    destruct (put_not_full cap items 0 0 key v Hnd Hkey) as [Hput Hst]; [lia|].
    split; [done|]. split; [|lia]. intros _. by rewrite Hput.
  - assert (is_Some (items !! (length items - Z.to_nat cap))) as [[lru v0] Hx].
    { apply lookup_lt_is_Some. lia. }
    rewrite (drop_S _ _ _ Hx).
    replace (length items + 1 - Z.to_nat cap)
      with (S (length items - Z.to_nat cap)) by lia.
    rewrite drop_app_le by lia.
    set (rest := drop (S (length items - Z.to_nat cap)) items).
    assert (NoDup (lru :: rest.*1)) as Hnd'.
    { change (NoDup ((lru, v0) :: rest).*1). unfold rest.
      rewrite <-(drop_S _ _ _ Hx). by apply NoDup_drop_fst. }
    assert (key ∉ lru :: rest.*1) as Hkey'.
    { change (key ∉ ((lru, v0) :: rest).*1). unfold rest.
      rewrite <-(drop_S _ _ _ Hx). by apply not_elem_of_drop_fst. }
    destruct (put_full cap lru v0 rest 0 0 key v Hnd' Hkey') as (Hlast & Hput & Hst).
    { unfold rest. rewrite length_drop. lia. }
    split; [done|]. split; [lia|]. intros _. exists lru.
    rewrite Hx, Hput. done.
Qed.

(** The fresh cache after [put] of items with distinct keys: it holds the
    last [capacity] of them. *)
Lemma put_all_fresh cap c0 items :
  LRU.init cap = inl c0 → NoDup items.*1 →
  put_all c0 items = lru_state cap (drop (length items - Z.to_nat cap) items) 0 0.
Proof.
  intros [Hcap ->]%lru_init_inv.
  induction items as [|[key v] items IH] using rev_ind; intros Hnd; [done|].
  rewrite fmap_snoc in Hnd. apply NoDup_app in Hnd as (Hnd & Hkey & _).
  rewrite put_all_snoc, IH by done. simpl.
  apply (put_after_fresh cap items key v); [done..|].
  intros Hin. apply (Hkey key Hin). left.
Qed.

End lru_facts.

(** C5: [c + k] items with distinct keys, [k >= 1], are [put] into a new
    cache of capacity [c].  Afterwards the cache holds the last [c] of them
    and nothing else, the most recent at the head of the list.  On the way,
    every [put] into the full cache removes the entry at the tail of the
    list, which is the one put [c] steps before, and leaves the others. *)
Theorem C5_lru_keeps_most_recent {V : Type} (cap : Z) (k : nat)
    (items : list (string * V)) (c0 : LRU.LRUCache V) :
  LRU.init cap = inl c0 →
  NoDup items.*1 →
  length items = Z.to_nat cap + k →
  1 ≤ k →
  (LRU.nodes (put_all c0 items) = reverse (drop k items.*1)
   ∧ LRU.map (put_all c0 items) = list_to_map (drop k items)
   ∧ size (LRU.map (put_all c0 items)) = Z.to_nat cap)
  ∧ ∀ i key v, items !! i = Some (key, v) → Z.to_nat cap ≤ i →
      ∃ lru, fst <$> items !! (i - Z.to_nat cap) = Some lru
        ∧ last (LRU.nodes (put_all c0 (take i items))) = Some lru
        ∧ LRU.nodes (put_all c0 (take (S i) items))
          = key :: removelast (LRU.nodes (put_all c0 (take i items)))
        ∧ LRU.map (put_all c0 (take (S i) items))
          = delete lru (<[key := v]> (LRU.map (put_all c0 (take i items)))).
Proof.
  intros Hinit Hnd Hlen Hk. split.
  - rewrite (put_all_fresh cap c0 items Hinit Hnd).
    replace (length items - Z.to_nat cap) with k by lia.
    unfold lru_state; simpl. rewrite fmap_drop. repeat split.
    rewrite map_size_list_to_map by by apply NoDup_drop_fst.
    rewrite length_drop. lia.
  - intros i key v Hi Hge.
    pose proof (lookup_lt_Some _ _ _ Hi) as Hilt.
    assert (NoDup (take i items).*1) as Hndi.
    { rewrite fmap_take. eapply sublist_NoDup; [done|apply sublist_take]. }
    assert (key ∉ (take i items).*1) as Hkey.
    { rewrite <-(take_drop i items), (drop_S _ _ _ Hi), fmap_app, fmap_cons in Hnd.
      apply NoDup_app in Hnd as (_ & Hdisj & _). intros Hin.
      apply (Hdisj key Hin). left. }
    rewrite (take_S_r _ _ _ Hi), put_all_snoc. simpl.
    rewrite (put_all_fresh cap c0 (take i items) Hinit Hndi).
    destruct (lru_init_inv cap c0 Hinit) as [Hcap _].
    destruct (put_after_fresh cap (take i items) key v Hcap Hndi Hkey) as (_ & _ & Hfull).
    rewrite length_take_le in Hfull by lia. rewrite length_take_le by lia.
    destruct (Hfull Hge) as (lru & Hlru & Hrest). exists lru. split; [|done].
    rewrite lookup_take_lt in Hlru by lia. done.
Qed.

(** C9: [LRUCache(capacity)] with [capacity <= 0] raises [ValueError], for
    every value type, so no cache object comes out of it; a search service
    asked for such a capacity builds no cache at all. *)
Theorem C9_nonpositive_capacity_rejected (cap : Z) :
  (cap ≤ 0)%Z →
  (∀ V : Type, LRU.init (V := V) cap = inr (ValueError "capacity must be > 0"))
  ∧ (∀ index, ∃ svc, Service.init index cap = inl svc ∧ Service.cache svc = None).
Proof.
  intros Hcap. split.
  - intros V. unfold LRU.init. by rewrite decide_True.
  - intros index. unfold Service.init. rewrite decide_False by lia. by eexists.
Qed.

(** ** Search service *)

Section service_facts.
Import Preprocess.

Lemma service_init_inv index cap svc :
  Service.init index cap = inl svc → (0 < cap)%Z →
  svc = Service.mkService index (Some (lru_state cap [] 0 0)) 0 0%R.
Proof.
  unfold Service.init. intros Hinit Hcap. rewrite decide_True in Hinit by done.
  destruct (LRU.init cap) as [c|e] eqn:Hc; [|done].
  apply lru_init_inv in Hc as [_ ->]. by injection Hinit.
Qed.

(** A query with results has a non-empty trimmed text and a non-empty
    cache key. *)
Lemma search_nonempty_key query index :
  Search.search query index ≠ [] →
  Indexer.strip query ≠ EmptyString ∧ Service._normalize_key (Indexer.strip query) ≠ EmptyString.
Proof.
  intros Hres.
  assert (preprocess query ≠ []) as Htok.
  { intros Hnil. apply Hres. unfold Search.search. by rewrite Hnil. }
  rewrite <-preprocess_strip in Htok. split.
  - intros Hq. by rewrite Hq in Htok.
  - unfold Service._normalize_key. intros Hkey. apply Htok.
    apply join_space_empty; [|done].
    eapply Forall_impl; [apply preprocess_terms|]. by intros t [? _].
Qed.

(** The first search of a query with results on a new service with a
    cache: a miss, and the results are stored. *)
Lemma service_first_search index cap query start now :
  (0 < cap)%Z → Search.search query index ≠ [] →
  let res := Search.search query index in
  let key := Service._normalize_key (Indexer.strip query) in
  Service.search (Service.mkService index (Some (lru_state cap [] 0 0)) 0 0%R)
                 query start now
  = (Service.mkResponse res ((now - start) * 1000)%R false,
     Service.mkService index (Some (lru_state cap [(key, res)] 0 1)) 1
                       (0 + (now - start) * 1000)%R).
Proof.
  intros Hcap Hres res key.
  destruct (search_nonempty_key query index Hres) as [Hq Hkey].
  unfold Service.search. fold key in Hkey |- *.
  destruct (Indexer.strip query) as [|a q] eqn:Eq; [done|].
  destruct key as [|b k] eqn:Ek; [done|].
  cbn [Service.cache Service.index]. unfold LRU.get at 1.
  cbn [LRU.map lru_state]. rewrite list_to_map_nil, lookup_empty.
  rewrite <-Eq, search_strip. fold res.
  destruct res as [|x res'] eqn:Er; [done|].
  destruct (put_not_full cap [] 0 1 (String b k) (x :: res')) as [_ Hput];
    [constructor|by intros ?%elem_of_nil|simpl; lia|].
  unfold Service.reply. cbn [Service.index Service.total_queries Service.total_time_ms].
  simpl app in Hput. rewrite <-Hput. reflexivity.
Qed.

(** The same query again: a hit, with the stored results. *)
Lemma service_second_search index cap query res n time start now :
  Search.search query index ≠ [] →
  let key := Service._normalize_key (Indexer.strip query) in
  Service.search (Service.mkService index (Some (lru_state cap [(key, res)] 0 1)) n time)
                 query start now
  = (Service.mkResponse res ((now - start) * 1000)%R true,
     Service.mkService index (Some (lru_state cap [(key, res)] 1 1)) (S n)
                       (time + (now - start) * 1000)%R).
Proof.
  intros Hres key.
  destruct (search_nonempty_key query index Hres) as [Hq Hkey].
  unfold Service.search. fold key in Hkey |- *.
  destruct (Indexer.strip query) as [|a q] eqn:Eq; [done|].
  destruct key as [|b k] eqn:Ek; [done|].
  cbn [Service.cache Service.index]. unfold LRU.get.
  cbn [LRU.map lru_state LRU._remove LRU._insert_front LRU.nodes LRU.capacity
       LRU.hits LRU.misses].
  rewrite list_to_map_cons, lookup_insert_eq.
  unfold Service.reply. cbn [Service.index Service.total_queries Service.total_time_ms].
  unfold lru_state. simpl. rewrite decide_True by done. done.
Qed.

End service_facts.

(** C6, as the code has it: on a newly built search service with a cache,
    a query that has results is answered with [cached = False] the first
    time and with [cached = True] and the same results the second time, and
    the cache then counts one hit and one miss. *)
Theorem C6_second_identical_query_is_cached (index : Index) (cap : Z)
    (svc0 : Service.SearchService) (query : string) (t1 t2 t3 t4 : R) :
  Service.init index cap = inl svc0 →
  (0 < cap)%Z →
  Search.search query index ≠ [] →
  let first := Service.search svc0 query t1 t2 in
  let second := Service.search first.2 query t3 t4 in
  Service.cached first.1 = false
  ∧ Service.results first.1 = Search.search query index
  ∧ Service.cached second.1 = true
  ∧ Service.results second.1 = Service.results first.1
  ∧ LRU.hits <$> Service.cache second.2 = Some 1
  ∧ LRU.misses <$> Service.cache second.2 = Some 1.
Proof.
  intros Hinit Hcap Hres first second. unfold second, first.
  rewrite (service_init_inv index cap svc0 Hinit Hcap).
  rewrite (service_first_search index cap query t1 t2 Hcap Hres).
  cbn [fst snd].
  rewrite (service_second_search index cap query _ _ _ t3 t4 Hres).
  done.
Qed.

(** ** The sample inputs, evaluated *)

(** Replace a closed term that holds no real number by its value. *)
Ltac evaluate t :=
  let v := eval vm_compute in t in
  replace t with v by (vm_compute; reflexivity).

Section example_facts.
Import Preprocess Indexer Search Storage Examples.

Lemma two_docs_postings_search :
  postings (build_index two_docs) !! "search" = Some [Posting 0 1; Posting 1 1].
Proof. rewrite build_index_postings. vm_compute. reflexivity. Qed.

Lemma two_docs_postings_engines :
  postings (build_index two_docs) !! "engines" = Some [Posting 0 1].
Proof. rewrite build_index_postings. vm_compute. reflexivity. Qed.

Lemma two_docs_postings_zebra : postings (build_index two_docs) !! "zebra" = None.
Proof. rewrite build_index_postings. vm_compute. reflexivity. Qed.

Lemma two_docs_N : N (build_index two_docs) = 2.
Proof. rewrite build_index_N. vm_compute. reflexivity. Qed.

(** The scenario of the design document: only document 0 holds both terms. *)
Lemma two_docs_search :
  ∃ s, search "search engines" (build_index two_docs) = [(0, s)].
Proof.
  eexists. unfold search.
  change (preprocess "search engines") with ["search"; "engines"].
  cbv beta iota. rewrite build_index_postings.
  match goal with |- context [collect_lists ?p ?t] => evaluate (collect_lists p t) end.
  cbv beta iota.
  match goal with |- context [_and_intersect ?l] => evaluate (_and_intersect l) end.
  reflexivity.
Qed.

Lemma two_docs_search_zebra : search "zebra search" (build_index two_docs) = [].
Proof.
  apply search_no_postings. right. exists "zebra". split.
  - change (preprocess "zebra search") with ["zebra"; "search"]. left.
  - left. apply two_docs_postings_zebra.
Qed.

Lemma one_doc_items :
  map_to_list (postings (build_index one_doc))
  = [("search", [Posting 0 1]); ("engines", [Posting 0 1])].
Proof. rewrite build_index_postings. vm_compute. reflexivity. Qed.

Lemma idf_of_1_1 : idf_of 1 1 = 1%R.
Proof.
  unfold idf_of. simpl. replace ((1 + 1) / (1 + 1))%R with 1%R by (field; lra).
  rewrite ln_1. lra.
Qed.

Lemma one_doc_idf t :
  t ∈ ["search"; "engines"] → idf (build_index one_doc) !! t = Some 1%R.
Proof.
  intros Ht. rewrite build_index_idf, lookup_fmap.
  evaluate (N (build_index one_doc)).
  assert (df (build_index one_doc) !! t = Some 1) as ->.
  { apply elem_of_cons in Ht as [->|Ht]; [by vm_compute|].
    apply list_elem_of_singleton in Ht as ->. by vm_compute. }
  simpl. by rewrite idf_of_1_1.
Qed.

Lemma one_doc_norm : doc_norm (build_index one_doc) !! KInt 0 = Some (sqrt 2).
Proof.
  rewrite build_index_doc_norm_eq, lookup_fmap. unfold norm_squares.
  rewrite one_doc_items. cbn [foldl].
  rewrite !one_doc_idf by (repeat constructor).
  unfold add_norm. cbn [doc_id tf default from_option].
  rewrite lookup_insert_eq, lookup_empty. cbn [default from_option].
  rewrite lookup_insert_eq. cbn [fmap option_fmap option_map]. do 2 f_equal.
  change (INR 1) with 1%R. rewrite ln_1. change (Datatypes.id 1%R) with 1%R.
  simpl. lra.
Qed.

(** The score of the one document for the query "search", whatever norms
    the index holds. *)
Lemma one_doc_search_with norms :
  search "search" (one_doc_index norms)
  = [(0, let norm := default 1%R (norms !! KInt 0) in
         if decide (0 < norm)%R then (1 / norm)%R else 1%R)].
Proof.
  unfold search. change (preprocess "search") with ["search"].
  cbv beta iota. unfold one_doc_index at 1 2. cbn [postings].
  rewrite build_index_postings.
  match goal with |- context [collect_lists ?p ?t] => evaluate (collect_lists p t) end.
  cbv beta iota.
  match goal with |- context [_and_intersect ?l] => evaluate (_and_intersect l) end.
  cbv beta iota.
  evaluate (distinct ["search"]).
  match goal with |- context [build_tf_map ?p ?t] =>
    set (tf_map := build_tf_map p t) end.
  assert (tf_map !! "search" ≫= (.!! 0) = Some 1) as Htf by (by vm_compute).
  match goal with |- merge_sort _ (?f <$> [0]) = _ =>
    change (merge_sort rank_le (f <$> [0])) with [f 0] end.
  cbv beta. do 2 f_equal. unfold score_doc. cbn [sum_terms]. rewrite Htf.
  cbn [idf doc_norm].
  rewrite one_doc_idf by (repeat constructor). cbn [default from_option].
  change (INR 1) with 1%R. rewrite ln_1. change (Datatypes.id 1%R) with 1%R.
  cbv zeta. case_decide; [f_equal|]; lra.
Qed.

Lemma one_doc_index_own : one_doc_index (doc_norm (build_index one_doc)) = build_index one_doc.
Proof. unfold one_doc_index. by destruct (build_index one_doc). Qed.

End example_facts.

(** C4 fails on the code: for the index of the one document "Search
    engines", the query "search" scores document 0 with [1 / sqrt 2], and
    with [1] on the index that was saved and loaded, because the norms are
    then stored under string keys and [doc_norm.get(d, 1.0)] looks them up
    under the integer [d]. *)
Theorem C4_roundtrip_loses_norms :
  Search.search "search" (Indexer.build_index Examples.one_doc)
    = [(0, (1 / sqrt 2)%R)]
  ∧ Search.search "search"
      (Storage.load_index (Storage.save_index (Indexer.build_index Examples.one_doc)))
    = [(0, 1%R)]
  ∧ Search.search "search"
      (Storage.load_index (Storage.save_index (Indexer.build_index Examples.one_doc)))
    ≠ Search.search "search" (Indexer.build_index Examples.one_doc).
Proof.
  assert (Search.search "search" (Indexer.build_index Examples.one_doc)
          = [(0, (1 / sqrt 2)%R)]) as H1.
  { rewrite <-one_doc_index_own at 1. rewrite one_doc_search_with, one_doc_norm.
    simpl. rewrite decide_True by apply Rlt_sqrt2_0. done. }
  assert (Search.search "search"
            (Storage.load_index (Storage.save_index (Indexer.build_index Examples.one_doc)))
          = [(0, 1%R)]) as H2.
  { rewrite search_roundtrip.
    change (mkIndex _ _ _ _ _ _ ∅) with (Examples.one_doc_index ∅).
    rewrite one_doc_search_with, lookup_empty. simpl.
    rewrite decide_True by lra. do 2 f_equal. lra. }
  repeat split; [done..|]. rewrite H1, H2. intros [= Heq].
  assert (sqrt 2 = 1)%R as Hs.
  { pose proof Rlt_sqrt2_0. apply (Rmult_eq_reg_l (/ sqrt 2)); [|apply Rinv_neq_0_compat; lra].
    rewrite Rinv_l by lra. unfold Rdiv in Heq. lra. }
  pose proof (sqrt_sqrt 2) as Hsq. rewrite Hs in Hsq. lra.
Qed.

(** ** More facts about the samples *)

Section counterexample_facts.
Import Preprocess Indexer Examples.

(** A search without results on a service whose cache is empty: nothing is
    stored, whatever the query. *)
Lemma service_search_no_results index cap m n time query start now :
  Search.search query index = [] →
  ∃ m', Service.search
          (Service.mkService index (Some (lru_state cap [] 0 m)) n time)
          query start now
        = (Service.mkResponse [] ((now - start) * 1000)%R false,
           Service.mkService index (Some (lru_state cap [] 0 m')) (S n)
                             (time + (now - start) * 1000)%R).
Proof.
  intros Hres. unfold Service.search.
  destruct (strip query) as [|a q] eqn:Eq; [by eexists|].
  destruct (Service._normalize_key (String a q)) as [|b k]; [by eexists|].
  cbn [Service.cache Service.index]. unfold LRU.get.
  cbn [LRU.map lru_state]. rewrite list_to_map_nil, lookup_empty.
  rewrite <-Eq, search_strip, Hres. by eexists.
Qed.

Lemma stop_words_doc_no_norm :
  forward_index (build_index stop_words_doc) !! KInt 0 = Some "The of and"
  ∧ preprocess "The of and" = []
  ∧ doc_norm (build_index stop_words_doc) !! KInt 0 = None.
Proof.
  assert (forward_index (build_index stop_words_doc) !! KInt 0 = Some "The of and") as Htext.
  { rewrite build_index_forward. vm_compute. reflexivity. }
  assert (preprocess "The of and" = []) as Htok by (by vm_compute).
  split; [done|]. split; [done|]. apply eq_None_not_Some. intros Hsome.
  by apply (build_index_doc_norm_terms _ _ _ Htext) in Hsome.
Qed.

End counterexample_facts.

(** C7 as stated fails: the document "The of and" gets document id 0 and
    has no terms, and the index holds no norm for it, so none that is 0. *)
Lemma C7_counterexample :
  0 < N (Indexer.build_index Examples.stop_words_doc)
  ∧ ¬ norm_zero_iff_no_terms (Indexer.build_index Examples.stop_words_doc) 0.
Proof.
  split.
  - rewrite build_index_N. vm_compute. lia.
  - intros (text & v & _ & Hv & _).
    destruct stop_words_doc_no_norm as (_ & _ & Hnone). congruence.
Qed.

(** C6 as stated fails: on a new service with a cache of capacity 8 over
    the two sample documents, the query "zebra search" has no results, is
    not stored, and is answered with [cached = False] the second time as
    well; the cache counts no hit. *)
Lemma C6_counterexample :
  ∃ svc0, Service.init (Indexer.build_index Examples.two_docs) 8 = inl svc0
    ∧ let first := Service.search svc0 "zebra search" 0 1 in
      let second := Service.search first.2 "zebra search" 1 2 in
      Service.cached second.1 = false
      ∧ LRU.hits <$> Service.cache second.2 = Some 0.
Proof.
  exists (Service.mkService (Indexer.build_index Examples.two_docs)
            (Some (lru_state 8 [] 0 0)) 0 0%R).
  split; [reflexivity|]. cbv zeta.
  destruct (service_search_no_results (Indexer.build_index Examples.two_docs)
              8 0 0 0%R "zebra search" 0 1 two_docs_search_zebra) as [m1 ->].
  cbn [fst snd].
  destruct (service_search_no_results (Indexer.build_index Examples.two_docs)
              8 m1 1 (0 + (1 - 0) * 1000)%R "zebra search" 1 2 two_docs_search_zebra)
    as [m2 ->].
  done.
Qed.

(** ** The theorems at the samples *)

(** C1 at the query "search engines" on the two sample documents. *)
Lemma C1_witness :
  Preprocess.preprocess "search engines" ≠ []
  ∧ (∀ d, d ∈ (Search.search "search engines" (Indexer.build_index Examples.two_docs)).*1
          ↔ ∀ t, t ∈ Preprocess.preprocess "search engines" →
                 has_posting (Indexer.build_index Examples.two_docs) t d)
  ∧ NoDup (Search.search "search engines" (Indexer.build_index Examples.two_docs)).*1
  ∧ StronglySorted ranks_before
      (Search.search "search engines" (Indexer.build_index Examples.two_docs)).
Proof.
  split; [by vm_compute|].
  apply (C1_search_intersection_ranked "search engines"
           (Indexer.build_index Examples.two_docs)); [by vm_compute|].
  intros t Ht.
  change (Preprocess.preprocess "search engines") with ["search"; "engines"] in Ht.
  apply elem_of_cons in Ht as [->|Ht].
  - exists [Posting 0 1; Posting 1 1]. split; [apply two_docs_postings_search|done].
  - apply list_elem_of_singleton in Ht as ->.
    exists [Posting 0 1]. split; [apply two_docs_postings_engines|done].
Defined.

(** C2 at the same query and index, for document 0, with the terms in
    another order than in the query. *)
Lemma C2_witness :
  ∃ s, (0, s) ∈ Search.search "search engines" (Indexer.build_index Examples.two_docs)
    ∧ ∃ text, forward_index (Indexer.build_index Examples.two_docs) !! KInt 0 = Some text
        ∧ s = (sum_over ["engines"; "search"]
                 (term_weight (Indexer.build_index Examples.two_docs)
                              (Preprocess.preprocess text))
               / norm_divisor (Indexer.build_index Examples.two_docs) 0)%R.
Proof.
  destruct two_docs_search as [s Hs]. exists s.
  assert ((0, s) ∈ Search.search "search engines" (Indexer.build_index Examples.two_docs))
    as Hin by (rewrite Hs; left).
  split; [exact Hin|].
  destruct (proj1 (C2_score_formula Examples.two_docs "search engines" 0 s Hin))
    as (text & Htext & Hsum).
  exists text. split; [exact Htext|]. apply Hsum.
  - by apply (bool_decide_unpack _).
  - intros t. change (Preprocess.preprocess "search engines") with ["search"; "engines"].
    rewrite !elem_of_cons. tauto.
Defined.

(** C3 at the query "zebra search": no document holds "zebra". *)
Lemma C3_witness :
  "zebra" ∈ Preprocess.preprocess "zebra search"
  ∧ no_postings (Indexer.build_index Examples.two_docs) "zebra"
  ∧ Search.search "zebra search" (Indexer.build_index Examples.two_docs) = [].
Proof.
  assert ("zebra" ∈ Preprocess.preprocess "zebra search") as Hin.
  { change (Preprocess.preprocess "zebra search") with ["zebra"; "search"]. left. }
  assert (no_postings (Indexer.build_index Examples.two_docs) "zebra") as Hno.
  { left. apply two_docs_postings_zebra. }
  split; [exact Hin|]. split; [exact Hno|].
  apply C3_search_empty_result. right. by exists "zebra".
Defined.

(** C5 at capacity 2 and the items a, b, c: b and c stay, the put of c
    removes a. *)
Lemma C5_witness :
  LRU.nodes (put_all (lru_state 2 [] 0 0) Examples.three_items) = ["c"; "b"]
  ∧ LRU.map (put_all (lru_state 2 [] 0 0) Examples.three_items)
    = list_to_map [("b", 2); ("c", 3)]
  ∧ last (LRU.nodes (put_all (lru_state 2 [] 0 0) (take 2 Examples.three_items)))
    = Some "a".
Proof.
  destruct (C5_lru_keeps_most_recent 2 1 Examples.three_items (lru_state 2 [] 0 0))
    as [(Hnodes & Hmap & _) Hstep].
  - reflexivity.
  - by apply (bool_decide_unpack _).
  - reflexivity.
  - lia.
  - destruct (Hstep 2 "c" 3) as (lru & Hlru & Hlast & _); [reflexivity|simpl; lia|].
    simpl in Hlru. injection Hlru as <-.
    split; [exact Hnodes|]. split; [exact Hmap|exact Hlast].
Defined.

(** C6 at a new service of capacity 8 over the two sample documents and
    the query "search engines". *)
Lemma C6_witness :
  let index := Indexer.build_index Examples.two_docs in
  let svc0 := Service.mkService index (Some (lru_state 8 [] 0 0)) 0 0%R in
  let first := Service.search svc0 "search engines" 0 1 in
  let second := Service.search first.2 "search engines" 1 2 in
  Search.search "search engines" index ≠ []
  ∧ Service.cached first.1 = false
  ∧ Service.cached second.1 = true
  ∧ LRU.hits <$> Service.cache second.2 = Some 1.
Proof.
  intros index svc0 first second.
  assert (Search.search "search engines" index ≠ []) as Hres.
  { destruct two_docs_search as [s Hs]. unfold index. by rewrite Hs. }
  split; [exact Hres|].
  destruct (C6_second_identical_query_is_cached index 8 svc0 "search engines" 0 1 1 2)
    as (H1 & _ & H2 & _ & H3 & _); [reflexivity|lia|exact Hres|].
  split; [exact H1|]. split; [exact H2|exact H3].
Defined.

(** C7 at document 0 of the two sample documents. *)
Lemma C7_witness :
  0 < N (Indexer.build_index Examples.two_docs)
  ∧ ∃ text, forward_index (Indexer.build_index Examples.two_docs) !! KInt 0 = Some text
      ∧ match doc_norm (Indexer.build_index Examples.two_docs) !! KInt 0 with
        | Some v => (0 < v)%R ∧ Preprocess.preprocess text ≠ []
        | None => Preprocess.preprocess text = []
        end.
Proof.
  assert (0 < N (Indexer.build_index Examples.two_docs)) as Hd.
  { rewrite two_docs_N. lia. }
  split; [exact Hd|].
  exact (C7_doc_norm_positive_or_absent Examples.two_docs 0 Hd).
Defined.

(** C8 at the term "search" of the two sample documents. *)
Lemma C8_witness :
  postings (Indexer.build_index Examples.two_docs) !! "search"
    = Some [Posting 0 1; Posting 1 1]
  ∧ StronglySorted lt [0; 1]
  ∧ df (Indexer.build_index Examples.two_docs) !! "search" = Some 2.
Proof.
  destruct (C8_postings_sorted_df Examples.two_docs "search" [Posting 0 1; Posting 1 1])
    as (Hs & _ & Hdf); [apply two_docs_postings_search|].
  split; [apply two_docs_postings_search|]. split; [exact Hs|exact Hdf].
Defined.

(** C9 at capacity 0. *)
Lemma C9_witness :
  LRU.init (V := list (nat * R)) 0 = inr (ValueError "capacity must be > 0")
  ∧ ∃ svc, Service.init (Indexer.build_index Examples.two_docs) 0 = inl svc
      ∧ Service.cache svc = None.
Proof.
  destruct (C9_nonpositive_capacity_rejected 0) as [Hinit Hsvc]; [lia|].
  split; [apply Hinit|apply Hsvc].
Defined.

(** * More properties of the code *)

(** ** LRU cache: any cache between two calls *)

Section lru_general.
Context {V : Type}.
Implicit Types (c : LRU.LRUCache V) (l : list string).

Lemma filter_all {A} (P : A → Prop) `{∀ x, Decision (P x)} (l : list A) :
  Forall P l → filter P l = l.
Proof.
  induction 1 as [|x l Hx Hl IH]; [done|]. by rewrite filter_cons_True, IH.
Qed.

Lemma unlink_filter key l :
  NoDup l → LRU.unlink key l = filter (λ k, k ≠ key) l.
Proof.
  induction l as [|k l IH]; [done|]. intros [Hk Hl]%NoDup_cons. simpl.
  case_decide as Heq.
  - subst k. rewrite filter_cons_False by (by intros ?).
    symmetry. apply filter_all, Forall_forall. by intros x Hx ->.
  - rewrite filter_cons_True by done. by rewrite IH.
Qed.

Lemma elem_of_touch key l k : k ∈ touch key l ↔ k = key ∨ (k ∈ l ∧ k ≠ key).
Proof.
  unfold touch. rewrite elem_of_cons, list_elem_of_filter.
  split; (intros [?|[? ?]]; [by left|by right]).
Qed.

Lemma NoDup_touch key l : NoDup l → NoDup (touch key l).
Proof.
  intros Hl. unfold touch. apply NoDup_cons. split.
  - by intros [? _]%list_elem_of_filter.
  - by apply NoDup_filter.
Qed.

Lemma length_touch_in key l :
  NoDup l → key ∈ l → length (touch key l) = length l.
Proof.
  intros Hl Hin. unfold touch.
  apply list_elem_of_split in Hin as (l1 & l2 & ->).
  apply NoDup_app in Hl as (Hl1 & Hdisj & [Hk Hl2]%NoDup_cons).
  rewrite filter_app, filter_cons_False by (by intros ?).
  rewrite !filter_all.
  - simpl. rewrite !length_app. simpl. lia.
  - apply Forall_forall. by intros x Hx ->.
  - apply Forall_forall. intros x Hx ->. apply (Hdisj key Hx). left.
Qed.

Lemma touch_notin key l : key ∉ l → touch key l = key :: l.
Proof.
  intros Hk. unfold touch. f_equal. apply filter_all, Forall_forall.
  by intros x Hx ->.
Qed.

(** The number of entries of [map] is the length of the list. *)
Lemma wf_map_size c : lru_wf c → size (LRU.map c) = length (LRU.nodes c).
Proof.
  intros [Hnd Hkeys _ _].
  rewrite <-(size_dom (D := gset string)), <-(size_list_to_set (C := gset string)) by done.
  f_equal. apply set_eq. intros k.
  by rewrite elem_of_dom, elem_of_list_to_set, Hkeys.
Qed.

Lemma lru_init_wf (cap : Z) c : LRU.init cap = inl c → lru_wf c ∧ LRU.capacity c = cap.
Proof.
  unfold LRU.init. case_decide; [done|]. intros [= <-]. split; [|done].
  split; simpl.
  - constructor.
  - intros k. rewrite lookup_empty. split; [by intros [? ?]|by intros ?%elem_of_nil].
  - lia.
  - lia.
Qed.

(** [get] of a key that is not stored. *)
Lemma get_miss c key :
  LRU.map c !! key = None →
  LRU.get key c
  = (None, LRU.mkLRU (LRU.capacity c) (LRU.map c) (LRU.nodes c)
                     (LRU.hits c) (S (LRU.misses c))).
Proof. intros Hk. unfold LRU.get. by rewrite Hk. Qed.

(** [get] of a stored key. *)
Lemma get_hit c key v :
  lru_wf c → LRU.map c !! key = Some v →
  LRU.get key c
  = (Some v, LRU.mkLRU (LRU.capacity c) (LRU.map c) (touch key (LRU.nodes c))
                       (S (LRU.hits c)) (LRU.misses c)).
Proof.
  intros Hwf Hk. unfold LRU.get. rewrite Hk. simpl.
  by rewrite unlink_filter by apply Hwf.
Qed.

(** [put], whatever the key: the key comes first in the list, of which
    the first [capacity] entries stay; the stored values are those of
    before, but for the value of the key. *)
Lemma put_spec c key v :
  lru_wf c →
  LRU.nodes (LRU.put key v c)
    = take (Z.to_nat (LRU.capacity c)) (touch key (LRU.nodes c))
  ∧ (∀ k, LRU.map (LRU.put key v c) !! k
          = if decide (k ∈ LRU.nodes (LRU.put key v c))
            then <[key := v]> (LRU.map c) !! k else None)
  ∧ LRU.capacity (LRU.put key v c) = LRU.capacity c
  ∧ LRU.hits (LRU.put key v c) = LRU.hits c
  ∧ LRU.misses (LRU.put key v c) = LRU.misses c.
Proof.
  intros Hwf. pose proof (wf_map_size c Hwf) as Hsize.
  destruct Hwf as [Hnd Hkeys Hcap Hlen].
  assert (∀ k, k ∉ LRU.nodes c → LRU.map c !! k = None) as Hnone.
  { intros k Hk. apply eq_None_not_Some. by rewrite Hkeys. }
  unfold LRU.put. destruct (LRU.map c !! key) as [v0|] eqn:Hkey.
  - assert (key ∈ LRU.nodes c) as Hin by (apply Hkeys; by eexists).
    simpl. rewrite unlink_filter by done. fold (touch key (LRU.nodes c)).
    rewrite take_ge by (rewrite length_touch_in by done; lia).
    repeat split. intros k. cbn [LRU.map LRU.nodes]. case_decide as Hk; [done|].
    rewrite elem_of_touch in Hk.
    destruct (decide (k = key)) as [->|Hne]; [by destruct Hk; left|].
    rewrite lookup_insert_ne by done. apply Hnone. intros ?. apply Hk. by right.
  - assert (key ∉ LRU.nodes c) as Hnin.
    { rewrite <-Hkeys, Hkey. by intros [? ?]. }
    rewrite touch_notin by done.
    cbn [LRU._insert_front LRU.map LRU.nodes LRU.capacity LRU.hits LRU.misses].
    rewrite map_size_insert_None, Hsize by done.
    case_decide as Hfull.
    + destruct (LRU.nodes c) as [|k0 r0] eqn:Hn using rev_ind; [simpl in *; lia|].
      clear IHr0. rewrite length_app in Hlen, Hfull. simpl in Hlen, Hfull.
      unfold LRU._evict_lru, LRU._insert_front.
      cbn [LRU.map LRU.nodes LRU.capacity LRU.hits LRU.misses].
      rewrite (last_cons key), last_snoc, (app_comm_cons _ _ key), removelast_last.
      replace (Z.to_nat (LRU.capacity c)) with (length (key :: r0)) by (simpl; lia).
      rewrite take_app_length. repeat split.
      apply NoDup_app in Hnd as (Hr0 & Hdisj & _).
      intros k. cbn [LRU.map LRU.nodes]. case_decide as Hk.
      * rewrite lookup_delete_ne; [done|]. intros <-.
        apply elem_of_cons in Hk as [->|Hk].
        -- apply Hnin, elem_of_app. right. left.
        -- apply (Hdisj k0 Hk). left.
      * destruct (decide (k = k0)) as [->|Hne0]; [by rewrite lookup_delete_eq|].
        rewrite lookup_delete_ne by done.
        destruct (decide (k = key)) as [->|Hne]; [destruct Hk; left|].
        rewrite lookup_insert_ne by done. apply Hnone.
        intros [?|?%list_elem_of_singleton]%elem_of_app; [|done].
        apply Hk. by right.
    + rewrite take_ge by (simpl; lia). repeat split.
      intros k. cbn [LRU._insert_front LRU.map LRU.nodes]. case_decide as Hk; [done|].
      destruct (decide (k = key)) as [->|Hne]; [destruct Hk; left|].
      rewrite lookup_insert_ne by done. apply Hnone. intros ?. apply Hk. by right.
Qed.

Lemma put_wf c key v : lru_wf c → lru_wf (LRU.put key v c).
Proof.
  intros Hwf. destruct (put_spec c key v Hwf) as (Hnodes & Hmap & Hcap & _).
  pose proof Hwf as [Hnd Hkeys Hpos Hlen]. split.
  - rewrite Hnodes. eapply sublist_NoDup; [by apply NoDup_touch|apply sublist_take].
  - intros k. rewrite Hmap. case_decide as Hk; [|split; [by intros [? ?]|done]].
    split; [done|]. intros _. rewrite Hnodes in Hk.
    apply (subseteq_take _ _ k), elem_of_touch in Hk as [->|[Hk Hne]].
    + rewrite lookup_insert_eq. by eexists.
    + rewrite lookup_insert_ne by done. by apply Hkeys.
  - by rewrite Hcap.
  - rewrite Hcap, Hnodes, length_take. lia.
Qed.

Lemma get_wf c key : lru_wf c → lru_wf (LRU.get key c).2.
Proof.
  intros Hwf. pose proof Hwf as [Hnd Hkeys Hpos Hlen].
  destruct (LRU.map c !! key) as [v|] eqn:Hkey.
  - rewrite (get_hit c key v Hwf Hkey). simpl.
    assert (key ∈ LRU.nodes c) as Hin by (apply Hkeys; by eexists).
    split; cbn [LRU.nodes LRU.map LRU.capacity].
    + by apply NoDup_touch.
    + intros k. rewrite Hkeys, elem_of_touch.
      destruct (decide (k = key)) as [->|?]; [split; [by left|done]|].
      split; [by right|by intros [?|[? _]]].
    + done.
    + by rewrite length_touch_in.
  - rewrite (get_miss c key Hkey). by split.
Qed.

Lemma run_op_wf c op : lru_wf c → lru_wf (run_op c op).
Proof. destruct op; [apply get_wf|apply put_wf]. Qed.

Lemma run_ops_wf c ops : lru_wf c → lru_wf (run_ops c ops).
Proof.
  revert c. induction ops as [|op ops IH]; intros c Hwf; [done|].
  simpl. by apply IH, run_op_wf.
Qed.

Lemma run_op_capacity c op : LRU.capacity (run_op c op) = LRU.capacity c.
Proof.
  destruct op as [key|key v]; simpl.
  - unfold LRU.get. by destruct (LRU.map c !! key).
  - unfold LRU.put. destruct (LRU.map c !! key); [done|]. simpl.
    case_decide; [|done]. unfold LRU._evict_lru. simpl.
    by destruct (last _).
Qed.

Lemma run_ops_capacity c ops : LRU.capacity (run_ops c ops) = LRU.capacity c.
Proof.
  revert c. induction ops as [|op ops IH]; intros c; [done|].
  simpl. by rewrite IH, run_op_capacity.
Qed.

Lemma run_op_counters c op :
  LRU.hits (run_op c op) + LRU.misses (run_op c op)
  = LRU.hits c + LRU.misses c + (if is_get op then 1 else 0).
Proof.
  destruct op as [key|key v]; simpl.
  - unfold LRU.get. destruct (LRU.map c !! key); simpl; lia.
  - unfold LRU.put. destruct (LRU.map c !! key); simpl; [lia|].
    case_decide; simpl; [|lia]. unfold LRU._evict_lru. simpl.
    destruct (last _); simpl; lia.
Qed.

Lemma lookup_filter_le {A} (P : A → Prop) `{∀ x, Decision (P x)} (l : list A) i x :
  l !! i = Some x → P x → ∃ j, j ≤ i ∧ filter P l !! j = Some x.
Proof.
  intros Hi Hx. revert i Hi. induction l as [|y l IH]; intros i Hi; [done|].
  destruct i as [|i]; simpl in Hi.
  - injection Hi as ->. exists 0. split; [lia|]. by rewrite filter_cons_True by done.
  - destruct (IH i Hi) as (j & Hj & Hk).
    destruct (decide (P y)) as [Hy|Hy].
    + rewrite filter_cons_True by done. exists (S j). split; [lia|done].
    + rewrite filter_cons_False by done. exists j. split; [lia|done].
Qed.

(** The entry at position [i] of the list is at most one position further
    after a [put] of another key, if that position is within the capacity,
    and keeps its value. *)
Lemma put_keeps_recent c key v k i :
  lru_wf c → LRU.nodes c !! i = Some k → key ≠ k →
  S i < Z.to_nat (LRU.capacity c) →
  (∃ i', i' ≤ S i ∧ LRU.nodes (LRU.put key v c) !! i' = Some k)
  ∧ LRU.map (LRU.put key v c) !! k = LRU.map c !! k.
Proof.
  intros Hwf Hi Hne Hcap. destruct (put_spec c key v Hwf) as (Hnodes & Hmap & _).
  destruct (lookup_filter_le (λ x, x ≠ key) (LRU.nodes c) i k Hi) as (j & Hj & Hk).
  { by intros ->. }
  assert (LRU.nodes (LRU.put key v c) !! S j = Some k) as Hin.
  { rewrite Hnodes, lookup_take_lt by lia. done. }
  split; [exists (S j); split; [lia|done]|].
  rewrite Hmap, decide_True by (by eapply list_elem_of_lookup_2).
  by rewrite lookup_insert_ne.
Qed.

Lemma put_all_keeps_recent c items k i :
  lru_wf c → LRU.nodes c !! i = Some k →
  Forall (λ kv, kv.1 ≠ k) items →
  i + length items < Z.to_nat (LRU.capacity c) →
  LRU.map (put_all c items) !! k = LRU.map c !! k.
Proof.
  intros Hwf Hi Hitems. revert c i Hwf Hi.
  induction Hitems as [|[key v] items Hkey Hitems IH]; intros c i Hwf Hi Hlen; [done|].
  simpl in *.
  destruct (put_keeps_recent c key v k i Hwf Hi Hkey) as ((i' & Hi' & Hk) & Hv); [lia|].
  change (put_all c ((key, v) :: items)) with (put_all (LRU.put key v c) items).
  rewrite (IH (LRU.put key v c) i'); [done|by apply put_wf|done|].
  destruct (put_spec c key v Hwf) as (_ & _ & -> & _). lia.
Qed.

End lru_general.

(** X1: whatever calls of [get] and [put] follow the constructor, the list
    of the cache holds every key once, the keys of [map] are those of the
    list, and the cache never holds more entries than its capacity. *)
Theorem X1_lru_calls_keep_cache_bounded {V : Type} (cap : Z)
    (c0 : LRU.LRUCache V) (ops : list (lru_op V)) :
  LRU.init cap = inl c0 →
  lru_wf (run_ops c0 ops)
  ∧ LRU.capacity (run_ops c0 ops) = cap
  ∧ size (LRU.map (run_ops c0 ops)) = length (LRU.nodes (run_ops c0 ops))
  ∧ (Z.of_nat (size (LRU.map (run_ops c0 ops))) ≤ cap)%Z.
Proof.
  intros [Hwf Hcap]%lru_init_wf.
  pose proof (run_ops_wf c0 ops Hwf) as Hwf'.
  pose proof (run_ops_capacity c0 ops) as Hcap'. rewrite Hcap in Hcap'.
  repeat split; [apply Hwf'..|done|by apply wf_map_size|].
  rewrite wf_map_size by done. rewrite <-Hcap'. apply Hwf'.
Qed.

(** X2: on any cache between two calls, [get] of a key right after [put]
    of that key returns the value that was put, as a hit. *)
Theorem X2_lru_get_after_put {V : Type} (c : LRU.LRUCache V) (key : string) (v : V) :
  lru_wf c →
  (LRU.get key (LRU.put key v c)).1 = Some v
  ∧ LRU.hits (LRU.get key (LRU.put key v c)).2 = S (LRU.hits c)
  ∧ LRU.misses (LRU.get key (LRU.put key v c)).2 = LRU.misses c
  ∧ head (LRU.nodes (LRU.get key (LRU.put key v c)).2) = Some key.
Proof.
  intros Hwf. destruct (put_spec c key v Hwf) as (Hnodes & Hmap & Hcap & Hh & Hm).
  assert (key ∈ LRU.nodes (LRU.put key v c)) as Hin.
  { rewrite Hnodes. unfold touch. destruct (Z.to_nat (LRU.capacity c)) eqn:E.
    - destruct Hwf as [_ _ ? _]. lia.
    - simpl. left. }
  assert (LRU.map (LRU.put key v c) !! key = Some v) as Hkey.
  { by rewrite Hmap, decide_True, lookup_insert_eq. }
  rewrite (get_hit _ key v (put_wf c key v Hwf) Hkey). simpl. by rewrite Hh, Hm.
Qed.

(** X3: [put] on any cache between two calls.  The key becomes the head of
    the list, the other keys keep their order, and the list is cut to the
    capacity; an entry that stays keeps its value, the key has the new
    value, the cache does not get smaller, and the hit and miss counters do
    not move. *)
Theorem X3_lru_put_moves_to_front_and_cuts {V : Type} (c : LRU.LRUCache V)
    (key : string) (v : V) :
  lru_wf c →
  LRU.nodes (LRU.put key v c)
    = take (Z.to_nat (LRU.capacity c)) (touch key (LRU.nodes c))
  ∧ (∀ k, LRU.map (LRU.put key v c) !! k
          = if decide (k ∈ LRU.nodes (LRU.put key v c))
            then <[key := v]> (LRU.map c) !! k else None)
  ∧ length (LRU.nodes c) ≤ length (LRU.nodes (LRU.put key v c))
  ∧ LRU.hits (LRU.put key v c) = LRU.hits c
  ∧ LRU.misses (LRU.put key v c) = LRU.misses c.
Proof.
  intros Hwf. destruct (put_spec c key v Hwf) as (Hnodes & Hmap & Hcap & Hh & Hm).
  repeat split; [done..| |done|done].
  rewrite Hnodes, length_take. pose proof Hwf as [Hnd Hkeys Hpos Hlen].
  destruct (decide (key ∈ LRU.nodes c)) as [Hin|Hnin].
  - rewrite length_touch_in by done. lia.
  - rewrite touch_notin by done. simpl. lia.
Qed.

(** X4: [get] on any cache between two calls.  A key that is not stored
    gives [None] and one more miss, and the cache is otherwise as before;
    a stored key gives its value and one more hit, becomes the head of the
    list while the other keys keep their order, and [map] is as before. *)
Theorem X4_lru_get_hit_or_miss {V : Type} (c : LRU.LRUCache V) (key : string) :
  lru_wf c →
  match LRU.map c !! key with
  | None =>
      LRU.get key c
      = (None, LRU.mkLRU (LRU.capacity c) (LRU.map c) (LRU.nodes c)
                         (LRU.hits c) (S (LRU.misses c)))
  | Some v =>
      LRU.get key c
      = (Some v, LRU.mkLRU (LRU.capacity c) (LRU.map c) (touch key (LRU.nodes c))
                           (S (LRU.hits c)) (LRU.misses c))
  end.
Proof.
  intros Hwf. destruct (LRU.map c !! key) as [v|] eqn:Hkey.
  - by apply get_hit.
  - by apply get_miss.
Qed.

(** X5: the two counters count the calls of [get]: after any calls, hits
    plus misses has grown by the number of [get]s among them. *)
Theorem X5_lru_counters_count_gets {V : Type} (c : LRU.LRUCache V)
    (ops : list (lru_op V)) :
  LRU.hits (run_ops c ops) + LRU.misses (run_ops c ops)
  = LRU.hits c + LRU.misses c + length (filter (λ op, is_get op = true) ops).
Proof.
  revert c. induction ops as [|op ops IH]; intros c; [simpl; lia|].
  change (run_ops c (op :: ops)) with (run_ops (run_op c op) ops).
  rewrite IH, run_op_counters.
  destruct op; [rewrite filter_cons_True by done|rewrite filter_cons_False by done];
    simpl; lia.
Qed.

(** X6: the most recently used entry outlives the next [capacity - 1]
    calls of [put] with other keys, with its value. *)
Theorem X6_lru_most_recent_survives {V : Type} (c : LRU.LRUCache V)
    (items : list (string * V)) (k : string) :
  lru_wf c →
  head (LRU.nodes c) = Some k →
  Forall (λ kv, kv.1 ≠ k) items →
  length items < Z.to_nat (LRU.capacity c) →
  LRU.map (put_all c items) !! k = LRU.map c !! k
  ∧ is_Some (LRU.map (put_all c items) !! k).
Proof.
  intros Hwf Hhead Hitems Hlen.
  assert (LRU.nodes c !! 0 = Some k) as H0 by (by rewrite <-head_lookup).
  rewrite (put_all_keeps_recent c items k 0 Hwf H0 Hitems) by lia.
  split; [done|]. apply Hwf. by eapply list_elem_of_lookup_2.
Qed.

(** X7: the hit ratio of [stats] is [hits / (hits + misses)], lies between
    0 and 1, and is 0 without a division when no [get] was counted. *)
Theorem X7_lru_stats_hit_ratio {V : Type} (c : LRU.LRUCache V) :
  (0 <= LRU.stat_hit_ratio (LRU.stats c) <= 1)%R
  ∧ (LRU.hits c + LRU.misses c = 0 → LRU.stat_hit_ratio (LRU.stats c) = 0%R)
  ∧ (0 < LRU.hits c + LRU.misses c →
     (LRU.stat_hit_ratio (LRU.stats c) * INR (LRU.hits c + LRU.misses c)
      = INR (LRU.hits c))%R)
  ∧ LRU.stat_size (LRU.stats c) = size (LRU.map c).
Proof.
  unfold LRU.stats. simpl. destruct (LRU.hits c + LRU.misses c) as [|n] eqn:E.
  - repeat split; [lra|lra|lia].
  - assert (0 < INR (S n))%R as Hpos by (apply lt_0_INR; lia).
    assert (INR (LRU.hits c) <= INR (S n))%R as Hle by (apply le_INR; lia).
    pose proof (pos_INR (LRU.hits c)) as H0.
    repeat split; [| |done|].
    + apply Rmult_le_reg_r with (INR (S n)); [done|].
      unfold Rdiv. rewrite Rmult_assoc, Rinv_l by lra. lra.
    + apply Rmult_le_reg_r with (INR (S n)); [done|].
      unfold Rdiv. rewrite Rmult_assoc, Rinv_l by lra. lra.
    + intros _. unfold Rdiv. rewrite Rmult_assoc, Rinv_l by lra. lra.
Qed.

(** The samples for the theorems on caches. *)

Lemma X1_witness :
  LRU.init 2 = inl (lru_state (V := nat) 2 [] 0 0)
  ∧ (Z.of_nat (size (LRU.map (run_ops (lru_state 2 [] 0 0)
        [OpPut "a" 1; OpPut "b" 2; OpGet "a"; OpPut "c" 3; OpGet "b"]))) ≤ 2)%Z.
Proof.
  split; [reflexivity|].
  apply (X1_lru_calls_keep_cache_bounded 2 (lru_state 2 [] 0 0)
           [OpPut "a" 1; OpPut "b" 2; OpGet "a"; OpPut "c" 3; OpGet "b"]).
  reflexivity.
Defined.

Lemma X2_witness :
  (LRU.get "a" (LRU.put "a" 7 (lru_state (V := nat) 2 [("a", 1); ("b", 2)] 0 0))).1 = Some 7.
Proof.
  apply X2_lru_get_after_put.
  apply (run_ops_wf (lru_state 2 [] 0 0) [OpPut "a" 1; OpPut "b" 2]).
  by apply (lru_init_wf 2).
Defined.

Lemma X3_witness :
  LRU.nodes (LRU.put "c" 3 (lru_state (V := nat) 2 [("a", 1); ("b", 2)] 0 0))
  = take 2 (touch "c" ["b"; "a"]).
Proof.
  apply (X3_lru_put_moves_to_front_and_cuts (lru_state 2 [("a", 1); ("b", 2)] 0 0) "c" 3).
  apply (run_ops_wf (lru_state 2 [] 0 0) [OpPut "a" 1; OpPut "b" 2]).
  by apply (lru_init_wf 2).
Defined.

Lemma X4_witness :
  LRU.get "a" (lru_state (V := nat) 2 [("a", 1); ("b", 2)] 0 0)
  = (Some 1, LRU.mkLRU 2 (list_to_map [("a", 1); ("b", 2)]) (touch "a" ["b"; "a"]) 1 0).
Proof.
  apply (X4_lru_get_hit_or_miss (lru_state 2 [("a", 1); ("b", 2)] 0 0) "a").
  apply (run_ops_wf (lru_state 2 [] 0 0) [OpPut "a" 1; OpPut "b" 2]).
  by apply (lru_init_wf 2).
Defined.

Lemma X6_witness :
  is_Some (LRU.map (put_all (lru_state (V := nat) 3 [("a", 1); ("b", 2)] 0 0)
                            [("c", 3); ("d", 4)]) !! "b").
Proof.
  apply (X6_lru_most_recent_survives (lru_state 3 [("a", 1); ("b", 2)] 0 0)
           [("c", 3); ("d", 4)] "b").
  - apply (run_ops_wf (lru_state 3 [] 0 0) [OpPut "a" 1; OpPut "b" 2]).
    by apply (lru_init_wf 3).
  - reflexivity.
  - by repeat constructor.
  - simpl. lia.
Defined.

(** ** Search service: any service between two calls *)

Section service_general.
Import Preprocess.

(** Searching for the cache key is searching for the query. *)
Lemma search_normalize_key query index :
  Search.search (Service._normalize_key (Indexer.strip query)) index
  = Search.search query index.
Proof.
  unfold Search.search, Service._normalize_key.
  rewrite preprocess_join_space by apply preprocess_terms.
  by rewrite preprocess_strip.
Qed.

Lemma normalize_key_empty query :
  Service._normalize_key (Indexer.strip query) = EmptyString ↔ preprocess query = [].
Proof.
  unfold Service._normalize_key. rewrite preprocess_strip. split.
  - apply join_space_empty.
    eapply Forall_impl; [apply preprocess_terms|]. by intros t [? _].
  - by intros ->.
Qed.

(** The calls of [search] by the shape of the query and of the cache. *)
Lemma service_search_no_terms svc query start now :
  preprocess query = [] →
  Service.search svc query start now
  = Service.reply svc start now [] false (Service.cache svc).
Proof.
  intros Htok. unfold Service.search.
  destruct (Indexer.strip query) as [|a q] eqn:Eq; [done|].
  rewrite <-Eq. by rewrite (proj2 (normalize_key_empty query) Htok).
Qed.

Lemma service_search_terms svc query start now :
  preprocess query ≠ [] →
  Service.search svc query start now
  = let key := Service._normalize_key (Indexer.strip query) in
    let res := Search.search query (Service.index svc) in
    match Service.cache svc with
    | None => Service.reply svc start now res false None
    | Some c =>
        match (LRU.get key c).1 with
        | Some hit => Service.reply svc start now hit true (Some (LRU.get key c).2)
        | None =>
            Service.reply svc start now res false
              (Some match res with
                    | [] => (LRU.get key c).2
                    | _ => LRU.put key res (LRU.get key c).2
                    end)
        end
    end.
Proof.
  intros Htok. unfold Service.search.
  destruct (Indexer.strip query) as [|a q] eqn:Eq.
  { exfalso. apply Htok. rewrite <-preprocess_strip. by rewrite Eq. }
  rewrite <-Eq.
  destruct (Service._normalize_key (Indexer.strip query)) as [|b k] eqn:Ek.
  { exfalso. by apply Htok, normalize_key_empty. }
  rewrite <-Ek. cbv zeta. rewrite search_strip.
  destruct (Service.cache svc) as [c|]; [|done].
  destruct (LRU.get _ c) as [[hit|] c']; [done|]. simpl.
  by destruct (Search.search query (Service.index svc)).
Qed.

(** What [put] stores: the new entry, or an entry of before. *)
Lemma put_map_lookup {V} (c : LRU.LRUCache V) key v k x :
  LRU.map (LRU.put key v c) !! k = Some x →
  (k = key ∧ x = v) ∨ LRU.map c !! k = Some x.
Proof.
  assert (<[key := v]> (LRU.map c) !! k = Some x →
          (k = key ∧ x = v) ∨ LRU.map c !! k = Some x) as Hins.
  { intros [[-> ->]|[_ ?]]%lookup_insert_Some; [by left|by right]. }
  unfold LRU.put. destruct (LRU.map c !! key); simpl; [done|].
  case_decide; [|done]. unfold LRU._evict_lru. simpl.
  destruct (last _); simpl; [|done].
  intros [_ ?]%lookup_delete_Some. by apply Hins.
Qed.

Lemma get_map {V} (c : LRU.LRUCache V) key : LRU.map (LRU.get key c).2 = LRU.map c.
Proof. unfold LRU.get. by destruct (LRU.map c !! key). Qed.

Lemma get_result {V} (c : LRU.LRUCache V) key : (LRU.get key c).1 = LRU.map c !! key.
Proof. unfold LRU.get. by destruct (LRU.map c !! key). Qed.

Lemma service_init_ok index cap svc :
  Service.init index cap = inl svc → service_ok index svc.
Proof.
  unfold Service.init. case_decide.
  - destruct (LRU.init cap) as [c|e] eqn:Hc; [|done]. intros [= <-].
    apply lru_init_wf in Hc as Hwf. destruct Hwf as [Hwf _].
    apply lru_init_inv in Hc as [_ ->].
    split; [done|]. simpl. intros c' [= <-]. split; [done|].
    intros k v. unfold lru_state. simpl. by rewrite lookup_empty.
  - intros [= <-]. by split.
Qed.

(** One call of [search] keeps the service as it should be, and answers
    with what the query engine computes. *)
Lemma service_search_ok index svc query start now :
  service_ok index svc →
  service_ok index (Service.search svc query start now).2
  ∧ Service.results (Service.search svc query start now).1 = Search.search query index.
Proof.
  intros [Hidx Hcache].
  destruct (decide (preprocess query = [])) as [Htok|Htok].
  { rewrite service_search_no_terms by done. simpl. split; [by split|].
    unfold Search.search. by rewrite Htok. }
  rewrite service_search_terms by done. cbv zeta. rewrite Hidx.
  destruct (Service.cache svc) as [c|] eqn:Hc; [|by repeat split].
  destruct (Hcache c eq_refl) as [Hwf Hvals].
  rewrite get_result.
  destruct (LRU.map c !! _) as [hit|] eqn:Hkey; simpl.
  - destruct (Hvals _ _ Hkey) as [-> _]. split; [|apply search_normalize_key].
    split; [done|]. simpl. intros c' [= <-]. split; [by apply get_wf|].
    by rewrite get_map.
  - split; [|done]. split; [done|]. simpl. intros c' [= <-].
    destruct (Search.search query index) as [|x res] eqn:Hres.
    + split; [by apply get_wf|]. by rewrite get_map.
    + split; [by apply put_wf, get_wf|].
      intros k v [[-> ->]|Hold]%put_map_lookup.
      * by rewrite search_normalize_key, Hres.
      * rewrite get_map in Hold. by apply Hvals.
Qed.

Lemma search_all_ok index svc calls :
  service_ok index svc → service_ok index (search_all svc calls).
Proof.
  revert svc. induction calls as [|call calls IH]; intros svc Hok; [done|].
  simpl. apply IH. by apply service_search_ok.
Qed.

Lemma search_all_snoc svc calls call :
  search_all svc (calls ++ [call])
  = (Service.search (search_all svc calls) call.1 call.2.1 call.2.2).2.
Proof. unfold search_all. by rewrite foldl_snoc. Qed.


End service_general.

(** X8: the cache does not change any answer.  On a service made by the
    constructor, after any calls of [search], the results of a call are
    those of the query engine on the index of the service, whether they
    come from the cache or not. *)
Theorem X8_service_results_are_engine_results (index : Index) (cap : Z)
    (svc0 : Service.SearchService) (calls : list (string * (R * R)))
    (query : string) (start now : R) :
  Service.init index cap = inl svc0 →
  Service.results (Service.search (search_all svc0 calls) query start now).1
  = Search.search query index.
Proof.
  intros Hinit%service_init_ok.
  by apply service_search_ok, search_all_ok.
Qed.

(** X9: queries with the same terms share one cache entry.  On a service
    with a cache, after any calls, a query with results is answered from
    the cache when the call before it was for a query with the same
    tokens, however the two are spelled. *)
Theorem X9_service_same_terms_same_entry (index : Index) (cap : Z)
    (svc0 : Service.SearchService) (calls : list (string * (R * R)))
    (query1 query2 : string) (t1 t2 t3 t4 : R) :
  Service.init index cap = inl svc0 →
  (0 < cap)%Z →
  Search.search query1 index ≠ [] →
  Preprocess.preprocess query2 = Preprocess.preprocess query1 →
  let svc := (Service.search (search_all svc0 calls) query1 t1 t2).2 in
  Service.cached (Service.search svc query2 t3 t4).1 = true
  ∧ Service.results (Service.search svc query2 t3 t4).1 = Search.search query1 index.
Proof.
  intros Hinit Hcap Hres Htok svc.
  assert (Preprocess.preprocess query1 ≠ []) as Htok1.
  { intros Hnil. apply Hres. unfold Search.search. by rewrite Hnil. }
  assert (Service._normalize_key (Indexer.strip query2)
          = Service._normalize_key (Indexer.strip query1)) as Hkey.
  { unfold Service._normalize_key. by rewrite !preprocess_strip, Htok. }
  pose proof (search_all_ok index svc0 calls (service_init_ok _ _ _ Hinit)) as Hok.
  assert (∃ c, Service.cache (search_all svc0 calls) = Some c) as [c Hc].
  { clear -Hinit Hcap. induction calls as [|call calls IH] using rev_ind.
    - unfold Service.init in Hinit. rewrite decide_True in Hinit by done.
      destruct (LRU.init cap); [|done]. injection Hinit as <-. by eexists.
    - destruct IH as [c Hc]. rewrite search_all_snoc.
      destruct (decide (Preprocess.preprocess call.1 = [])) as [Ht|Ht].
      + rewrite service_search_no_terms by done. by eexists.
      + rewrite service_search_terms by done. cbv zeta. rewrite Hc.
        destruct (LRU.get _ c).1; by eexists. }
  destruct Hok as [Hidx Hcache]. destruct (Hcache c Hc) as [Hwf Hvals].
  assert (∃ c', Service.cache svc = Some c' ∧ lru_wf c'
            ∧ LRU.map c' !! Service._normalize_key (Indexer.strip query1)
              = Some (Search.search query1 index)) as (c' & Hc' & Hwf' & Hstored).
  { unfold svc. rewrite service_search_terms by done. cbv zeta. rewrite Hc, Hidx.
    rewrite get_result.
    destruct (LRU.map c !! _) as [hit|] eqn:Hk; simpl.
    - eexists. split; [done|]. split; [by apply get_wf|].
      rewrite get_map, Hk. f_equal.
      destruct (Hvals _ _ Hk) as [-> _]. apply search_normalize_key.
    - destruct (Search.search query1 index) as [|x res] eqn:Hr; [done|].
      eexists. split; [done|]. split; [by apply put_wf, get_wf|].
      destruct (put_spec (LRU.get (Service._normalize_key (Indexer.strip query1)) c).2
                  (Service._normalize_key (Indexer.strip query1)) (x :: res))
        as (Hnodes & Hmap & _); [by apply get_wf|].
      rewrite Hmap, lookup_insert_eq, decide_True; [done|].
      rewrite Hnodes. unfold touch.
      destruct (Z.to_nat _) eqn:E; [|left].
      apply get_wf with (key := Service._normalize_key (Indexer.strip query1))
        in Hwf as [_ _ ? _]. lia. }
  rewrite service_search_terms by (by rewrite Htok). cbv zeta.
  rewrite Hc', Hkey, get_result, Hstored. done.
Qed.

(** X10: a query without terms (empty, white space, punctuation or stop
    words only) is answered with no results and [cached = False] without
    touching the cache: no miss is counted, nothing is stored.  The call
    is counted and timed all the same. *)
Theorem X10_service_query_without_terms (svc : Service.SearchService)
    (query : string) (start now : R) :
  Preprocess.preprocess query = [] →
  Service.search svc query start now
  = (Service.mkResponse [] ((now - start) * 1000)%R false,
     Service.mkService (Service.index svc) (Service.cache svc)
       (S (Service.total_queries svc))
       (Service.total_time_ms svc + (now - start) * 1000)%R).
Proof. intros Htok. by rewrite service_search_no_terms. Qed.

(** X11: a service built with a capacity of 0 or less has no cache and
    never gets one: every call is answered with [cached = False]. *)
Theorem X11_service_without_cache (index : Index) (cap : Z)
    (svc0 : Service.SearchService) (calls : list (string * (R * R)))
    (query : string) (start now : R) :
  Service.init index cap = inl svc0 →
  (cap ≤ 0)%Z →
  Service.cache (search_all svc0 calls) = None
  ∧ Service.cached (Service.search (search_all svc0 calls) query start now).1 = false
  ∧ Service.stat_cache (Service.stats (search_all svc0 calls)) = None.
Proof.
  intros Hinit Hcap.
  assert (∀ svc q s n, Service.cache svc = None →
            Service.cache (Service.search svc q s n).2 = None
            ∧ Service.cached (Service.search svc q s n).1 = false) as Hstep.
  { intros svc q s n Hnone.
    destruct (decide (Preprocess.preprocess q = [])) as [Ht|Ht].
    - by rewrite service_search_no_terms by done.
    - rewrite service_search_terms by done. cbv zeta. by rewrite Hnone. }
  assert (Service.cache (search_all svc0 calls) = None) as Hnone.
  { induction calls as [|call calls IH] using rev_ind.
    - unfold Service.init in Hinit. rewrite decide_False in Hinit by lia.
      by injection Hinit as <-.
    - rewrite search_all_snoc. by apply Hstep. }
  split; [done|]. split; [by apply Hstep|].
  unfold Service.stats. simpl. by rewrite Hnone.
Qed.


(** X8 at a service of capacity 8 over the two sample documents: the
    query "search engines" after a call for "search". *)
Lemma X8_witness :
  let index := Indexer.build_index Examples.two_docs in
  let svc0 := Service.mkService index (Some (lru_state 8 [] 0 0)) 0 0%R in
  Service.init index 8 = inl svc0
  ∧ Service.results
      (Service.search (search_all svc0 [("search", (0%R, 1%R))])
         "search engines" 1 2).1
    = Search.search "search engines" index.
Proof.
  intros index svc0.
  assert (Service.init index 8 = inl svc0) as Hinit by reflexivity.
  split; [exact Hinit|].
  exact (X8_service_results_are_engine_results index 8 svc0
           [("search", (0%R, 1%R))] "search engines" 1 2 Hinit).
Defined.

(** X9 at the same service: "Search the ENGINES!" right after
    "search engines". *)
Lemma X9_witness :
  let index := Indexer.build_index Examples.two_docs in
  let svc0 := Service.mkService index (Some (lru_state 8 [] 0 0)) 0 0%R in
  let svc := (Service.search (search_all svc0 [("search", (0%R, 1%R))])
                "search engines" 1 2).2 in
  Preprocess.preprocess "  Search the ENGINES!" = Preprocess.preprocess "search engines"
  ∧ Search.search "search engines" index ≠ []
  ∧ Service.cached (Service.search svc "  Search the ENGINES!" 2 3).1 = true
  ∧ Service.results (Service.search svc "  Search the ENGINES!" 2 3).1
    = Search.search "search engines" index.
Proof.
  intros index svc0 svc.
  assert (Preprocess.preprocess "  Search the ENGINES!"
          = Preprocess.preprocess "search engines") as Htok by (by vm_compute).
  assert (Search.search "search engines" index ≠ []) as Hres.
  { destruct two_docs_search as [s Hs]. unfold index. by rewrite Hs. }
  split; [exact Htok|]. split; [exact Hres|].
  apply (X9_service_same_terms_same_entry index 8 svc0 [("search", (0%R, 1%R))]
           "search engines" "  Search the ENGINES!" 1 2 2 3);
    [reflexivity|lia|exact Hres|exact Htok].
Defined.

(** X10 at the query "the of" on a new service. *)
Lemma X10_witness :
  let index := Indexer.build_index Examples.two_docs in
  let svc0 := Service.mkService index (Some (lru_state 8 [] 0 0)) 0 0%R in
  Preprocess.preprocess "the of" = []
  ∧ Service.search svc0 "the of" 0 1
    = (Service.mkResponse [] ((1 - 0) * 1000)%R false,
       Service.mkService index (Some (lru_state 8 [] 0 0)) 1 (0 + (1 - 0) * 1000)%R).
Proof.
  intros index svc0.
  assert (Preprocess.preprocess "the of" = []) as Htok by (by vm_compute).
  split; [exact Htok|].
  exact (X10_service_query_without_terms svc0 "the of" 0 1 Htok).
Defined.

(** X11 at capacity 0. *)
Lemma X11_witness :
  let index := Indexer.build_index Examples.two_docs in
  let svc0 := Service.mkService index None 0 0%R in
  Service.init index 0 = inl svc0
  ∧ Service.cache (search_all svc0 [("search", (0%R, 1%R))]) = None
  ∧ Service.cached
      (Service.search (search_all svc0 [("search", (0%R, 1%R))]) "search" 1 2).1 = false
  ∧ Service.stat_cache (Service.stats (search_all svc0 [("search", (0%R, 1%R))])) = None.
Proof.
  intros index svc0.
  assert (Service.init index 0 = inl svc0) as Hinit by reflexivity.
  split; [exact Hinit|].
  apply (X11_service_without_cache index 0 svc0 [("search", (0%R, 1%R))] "search" 1 2 Hinit).
  lia.
Defined.

(** ** Query engine: any index *)

Section search_general.
Import Preprocess Search.

Lemma has_posting_doc_ids index t d :
  has_posting index t d ↔ ∃ pl, postings index !! t = Some pl ∧ d ∈ doc_ids pl.
Proof.
  unfold has_posting. split.
  - intros (pl & e & Hpl & He & Hd). exists pl. split; [done|].
    apply elem_of_doc_ids. by exists e.
  - intros (pl & Hpl & (e & He & Hd)%elem_of_doc_ids). by exists pl, e.
Qed.

Lemma search_docs_all_listed query index d :
  preprocess query ≠ [] →
  (∀ t, t ∈ preprocess query → ∃ pl, postings index !! t = Some pl ∧ pl ≠ []) →
  d ∈ (search query index).*1
  ↔ ∀ t, t ∈ preprocess query → has_posting index t d.
Proof.
  intros Hne Hall. unfold search.
  destruct (preprocess query) as [|t0 ts] eqn:Htok; [done|].
  rewrite (collect_lists_Some _ _ Hall).
  set (lists := (λ t, default [] (postings index !! t)) <$> t0 :: ts).
  assert (d ∈ _and_intersect lists ↔ ∀ t, t ∈ t0 :: ts → has_posting index t d) as Hmem.
  { rewrite (and_intersect_elem lists d) by done. unfold lists. split.
    - intros H t Ht. destruct (Hall t Ht) as (pl & Hpl & _).
      apply has_posting_doc_ids. exists pl. split; [done|]. apply H.
      apply list_elem_of_fmap. exists t. by rewrite Hpl.
    - intros H pl (t & -> & Ht)%list_elem_of_fmap.
      destruct (proj1 (has_posting_doc_ids _ _ _) (H t Ht)) as (pl & Hpl & Hd).
      by rewrite Hpl. }
  destruct (_and_intersect lists) as [|d0 ds] eqn:Hc.
  { rewrite <-Hmem. by rewrite !elem_of_nil. }
  rewrite <-Hmem, merge_sort_Permutation, <-list_fmap_compose.
  by rewrite list_fmap_id.
Qed.

Lemma collect_lists_None_inv postings tokens :
  collect_lists postings tokens = None →
  ∃ t, t ∈ tokens ∧ (postings !! t = None ∨ postings !! t = Some []).
Proof.
  induction tokens as [|u ts IH]; [done|]. simpl.
  destruct (postings !! u) as [[|e pl]|] eqn:Hu.
  - intros _. exists u. split; [left|by right].
  - intros H. destruct (collect_lists postings ts); [done|].
    destruct IH as (t & Ht & Hn); [done|]. exists t. split; [by right|done].
  - intros _. exists u. split; [left|by left].
Qed.

(** The documents of a result, for every index and every query. *)
Lemma elem_of_search query index d :
  d ∈ (search query index).*1
  ↔ preprocess query ≠ [] ∧ ∀ t, t ∈ preprocess query → has_posting index t d.
Proof.
  destruct (decide (preprocess query = [])) as [Hnil|Hne].
  { rewrite search_no_postings by (by left). split; [by intros ?%elem_of_nil|].
    by intros [? _]. }
  destruct (collect_lists (postings index) (preprocess query)) as [lists|] eqn:Hl.
  - rewrite search_docs_all_listed; [split; [by intros ?|by intros [_ ?]]|done|].
    by apply collect_lists_inv with lists.
  - apply collect_lists_None_inv in Hl as (t & Ht & Hnp).
    rewrite search_no_postings by (right; by exists t).
    split; [by intros ?%elem_of_nil|]. intros [_ H].
    destruct (H t Ht) as (pl & e & Hpl & He & _).
    destruct Hnp as [Hnp|Hnp]; rewrite Hnp in Hpl; [done|].
    injection Hpl as <-. by apply elem_of_nil in He.
Qed.

Lemma and_intersect_sorted lists : StronglySorted le (_and_intersect lists).
Proof.
  unfold _and_intersect. destruct lists as [|l0 ls]; [constructor|].
  destruct (merge_sort len_le (l0 :: ls)) as [|base rest]; [constructor|].
  destruct (intersect_rest (doc_ids base) rest) as [s|]; [|constructor].
  unfold sorted_nat. apply StronglySorted_merge_sort; apply _.
Qed.

Lemma StronglySorted_le_lt (l : list nat) :
  StronglySorted le l → NoDup l → StronglySorted lt l.
Proof.
  induction 1 as [|x l Hl IH Hx]; intros Hnd; [constructor|].
  apply NoDup_cons in Hnd as [Hx' Hnd]. constructor; [by apply IH|].
  apply Forall_forall. intros y Hy.
  rewrite Forall_forall in Hx. specialize (Hx y Hy).
  assert (x ≠ y) by (by intros ->). lia.
Qed.

End search_general.

(** X13: the terms of a query are joined by AND, for any index: a query
    that holds all the terms of another one (and maybe more) returns no
    document that the other does not return. *)
Theorem X13_search_more_terms_fewer_documents (query1 query2 : string)
    (index : Index) :
  Preprocess.preprocess query1 ≠ [] →
  (∀ t, t ∈ Preprocess.preprocess query1 → t ∈ Preprocess.preprocess query2) →
  (Search.search query2 index).*1 ⊆ (Search.search query1 index).*1.
Proof.
  intros Hne Hsub d [_ Hd]%elem_of_search. apply elem_of_search.
  split; [done|]. intros t Ht. by apply Hd, Hsub.
Qed.

(** X14: [_and_intersect] returns, in strictly ascending order, the
    document ids that occur in every one of the lists, and nothing for no
    list at all; the order of the lists, by which the code picks the one it
    starts from, does not change what is returned. *)
Theorem X14_and_intersect_sorted_intersection (lists : list (list posting)) :
  StronglySorted lt (Search._and_intersect lists)
  ∧ (∀ d, d ∈ Search._and_intersect lists
          ↔ lists ≠ [] ∧ ∀ pl, pl ∈ lists → d ∈ Search.doc_ids pl)
  ∧ (∀ lists', lists' ≡ₚ lists →
       Search._and_intersect lists' = Search._and_intersect lists).
Proof.
  assert (∀ ls d, d ∈ Search._and_intersect ls
            ↔ ls ≠ [] ∧ ∀ pl, pl ∈ ls → d ∈ Search.doc_ids pl) as Hmem.
  { intros ls d. destruct (decide (ls = [])) as [->|Hne].
    - split; [by intros ?%elem_of_nil|by intros [? _]].
    - rewrite and_intersect_elem by done. split; [by intros ?|by intros [_ ?]]. }
  split; [|split; [apply Hmem|]].
  - apply StronglySorted_le_lt; [apply and_intersect_sorted|apply and_intersect_NoDup].
  - intros lists' Hp.
    apply (StronglySorted_unique le); [apply and_intersect_sorted..|].
    apply NoDup_Permutation; [apply and_intersect_NoDup..|].
    intros d. rewrite !Hmem. split.
    + intros [Hne H]. split.
      * intros ->. by apply Permutation_nil_r in Hp.
      * intros pl Hpl. apply H. by rewrite Hp.
    + intros [Hne H]. split.
      * intros ->. by apply Permutation_nil_l in Hp.
      * intros pl Hpl. apply H. by rewrite <-Hp.
Qed.

(** X13 at the queries "search" and "search engines" on the two sample
    documents. *)
Lemma X13_witness :
  Preprocess.preprocess "search" ≠ []
  ∧ (∀ t, t ∈ Preprocess.preprocess "search"
          → t ∈ Preprocess.preprocess "search engines")
  ∧ (Search.search "search engines" (Indexer.build_index Examples.two_docs)).*1
    ⊆ (Search.search "search" (Indexer.build_index Examples.two_docs)).*1.
Proof.
  assert (Preprocess.preprocess "search" ≠ []) as Hne by (by vm_compute).
  assert (∀ t, t ∈ Preprocess.preprocess "search"
               → t ∈ Preprocess.preprocess "search engines") as Hsub.
  { intros t Ht.
    change (Preprocess.preprocess "search") with ["search"] in Ht.
    change (Preprocess.preprocess "search engines") with ["search"; "engines"].
    apply list_elem_of_singleton in Ht as ->. left. }
  split; [exact Hne|]. split; [exact Hsub|].
  exact (X13_search_more_terms_fewer_documents "search" "search engines"
           (Indexer.build_index Examples.two_docs) Hne Hsub).
Defined.

(** ** Indexer: the index as a function of the documents *)

Section index_general.
Import Preprocess Indexer.

Lemma postings_from_snoc d texts text t :
  postings_from d (texts ++ [text]) t
  = postings_from d texts t
    ++ match term_count t (preprocess text) with
       | 0 => []
       | n => [Posting (d + length texts) n]
       end.
Proof.
  revert d. induction texts as [|x texts IH]; intros d; simpl.
  - rewrite Nat.add_0_r. by destruct (term_count t (preprocess text)).
  - rewrite IH, Nat.add_succ_r. by destruct (term_count t (preprocess x)).
Qed.

Lemma indexed_docs_snoc files f :
  indexed_docs (files ++ [f])
  = indexed_docs files
    ++ match extracted f with
       | Some raw =>
           match strip raw with
           | EmptyString => []
           | text => [(file_path f, text)]
           end
       | None => []
       end.
Proof.
  unfold indexed_docs. rewrite omap_app. f_equal. simpl.
  destruct (extracted f) as [raw|]; [|done]. by destruct (strip raw).
Qed.

(** What the loop over the files has built after the files [files]. *)
Lemma build_loop_docs files :
  let st := foldl index_file init_state files in
  let docs := indexed_docs files in
  st_doc_id st = length docs
  ∧ (∀ d, st_doc_id_map st !! KInt d = docs.*1 !! d)
  ∧ (∀ d, st_forward_index st !! KInt d = docs.*2 !! d)
  ∧ (∀ s, st_doc_id_map st !! KStr s = None ∧ st_forward_index st !! KStr s = None)
  ∧ (∀ t, st_postings st !! t
          = match postings_from 0 docs.*2 t with [] => None | pl => Some pl end).
Proof.
  induction files as [|f files IH] using rev_ind.
  { simpl. repeat split; intros; by rewrite ?lookup_empty. }
  cbv zeta in *. rewrite foldl_snoc, indexed_docs_snoc.
  set (st := foldl index_file init_state files) in *.
  set (docs := indexed_docs files) in *.
  destruct IH as (Hid & Hmap & Hfwd & Hstr & Hpost).
  unfold index_file.
  destruct (extracted f) as [raw|]; [|by rewrite app_nil_r].
  destruct (strip raw) as [|c0 r0] eqn:Htext; [by rewrite app_nil_r|].
  set (text := String c0 r0) in *. set (tokens := preprocess text).
  pose proof (index_tokens_lookup (st_doc_id st) tokens (st_postings st) (st_df st))
    as Hlook.
  simpl in Hlook. fold tokens.
  destruct (match tokens with
            | [] => (st_postings st, st_df st)
            | _ => foldl (add_posting (st_doc_id st)) (st_postings st, st_df st)
                     (Counter tokens)
            end) as [p' f'] eqn:E.
  simpl in Hlook. simpl.
  split; [rewrite length_app; simpl; lia|].
  rewrite !fmap_app. simpl.
  assert (∀ {A} (m : gmap pykey A) (l : list A) x,
    (∀ d, m !! KInt d = l !! d) →
    ∀ d, <[KInt (length l) := x]> m !! KInt d = (l ++ [x]) !! d) as Hsnoc.
  { intros A m l x Hm d. destruct (decide (d = length l)) as [->|Hne].
    - rewrite lookup_insert_eq. by rewrite list_lookup_middle.
    - rewrite lookup_insert_ne by congruence. rewrite Hm.
      destruct (decide (d < length l)).
      + by rewrite lookup_app_l.
      + rewrite !lookup_ge_None_2; [done|rewrite length_app; simpl; lia|lia]. }
  rewrite Hid.
  split; [|split; [|split]].
  - replace (length docs) with (length docs.*1) by apply length_fmap.
    by apply Hsnoc.
  - replace (length docs) with (length docs.*2) by apply length_fmap.
    by apply Hsnoc.
  - intros s. rewrite !lookup_insert_ne by done. apply Hstr.
  - intros t. destruct (Hlook t) as [-> _]. rewrite postings_from_snoc, Hpost.
    fold tokens. rewrite length_fmap, Hid. simpl.
    pose proof (term_count_pos t tokens) as Hpos.
    case_decide as Hin.
    + apply Hpos in Hin. destruct (term_count t tokens) as [|n] eqn:En; [lia|].
      by destruct (postings_from 0 docs.*2 t).
    + destruct (term_count t tokens) as [|n] eqn:En.
      * by rewrite app_nil_r.
      * destruct Hin. apply Hpos. lia.
Qed.

Lemma build_index_doc_id_map files :
  doc_id_map (build_index files) = st_doc_id_map (foldl index_file init_state files).
Proof. done. Qed.

Lemma build_index_text files d :
  forward_index (build_index files) !! KInt d = (indexed_docs files).*2 !! d.
Proof.
  rewrite build_index_forward.
  by destruct (build_loop_docs files) as (_ & _ & -> & _).
Qed.

(** A document is returned exactly when its text holds every term of the
    query. *)
Lemma build_index_search_docs files query d :
  d ∈ (Search.search query (build_index files)).*1
  ↔ preprocess query ≠ []
    ∧ ∃ text, (indexed_docs files).*2 !! d = Some text
        ∧ ∀ t, t ∈ preprocess query → t ∈ preprocess text.
Proof.
  rewrite elem_of_search. split.
  - intros [Hne Hall]. split; [done|].
    destruct (preprocess query) as [|t0 ts] eqn:Htok; [done|].
    destruct (Hall t0) as (pl & [d' n] & Hpl & He & Hd); [left|].
    simpl in Hd. subst d'.
    destruct (proj1 (build_index_entries files t0 d n)) as (text & Htext & _).
    { by exists pl. }
    exists text. split; [by rewrite <-build_index_text|].
    intros t Ht. destruct (Hall t Ht) as (pl' & [d' n'] & Hpl' & He' & Hd').
    simpl in Hd'. subst d'.
    destruct (proj1 (build_index_entries files t d n')) as (text' & Htext' & Hin & _).
    { by exists pl'. }
    rewrite Htext in Htext'. by injection Htext' as <-.
  - intros [Hne (text & Htext & Hall)]. split; [done|]. intros t Ht.
    destruct (proj2 (build_index_entries files t d (term_count t (preprocess text))))
      as (pl & Hpl & He).
    { exists text. split; [by rewrite build_index_text|]. split; [by apply Hall|done]. }
    by exists pl, (Posting d (term_count t (preprocess text))).
Qed.

End index_general.

(** X15: [build_index] numbers the documents 0, 1, 2, ... in the order of
    the directory listing, and a file that is skipped (no text extracted,
    or only white space) takes no number: [doc_id_map] and [forward_index]
    hold under the integer [d] the path and the trimmed text of the
    [d]-th file that is not skipped, [N] is the number of those files, and
    no other key is present. *)
Theorem X15_build_index_numbers_documents (files : list Indexer.source_file) :
  N (Indexer.build_index files) = length (indexed_docs files)
  ∧ (∀ d, doc_id_map (Indexer.build_index files) !! KInt d
          = (indexed_docs files).*1 !! d)
  ∧ (∀ d, forward_index (Indexer.build_index files) !! KInt d
          = (indexed_docs files).*2 !! d)
  ∧ (∀ s, doc_id_map (Indexer.build_index files) !! KStr s = None
          ∧ forward_index (Indexer.build_index files) !! KStr s = None).
Proof.
  rewrite build_index_N, build_index_forward, build_index_doc_id_map.
  destruct (build_loop_docs files) as (H1 & H2 & H3 & H4 & _). done.
Qed.

(** X16: the inverted index is the one of the documents: the postings
    list of a term has one entry per document whose text holds the term,
    with the number of occurrences of the term among the tokens of that
    text, in ascending order of document id; a term that occurs in no
    document has no list, and [df] is the length of the list. *)
Theorem X16_build_index_postings_of_documents (files : list Indexer.source_file)
    (t : string) :
  postings (Indexer.build_index files) !! t
  = match postings_from 0 (indexed_docs files).*2 t with
    | [] => None
    | plist => Some plist
    end
  ∧ df (Indexer.build_index files) !! t
    = match postings_from 0 (indexed_docs files).*2 t with
      | [] => None
      | plist => Some (length plist)
      end.
Proof.
  rewrite build_index_df, lookup_fmap, build_index_postings.
  destruct (build_loop_docs files) as (_ & _ & _ & _ & ->).
  by destruct (postings_from 0 (indexed_docs files).*2 t).
Qed.

(** X17: retrieval from end to end: on the index of a directory, [search]
    returns document [d] exactly when the query has a term and every term
    of the query occurs among the tokens of the text of document [d]. *)
Theorem X17_search_returns_documents_with_all_terms
    (files : list Indexer.source_file) (query : string) (d : nat) :
  d ∈ (Search.search query (Indexer.build_index files)).*1
  ↔ Preprocess.preprocess query ≠ []
    ∧ ∃ text, (indexed_docs files).*2 !! d = Some text
        ∧ ∀ t, t ∈ Preprocess.preprocess query → t ∈ Preprocess.preprocess text.
Proof. apply build_index_search_docs. Qed.

(** ** Norms and scores of a built index *)

Section norm_general.
Import Preprocess Indexer Search.
Local Open Scope R_scope.

Lemma sum_over_sum_list terms f : sum_over terms f = sum_list (f <$> terms).
Proof.
  unfold sum_over, sum_list. induction terms as [|t ts IH]; [done|].
  simpl. by rewrite IH.
Qed.

Lemma sum_list_cons x l : sum_list (x :: l) = x + sum_list l.
Proof. done. Qed.



(** The inner loop adds to the norm of document [d] the squares of the
    entries of [d]. *)
Lemma foldl_add_norm_lookup w pl dn d :
  default 0 (foldl (add_norm w) dn pl !! KInt d)
  = default 0 (dn !! KInt d)
    + sum_list (entry_square w <$> filter (λ e, doc_id e = d) pl).
Proof.
  revert dn. induction pl as [|e pl IH]; intros dn; simpl; [lra|].
  rewrite IH. unfold add_norm.
  destruct (decide (doc_id e = d)) as [<-|Hne].
  - rewrite lookup_insert_eq, filter_cons_True, fmap_cons, sum_list_cons by done.
    match goal with
    | |- context [default 0 (Some ?x)] => change (default 0 (Some x)) with x
    end.
    unfold entry_square. lra.
  - rewrite lookup_insert_ne by congruence. by rewrite filter_cons_False.
Qed.

Lemma foldl_norm_items_lookup (idf : gmap string R) items dn d :
  default 0 (foldl (λ dn '(token, plist),
               foldl (add_norm (default 0 (idf !! token))) dn plist) dn items !! KInt d)
  = default 0 (dn !! KInt d)
    + sum_list ((λ '(t, pl), sum_list (entry_square (default 0 (idf !! t))
                                       <$> filter (λ e, doc_id e = d) pl)) <$> items).
Proof.
  revert dn. induction items as [|[t pl] items IH]; intros dn; [simpl; lra|].
  rewrite fmap_cons, sum_list_cons. cbn [foldl].
  rewrite IH, foldl_add_norm_lookup. lra.
Qed.

Lemma filter_none {A} (P : A → Prop) `{!∀ x, Decision (P x)} (l : list A) :
  (∀ x, x ∈ l → ¬ P x) → filter P l = [].
Proof.
  induction l as [|x l IH]; intros Hall; [done|].
  rewrite filter_cons_False by (apply Hall; left).
  apply IH. intros y ?. apply Hall. by right.
Qed.

Lemma filter_doc_id_unique pl e :
  NoDup (doc_id <$> pl) → e ∈ pl → filter (λ e', doc_id e' = doc_id e) pl = [e].
Proof.
  induction pl as [|x pl IH]; [by intros _ ?%elem_of_nil|]. rewrite fmap_cons.
  intros [Hx Hnd]%NoDup_cons [->|He]%elem_of_cons.
  - rewrite filter_cons_True by done. f_equal. apply filter_none.
    intros y Hy Heq. apply Hx. rewrite <-Heq. by apply list_elem_of_fmap_2.
  - rewrite filter_cons_False; [by apply IH|].
    intros Heq. apply Hx. rewrite Heq. by apply list_elem_of_fmap_2.
Qed.

Lemma sum_list_if {A} (P : A → Prop) `{!∀ x, Decision (P x)} (f : A → R) (l : list A) :
  sum_list ((λ x, if decide (P x) then f x else 0) <$> l) = sum_list (f <$> filter P l).
Proof.
  induction l as [|x l IH]; [done|]. rewrite fmap_cons, sum_list_cons, IH.
  destruct (decide (P x)).
  - by rewrite filter_cons_True, fmap_cons, sum_list_cons.
  - rewrite filter_cons_False by done. lra.
Qed.

Lemma sum_list_Permutation l1 l2 : l1 ≡ₚ l2 → sum_list l1 = sum_list l2.
Proof. induction 1; rewrite ?sum_list_cons; [done|lra|lra|congruence]. Qed.

(** The weight of a term of a document, as the loop over the postings
    computes it. *)
Lemma build_index_entry_square files t pl d text :
  postings (build_index files) !! t = Some pl →
  forward_index (build_index files) !! KInt d = Some text →
  sum_list (entry_square (default 0 (idf (build_index files) !! t))
            <$> filter (λ e, doc_id e = d) pl)
  = if decide (t ∈ preprocess text)
    then term_weight (build_index files) (preprocess text) t ^ 2
    else 0.
Proof.
  intros Hpl Htext.
  destruct (build_index_plist files t pl Hpl) as (_ & Hs & _).
  apply StronglySorted_lt_NoDup in Hs.
  case_decide as Hin.
  - destruct (proj2 (build_index_entries files t d (term_count t (preprocess text))))
      as (pl' & Hpl' & He).
    { by exists text. }
    pose proof (eq_trans (eq_sym Hpl) Hpl') as [= <-].
    pose proof (filter_doc_id_unique pl (Posting d _) Hs He) as Hf.
    cbn [doc_id] in Hf. rewrite Hf, fmap_cons, sum_list_cons.
    destruct (build_index_idf_lookup files t pl Hpl) as [-> _].
    assert (df (build_index files) !! t = Some (length pl)) as Hdf.
    { by rewrite build_index_df, lookup_fmap, Hpl. }
    unfold term_weight, entry_square, idf_of. rewrite Hdf.
    cbn [tf default from_option id sum_list foldr fmap list_fmap].
    unfold Datatypes.id. lra.
  - rewrite filter_none; [done|]. intros [d' n] He Hd. simpl in Hd. subst d'.
    destruct (proj1 (build_index_entries files t d n)) as (text' & Htext' & Hin' & _).
    { by exists pl. }
    pose proof (eq_trans (eq_sym Htext) Htext') as [= <-]. done.
Qed.

(** The norm of a document is the root of the sum of the squares of the
    weights of its terms. *)
Lemma build_index_doc_norm_value files d text :
  forward_index (build_index files) !! KInt d = Some text →
  doc_norm (build_index files) !! KInt d
  = match preprocess text with
    | [] => None
    | tokens =>
        Some (sqrt (sum_over (distinct tokens)
                      (λ t, term_weight (build_index files) tokens t ^ 2)))
    end.
Proof.
  intros Htext.
  pose proof (build_index_doc_norm_terms files d text Htext) as Hterms.
  destruct (doc_norm (build_index files) !! KInt d) as [v|] eqn:Hv.
  2:{ destruct (preprocess text) as [|t ts]; [done|].
      destruct (proj2 Hterms) as [? [=]]. done. }
  assert (preprocess text ≠ []) as Hne by (apply Hterms; by eexists).
  assert (v = sqrt (sum_over (distinct (preprocess text))
                      (λ t, term_weight (build_index files) (preprocess text) t ^ 2)))
    as ->; [|by destruct (preprocess text)].
  rewrite build_index_doc_norm_eq, lookup_fmap in Hv.
  destruct (norm_squares _ _ !! KInt d) as [sq|] eqn:Hsq; [|done].
  injection Hv as <-. f_equal.
  change sq with (default 0 (Some sq)). rewrite <-Hsq. unfold norm_squares.
  rewrite foldl_norm_items_lookup, lookup_empty. simpl. rewrite Rplus_0_l.
  set (index := build_index files) in *.
  transitivity (sum_list ((λ item : string * list posting,
      if decide (item.1 ∈ preprocess text)
      then term_weight index (preprocess text) item.1 ^ 2 else 0)
      <$> map_to_list (postings index))).
  { f_equal. apply list_fmap_ext. intros _ [t pl] Hin%list_elem_of_lookup_2.
    apply elem_of_map_to_list in Hin. simpl.
    by apply build_index_entry_square. }
  rewrite (sum_list_if (λ item : string * list posting, item.1 ∈ preprocess text)
             (λ item, term_weight index (preprocess text) item.1 ^ 2)).
  rewrite sum_over_sum_list.
  transitivity (sum_list ((λ t, term_weight index (preprocess text) t ^ 2)
    <$> (filter (λ item : string * list posting, item.1 ∈ preprocess text)
           (map_to_list (postings index))).*1)).
  { by rewrite <-list_fmap_compose. }
  apply sum_list_Permutation, fmap_Permutation.
  apply NoDup_Permutation.
  - apply (NoDup_fmap_2_strong fst).
    + intros [t1 pl1] [t2 pl2] [_ H1%elem_of_map_to_list]%list_elem_of_filter
        [_ H2%elem_of_map_to_list]%list_elem_of_filter Heq.
      simpl in Heq. subst t2. congruence.
    + apply NoDup_filter, NoDup_map_to_list.
  - unfold distinct. apply NoDup_elements.
  - intros t. rewrite elem_of_distinct, list_elem_of_fmap. split.
    + by intros ([t' pl] & -> & [? _]%list_elem_of_filter).
    + intros Hin.
      destruct (proj2 (build_index_entries files t d (term_count t (preprocess text))))
        as (pl & Hpl & _).
      { by exists text. }
      exists (t, pl). split; [done|]. apply list_elem_of_filter. split; [done|].
      by apply elem_of_map_to_list.
Qed.

End norm_general.

Section score_general.
Import Preprocess Indexer Search.
Local Open Scope R_scope.






End score_general.

(** X18: the norm that [build_index] stores for a document is the square
    root of the sum, over the distinct terms of the text of the document,
    of the squares of the weights [(1 + ln tf) * idf]; a document without
    terms, and a number that is not a document id, have no norm. *)
Theorem X18_doc_norm_is_root_of_squared_weights (files : list Indexer.source_file)
    (d : nat) :
  doc_norm (Indexer.build_index files) !! KInt d
  = match (indexed_docs files).*2 !! d with
    | None => None
    | Some text =>
        match Preprocess.preprocess text with
        | [] => None
        | tokens =>
            Some (sqrt (sum_over (Search.distinct tokens)
                          (λ t, term_weight (Indexer.build_index files) tokens t ^ 2)%R))
        end
    end.
Proof.
  rewrite <-build_index_text.
  destruct (forward_index (Indexer.build_index files) !! KInt d) as [text|] eqn:Htext.
  { by apply build_index_doc_norm_value. }
  destruct (doc_norm (Indexer.build_index files) !! KInt d) as [v|] eqn:Hv; [|done].
  destruct (proj1 (build_index_doc_norm_keys files (KInt d)))
    as (t & pl & [d' n] & Hpl & He & [= <-]); [by eexists|].
  destruct (proj1 (build_index_entries files t d n)) as (text & Htext' & _).
  { by exists pl. }
  congruence.
Qed.



(** ** Persistence: what a round trip through JSON keeps *)

Section storage_general.
Import Storage.

(** Saving a dict whose keys are integers: the value of the key [d] is
    written under the string [str(d)]. *)
Lemma lookup_kmap_json_key {A} (m : gmap pykey A) (d : nat) :
  (∀ s, m !! KStr s = None) →
  (kmap json_key m : gmap string A) !! pretty d = m !! KInt d.
Proof.
  intros Hint.
  assert (∀ k v, (k, v) ∈ map_to_list m → ∃ n, k = KInt n) as Hkeys.
  { intros [n|s] v Hin%elem_of_map_to_list; [by exists n|]. by rewrite Hint in Hin. }
  apply option_eq. intros x. unfold kmap.
  rewrite <-elem_of_list_to_map'.
  - rewrite list_elem_of_fmap. split.
    + intros ([k v] & [= Hk ->] & Hin).
      destruct (Hkeys _ _ Hin) as [n ->]. simpl in Hk.
      apply (inj pretty) in Hk as ->. by apply elem_of_map_to_list.
    + intros Hx. exists (KInt d, x). split; [done|]. by apply elem_of_map_to_list.
  - intros x'. rewrite !list_elem_of_fmap.
    intros ([k1 v1] & [= Hk1 ->] & Hin1) ([k2 v2] & [= Hk2 ->] & Hin2).
    destruct (Hkeys _ _ Hin1) as [n1 ->]. destruct (Hkeys _ _ Hin2) as [n2 ->].
    simpl in *. apply (inj pretty) in Hk1 as <-. apply (inj pretty) in Hk2 as <-.
    apply elem_of_map_to_list in Hin1, Hin2. congruence.
Qed.

Lemma roundtrip_lookup_str {A} (m : gmap pykey A) (d : nat) :
  (∀ s, m !! KStr s = None) →
  (kmap KStr (kmap json_key m : gmap string A) : gmap pykey A) !! KStr (pretty d)
  = m !! KInt d.
Proof.
  intros Hint. rewrite (lookup_kmap KStr).
  by apply lookup_kmap_json_key.
Qed.

Lemma roundtrip_lookup_int {A} (m : gmap string A) (d : nat) :
  (kmap KStr m : gmap pykey A) !! KInt d = None.
Proof. apply lookup_kmap_None; [apply _|]. by intros s [=]. Qed.

Lemma build_index_doc_norm_str files s :
  doc_norm (Indexer.build_index files) !! KStr s = None.
Proof.
  destruct (doc_norm (Indexer.build_index files) !! KStr s) as [v|] eqn:Hv; [|done].
  destruct (proj1 (build_index_doc_norm_keys files (KStr s)))
    as (t & pl & e & _ & _ & [=]). by eexists.
Qed.

(** The pairs of a result. *)
Lemma elem_of_search_pair query index d s :
  (d, s) ∈ Search.search query index
  ↔ d ∈ (Search.search query index).*1
    ∧ s = (Search.sum_terms
             (Search.build_tf_map (postings index)
                (Search.distinct (Preprocess.preprocess query)))
             (idf index) d (Search.distinct (Preprocess.preprocess query)) 0
           / norm_divisor index d)%R.
Proof.
  rewrite <-score_doc_divisor. split.
  - intros Hin. split; [|by apply search_elem in Hin as [_ ?]].
    apply list_elem_of_fmap. by exists (d, s).
  - intros [([d' s'] & -> & Hin)%list_elem_of_fmap ->]. simpl.
    by destruct (search_elem _ _ _ _ Hin) as [_ <-].
Qed.

End storage_general.

(** X20: what a built index looks like after [save_index] and
    [load_index]: the path, the text and the norm of document [d] are
    found under the string of [d] and no longer under the integer [d];
    the postings, the document frequencies, the inverse document
    frequencies and [N] are as they were. *)
Theorem X20_roundtrip_moves_ids_to_strings (files : list Indexer.source_file)
    (d : nat) :
  let index := Indexer.build_index files in
  let back := Storage.load_index (Storage.save_index index) in
  (doc_id_map back !! KStr (pretty d) = doc_id_map index !! KInt d
   ∧ forward_index back !! KStr (pretty d) = forward_index index !! KInt d
   ∧ doc_norm back !! KStr (pretty d) = doc_norm index !! KInt d)
  ∧ (doc_id_map back !! KInt d = None
     ∧ forward_index back !! KInt d = None
     ∧ doc_norm back !! KInt d = None)
  ∧ (postings back = postings index ∧ df back = df index
     ∧ idf back = idf index ∧ N back = N index).
Proof.
  intros index back.
  destruct (build_loop_docs files) as (_ & _ & _ & Hstr & _).
  split; [|split; [|done]].
  - split; [|split]; apply roundtrip_lookup_str.
    + intros s. apply Hstr.
    + intros s. apply Hstr.
    + intros s. apply build_index_doc_norm_str.
  - split; [|split]; apply roundtrip_lookup_int.
Qed.

(** X21: searching an index that was saved and loaded returns the
    documents that the index returned before, each with its score
    multiplied by the norm of the document, that is, not normalised: the
    norms are then stored under strings, where [search] does not look. *)
Theorem X21_reloaded_index_scores_unnormalised (index : Index) (query : string)
    (d : nat) (s : R) :
  (d, s) ∈ Search.search query (Storage.load_index (Storage.save_index index))
  ↔ ∃ s0, (d, s0) ∈ Search.search query index
      ∧ s = (s0 * norm_divisor index d)%R.
Proof.
  rewrite search_roundtrip.
  set (bare := mkIndex _ _ _ _ _ _ ∅).
  assert (norm_divisor bare d = 1%R) as Hone.
  { unfold norm_divisor, bare. simpl. by rewrite lookup_empty. }
  assert (0 < norm_divisor index d)%R as Hpos.
  { unfold norm_divisor. destruct (doc_norm index !! KInt d) as [v|]; [|lra].
    case_decide; lra. }
  assert (d ∈ (Search.search query bare).*1 ↔ d ∈ (Search.search query index).*1) as Hdocs.
  { by rewrite !elem_of_search. }
  rewrite elem_of_search_pair, Hone, Hdocs. cbn [postings idf bare].
  split.
  - intros [Hd ->]. eexists. split; [apply elem_of_search_pair; by split|].
    unfold Rdiv. rewrite Rmult_assoc, Rinv_l by lra. lra.
  - intros (s0 & [Hd ->]%elem_of_search_pair & ->). split; [done|].
    unfold Rdiv. rewrite Rmult_assoc, Rinv_l by lra. lra.
Qed.

(** ** Tokenizer: case and concatenation *)

Section tokenizer_general.
Import Preprocess.

Lemma lower_char_idemp c : lower_char (lower_char c) = lower_char c.
Proof. by destruct c as [[] [] [] [] [] [] [] []]. Qed.

Lemma lower_idemp s : lower (lower s) = lower s.
Proof. induction s as [|c r IH]; [done|]. simpl. by rewrite lower_char_idemp, IH. Qed.

Lemma preprocess_lower s : preprocess (lower s) = preprocess s.
Proof.
  unfold preprocess, preprocess_with. destruct s as [|c r]; [done|].
  change (lower (String c r)) with (String (lower_char c) (lower r)) at 1.
  cbv beta iota. by rewrite lower_idemp.
Qed.

Lemma cons_word_app w ws l : cons_word w (ws ++ l) = cons_word w ws ++ l.
Proof. by destruct w. Qed.

(** The words of two texts joined by a character that is no term
    character. *)
Lemma words_go_app s1 c s2 :
  is_term_char (lower_char c) = false →
  words_go false (String.append s1 (String c s2))
  = ((words_go false s1).1, (words_go false s1).2 ++ flat (words_go false s2)).
Proof.
  intros Hc. induction s1 as [|a r IH].
  - rewrite append_nil, words_go_sep, words_go_nil by done. simpl.
    by rewrite flat_words_go.
  - rewrite append_cons.
    destruct (is_term_char (lower_char a)) eqn:Ha.
    + rewrite !words_go_term by done. by rewrite IH.
    + rewrite !words_go_sep by done. f_equal.
      rewrite !(flat_words_go true). unfold flat. rewrite IH. simpl.
      apply cons_word_app.
Qed.

Lemma preprocess_app s1 c s2 :
  is_term_char (lower_char c) = false →
  preprocess (String.append s1 (String c s2)) = preprocess s1 ++ preprocess s2.
Proof.
  intros Hc. rewrite !preprocess_words, <-filter_app. f_equal.
  unfold flat at 1. rewrite words_go_app by done. simpl.
  by rewrite cons_word_app.
Qed.

End tokenizer_general.

(** X22: what [preprocess] returns, whatever the text: every token is a
    non-empty string of the characters a-z and 0-9 and is no stop word,
    and the case of the letters of the text makes no difference. *)
Theorem X22_preprocess_lower_case_terms (text : string) :
  Forall (λ t, is_term t ∧ t ∉ Preprocess.STOPWORDS) (Preprocess.preprocess text)
  ∧ Preprocess.preprocess (Preprocess.lower text) = Preprocess.preprocess text.
Proof. split; [apply preprocess_terms|apply preprocess_lower]. Qed.

(** X23: the tokens of two texts joined by a character that is neither a
    letter nor a digit (a line break, a space, a comma) are the tokens of
    the first text followed by the tokens of the second. *)
Theorem X23_preprocess_of_joined_texts (text1 text2 : string) (c : ascii) :
  Preprocess.is_term_char (Preprocess.lower_char c) = false →
  Preprocess.preprocess (String.append text1 (String c text2))
  = Preprocess.preprocess text1 ++ Preprocess.preprocess text2.
Proof. apply preprocess_app. Qed.

(** X23 at two lines of text. *)
Lemma X23_witness :
  Preprocess.is_term_char (Preprocess.lower_char "010"%char) = false
  ∧ Preprocess.preprocess (String.append "Search engines" (String "010"%char "Index the documents"))
    = Preprocess.preprocess "Search engines" ++ Preprocess.preprocess "Index the documents".
Proof.
  split; [reflexivity|].
  apply (X23_preprocess_of_joined_texts "Search engines" "Index the documents" "010"%char).
  reflexivity.
Defined.

(** ** The HTTP endpoints: pages and snippets *)

Section string_facts.
Import Preprocess.

Lemma length_list_ascii s : length (list_ascii_of_string s) = String.length s.
Proof. induction s as [|c r IH]; simpl; [done|]. by rewrite IH. Qed.

Lemma list_ascii_append s1 s2 :
  list_ascii_of_string (String.append s1 s2)
  = list_ascii_of_string s1 ++ list_ascii_of_string s2.
Proof. induction s1 as [|c r IH]; simpl; [done|]. by rewrite IH. Qed.

Lemma list_ascii_substring n m s :
  list_ascii_of_string (substring n m s) = take m (drop n (list_ascii_of_string s)).
Proof.
  revert n m. induction s as [|c r IH]; intros n m.
  - destruct n, m; simpl; by rewrite ?drop_nil, ?take_nil.
  - destruct n as [|n]; simpl.
    + destruct m as [|m]; simpl; [done|]. rewrite (IH 0 m). by rewrite drop_0.
    + apply IH.
Qed.

Lemma list_ascii_lower s :
  list_ascii_of_string (lower s) = lower_char <$> list_ascii_of_string s.
Proof. induction s as [|c r IH]; simpl; [done|]. by rewrite IH. Qed.

Lemma list_ascii_inj s1 s2 :
  list_ascii_of_string s1 = list_ascii_of_string s2 → s1 = s2.
Proof.
  intros H. rewrite <-(string_of_list_ascii_of_string s1),
    <-(string_of_list_ascii_of_string s2). by rewrite H.
Qed.

Lemma length_append s1 s2 :
  String.length (String.append s1 s2) = String.length s1 + String.length s2.
Proof. by rewrite <-!length_list_ascii, list_ascii_append, length_app. Qed.

Lemma length_substring_le n m s : String.length (substring n m s) ≤ m.
Proof. rewrite <-length_list_ascii, list_ascii_substring, length_take. lia. Qed.

Lemma length_lower s : String.length (lower s) = String.length s.
Proof. by rewrite <-!length_list_ascii, list_ascii_lower, length_fmap. Qed.

End string_facts.

Section page_facts.
Import Main.

(** The slice of [api_search] for page [page] of [limit] results. *)
Lemma list_slice_page {A} (l : list A) (page limit : Z) :
  (1 ≤ page)%Z → (1 ≤ limit)%Z →
  list_slice l ((page - 1) * limit) ((page - 1) * limit + limit)
  = take (Z.to_nat limit) (drop (Z.to_nat ((page - 1) * limit)) l).
Proof.
  intros Hp Hl. unfold list_slice.
  set (a := ((page - 1) * limit)%Z).
  assert (0 ≤ a)%Z as Ha by (unfold a; nia).
  unfold slice_bound. rewrite !decide_False by lia.
  destruct (decide (a ≤ Z.of_nat (length l))%Z) as [Hin|Hout].
  - rewrite (Z.min_l a) by lia.
    destruct (decide (a + limit ≤ Z.of_nat (length l))%Z).
    + rewrite Z.min_l by lia. f_equal. lia.
    + rewrite Z.min_r by lia.
      rewrite !take_ge; [done|rewrite length_drop; lia..].
  - rewrite !Z.min_r by lia. rewrite Z.sub_diag.
    rewrite (drop_ge l (Z.to_nat a)) by lia. by rewrite take_nil.
Qed.

End page_facts.

(** X24: [api_search] shows the ranking page by page.  For a query that is
    not blank, a page number of at least 1 and a limit of at least 1, on
    a service made by the constructor and after any calls, the response
    holds the items of the results number [(page - 1) * limit + 1] to
    [page * limit] of the ranking that the query engine gives on the
    index, in that order (fewer, or none, where the ranking ends), and
    [totalResults] is the length of the whole ranking. *)
Theorem X24_api_search_returns_page (index : Index) (cap : Z)
    (svc0 : Service.SearchService) (calls : list (string * (R * R)))
    (q : string) (page limit : Z) (start now : R) :
  Service.init index cap = inl svc0 →
  Indexer.strip q ≠ EmptyString →
  (1 ≤ page)%Z →
  (1 ≤ limit)%Z →
  ∃ r, (Main.api_search (search_all svc0 calls) q page limit start now).1 = inl r
    ∧ Main.fr_totalResults r = length (Search.search q index)
    ∧ Main.fr_results r
      = Main.result_item index q
        <$> take (Z.to_nat limit)
              (drop (Z.to_nat ((page - 1) * limit)) (Search.search q index))
    ∧ Main.fr_page r = page.
Proof.
  intros Hinit Hq Hp Hl.
  pose proof (search_all_ok index svc0 calls (service_init_ok _ _ _ Hinit)) as Hok.
  destruct (service_search_ok index (search_all svc0 calls) q start now Hok)
    as [_ Hres].
  unfold Main.api_search.
  destruct (Indexer.strip q) as [|c r] eqn:E; [done|].
  destruct (Service.search (search_all svc0 calls) q start now) as [resp svc'] eqn:Es.
  simpl in Hres. eexists. split; [done|].
  cbn [Main.fr_totalResults Main.fr_results Main.fr_page].
  rewrite Hres, (ok_index _ _ Hok), list_slice_page by done. done.
Qed.

(** X24 at page 1 with limit 10 for the query "search engines" on the two
    sample documents. *)
Lemma X24_witness :
  let index := Indexer.build_index Examples.two_docs in
  let svc0 := Service.mkService index (Some (lru_state 8 [] 0 0)) 0 0%R in
  Service.init index 8 = inl svc0
  ∧ Indexer.strip "search engines" ≠ EmptyString
  ∧ ∃ r, (Main.api_search (search_all svc0 []) "search engines" 1 10 0 1).1 = inl r
      ∧ Main.fr_totalResults r = length (Search.search "search engines" index)
      ∧ Main.fr_results r
        = Main.result_item index "search engines"
          <$> take (Z.to_nat 10)
                (drop (Z.to_nat ((1 - 1) * 10)) (Search.search "search engines" index))
      ∧ Main.fr_page r = 1%Z.
Proof.
  intros index svc0.
  assert (Service.init index 8 = inl svc0) as Hinit by reflexivity.
  assert (Indexer.strip "search engines" ≠ EmptyString) as Hq by (by vm_compute).
  split; [exact Hinit|]. split; [exact Hq|].
  apply (X24_api_search_returns_page index 8 svc0 [] "search engines" 1 10 0 1 Hinit Hq);
    lia.
Defined.

Section snippet_facts.
Import Preprocess Main.
Local Open Scope Z_scope.

Lemma index_empty s : String.index 0 EmptyString s = Some 0%nat.
Proof. by destruct s. Qed.

(** [find] gives [-1] or the position of an occurrence. *)
Lemma find_spec s sub :
  find s sub = -1
  ∨ ∃ m : nat, find s sub = Z.of_nat m ∧ occurs_at sub s m.
Proof.
  unfold find. destruct (String.index 0 sub s) as [m|] eqn:Hi; [right|by left].
  exists m. split; [done|].
  pose proof (index_correct1 _ _ _ _ Hi) as Hsub. split; [|done].
  destruct sub as [|a sub'].
  { rewrite index_empty in Hi. injection Hi as <-. simpl. lia. }
  apply (f_equal String.length) in Hsub.
  rewrite <-!length_list_ascii, list_ascii_substring, length_take, length_drop in Hsub.
  rewrite <-!length_list_ascii.
  assert (1 ≤ length (list_ascii_of_string (String a sub')))%nat by (simpl; lia).
  lia.
Qed.

Lemma find_ge s sub : find s sub ≠ -1 → 0 ≤ find s sub.
Proof. destruct (find_spec s sub) as [?|(m & -> & _)]; [done|lia]. Qed.

(** The loop over the terms: [best_pos] ends as the least position at
    which a term is found, if that is less than its first value. *)
Lemma best_position_spec text_lower terms b :
  0 ≤ b →
  0 ≤ best_position text_lower terms b ≤ b
  ∧ (∀ t, t ∈ terms → find text_lower t ≠ -1 →
          best_position text_lower terms b ≤ find text_lower t)
  ∧ (best_position text_lower terms b = b
     ∨ ∃ t, t ∈ terms ∧ find text_lower t = best_position text_lower terms b).
Proof.
  revert b. induction terms as [|u terms IH]; intros b Hb.
  { simpl. split; [lia|]. split; [by intros t ?%elem_of_nil|by left]. }
  unfold best_position in *. cbn [foldl].
  set (b' := if decide (find text_lower u ≠ -1 ∧ find text_lower u < b)
             then find text_lower u else b).
  assert (0 ≤ b' ≤ b) as Hb'.
  { unfold b'. case_decide as H; [|lia]. destruct H as [H%find_ge ?]. lia. }
  destruct (IH b') as (Hrange & Hleast & Hfound); [lia|].
  split; [lia|]. split.
  - intros t [->|Ht]%elem_of_cons Hne; [|by apply Hleast].
    unfold b' in *. case_decide as H; [lia|].
    assert (b ≤ find text_lower u); [|lia].
    destruct (decide (find text_lower u < b)); [|lia]. destruct H. by split.
  - destruct Hfound as [->|(t & Ht & Hf)].
    + unfold b'. case_decide; [|by left]. right. exists u. split; [left|done].
    + right. exists t. split; [by right|done].
Qed.

Lemma slice_bound_in n i : 0 ≤ i ≤ n → slice_bound n i = i.
Proof. intros ?. unfold slice_bound. rewrite decide_False by lia. lia. Qed.

(** A slice between two positions of the string. *)
Lemma str_slice_in s a b :
  0 ≤ a ≤ b → b ≤ len s →
  str_slice s a b = substring (Z.to_nat a) (Z.to_nat (b - a)) s.
Proof. intros ??. unfold str_slice. by rewrite !slice_bound_in by lia. Qed.

Lemma length_str_slice s a b :
  0 ≤ a ≤ b → (Z.of_nat (String.length (str_slice s a b)) ≤ b - a).
Proof.
  intros ?. unfold str_slice.
  pose proof (length_substring_le (Z.to_nat (slice_bound (len s) a))
    (Z.to_nat (slice_bound (len s) b - slice_bound (len s) a)) s) as Hle.
  assert (slice_bound (len s) b - slice_bound (len s) a ≤ b - a); [|lia].
  unfold slice_bound, len. rewrite !decide_False by lia. lia.
Qed.

(** The snippet is never longer than [max_length] and the two "...". *)
Lemma extract_snippet_length text query max_length :
  50 ≤ max_length →
  Z.of_nat (String.length (extract_snippet text query max_length)) ≤ max_length + 6.
Proof.
  intros Hml. unfold extract_snippet.
  destruct (query_terms query) as [|t terms] eqn:Hterms.
  - case_decide.
    + rewrite length_append. pose proof (length_str_slice text 0 max_length).
      simpl. lia.
    + unfold len in *. lia.
  - set (best := best_position (lower text) (t :: terms) (len text)).
    destruct (best_position_spec (lower text) (t :: terms) (len text))
      as (Hrange & _); [unfold len; lia|]. fold best in Hrange.
    pose proof (length_str_slice text (Z.max 0 (best - 50))
                  (Z.min (len text) (best + max_length - 50))) as Hlen.
    repeat case_decide; rewrite ?length_append; simpl; lia.
Qed.

End snippet_facts.

Section occurrence_facts.
Import Preprocess Main.

Lemma occurs_at_list sub s i :
  occurs_at sub s i
  ↔ i + length (list_ascii_of_string sub) ≤ length (list_ascii_of_string s)
    ∧ take (length (list_ascii_of_string sub)) (drop i (list_ascii_of_string s))
      = list_ascii_of_string sub.
Proof.
  unfold occurs_at. rewrite !length_list_ascii. split.
  - intros [? Hs]. split; [done|]. by rewrite <-list_ascii_substring, Hs.
  - intros [? Hs]. split; [done|]. apply list_ascii_inj.
    by rewrite list_ascii_substring.
Qed.

Lemma occurs_at_empty s : occurs_at EmptyString s 0.
Proof. split; [simpl; lia|by destruct s]. Qed.

Lemma occurs_at_app_r sub s post i :
  occurs_at sub s i → occurs_at sub (String.append s post) i.
Proof.
  rewrite !occurs_at_list, list_ascii_append, length_app. intros [Hle Hs].
  split; [lia|]. rewrite drop_app_le by lia. rewrite take_app_le; [done|].
  rewrite length_drop. lia.
Qed.

Lemma occurs_at_app_l sub pre s i :
  occurs_at sub s i → occurs_at sub (String.append pre s) (String.length pre + i).
Proof.
  rewrite !occurs_at_list, list_ascii_append, length_app, <-length_list_ascii.
  intros [Hle Hs]. split; [lia|]. by rewrite drop_app_add.
Qed.

(** An occurrence in the lower-cased text is one in the lower-cased part
    of the text that holds it. *)
Lemma occurs_at_substring sub s a b p :
  occurs_at sub (lower s) p →
  a ≤ p → p + String.length sub ≤ b → b ≤ String.length s →
  occurs_at sub (lower (substring a (b - a) s)) (p - a).
Proof.
  rewrite !occurs_at_list, !list_ascii_lower, list_ascii_substring, !length_fmap.
  rewrite <-(length_list_ascii sub), <-(length_list_ascii s).
  set (k := length (list_ascii_of_string sub)).
  set (L := list_ascii_of_string s).
  intros [Hle Hs] Ha Hb Hlen.
  rewrite length_take, length_drop. split; [lia|].
  rewrite <-Hs, <-!fmap_drop, <-!fmap_take. f_equal.
  rewrite (take_drop_commute L (b - a) a), drop_drop.
  replace (a + (b - a)) with b by lia. replace (a + (p - a)) with p by lia.
  rewrite (take_drop_commute (take b L) k p), take_take.
  replace ((p + k) `min` b) with (p + k) by lia.
  by rewrite <-take_drop_commute.
Qed.

Lemma substring_full s : substring 0 (String.length s) s = s.
Proof. induction s as [|c r IH]; simpl; [done|]. by rewrite IH. Qed.

End occurrence_facts.

Section snippet_shape.
Import Preprocess Main.
Local Open Scope Z_scope.

(** The snippet when no query word occurs in the text. *)
Lemma extract_snippet_no_match text query max_length :
  50 ≤ max_length →
  query_terms query ≠ [] →
  (∀ t, t ∈ query_terms query → find (lower text) t = -1) →
  extract_snippet text query max_length
  = if decide (50 < len text)
    then String.append "..." (substring (String.length text - 50) 50 text)
    else text.
Proof.
  intros Hml Hne Hnone. unfold extract_snippet.
  destruct (query_terms query) as [|t terms] eqn:Hterms; [done|].
  set (best := best_position (lower text) (t :: terms) (len text)).
  destruct (best_position_spec (lower text) (t :: terms) (len text))
    as (Hrange & _ & Hfound); [unfold len; lia|]. fold best in Hrange, Hfound.
  assert (best = len text) as ->.
  { destruct Hfound as [?|(u & Hu & Hf)]; [done|]. rewrite Hnone in Hf by done. lia. }
  rewrite Z.min_l by lia.
  rewrite (decide_False (P := (len text < len text))) by lia.
  case_decide as H50.
  - rewrite decide_True by lia. f_equal.
    rewrite str_slice_in by lia. f_equal; unfold len in *; lia.
  - rewrite decide_False by lia. rewrite Z.max_l by lia.
    rewrite str_slice_in by lia.
    replace (Z.to_nat (len text - 0)) with (String.length text) by (unfold len; lia).
    apply substring_full.
Qed.

(** The snippet when a query word occurs in the text. *)
Lemma extract_snippet_match text query max_length t :
  50 ≤ max_length →
  t ∈ query_terms query →
  find (lower text) t ≠ -1 →
  Forall (λ u, Z.of_nat (String.length u) ≤ max_length - 50) (query_terms query) →
  ∃ u i, u ∈ query_terms query
    ∧ occurs_at u (lower text) (Z.to_nat (find (lower text) u))
    ∧ occurs_at u (lower (extract_snippet text query max_length)) i.
Proof.
  intros Hml Ht Hfind Hshort. unfold extract_snippet.
  destruct (query_terms query) as [|t0 terms] eqn:Hterms; [by apply elem_of_nil in Ht|].
  set (best := best_position (lower text) (t0 :: terms) (len text)).
  destruct (best_position_spec (lower text) (t0 :: terms) (len text))
    as (Hrange & Hleast & Hfound); [unfold len; lia|].
  fold best in Hrange, Hleast, Hfound.
  assert (∃ u (p : nat), u ∈ t0 :: terms ∧ find (lower text) u = Z.of_nat p
            ∧ occurs_at u (lower text) p ∧ best = Z.of_nat p) as (u & p & Hu & Hfu & Hocc & Hbest).
  { destruct Hfound as [Hlen|(u & Hu & Hf)].
    - destruct (find_spec (lower text) t) as [?|(m & Hm & Hocc)]; [done|].
      specialize (Hleast t Ht Hfind).
      exists t, m. split; [done|]. split; [done|]. split; [done|].
      destruct Hocc as [Hle _]. rewrite length_lower in Hle. unfold len in *. lia.
    - destruct (find_spec (lower text) u) as [Hnone|(m & Hm & Hocc)]; [lia|].
      exists u, m. split; [done|]. split; [done|]. split; [done|]. lia. }
  exists u. rewrite Hfu, Nat2Z.id.
  rewrite Forall_forall in Hshort. specialize (Hshort u Hu).
  destruct Hocc as [Hle Hsub]. rewrite length_lower in Hle.
  set (start := Z.max 0 (best - 50)). set (end_ := Z.min (len text) (best + max_length - 50)).
  assert (0 ≤ start ≤ Z.of_nat p) as Hstart by (unfold start; lia).
  assert (Z.of_nat p + Z.of_nat (String.length u) ≤ end_ ≤ len text) as Hend.
  { unfold end_, len. lia. }
  assert (occurs_at u (lower (str_slice text start end_)) (p - Z.to_nat start)) as Hcore.
  { rewrite str_slice_in by lia.
    replace (Z.to_nat (end_ - start)) with (Z.to_nat end_ - Z.to_nat start)%nat by lia.
    apply occurs_at_substring; [|lia|lia|unfold len in *; lia].
    split; [by rewrite length_lower|done]. }
  assert (occurs_at u (lower text) p) as Hocc.
  { split; [by rewrite length_lower|done]. }
  assert (∃ i, occurs_at u
      (lower (if decide (start > 0)
              then String.append "..." (str_slice text start end_)
              else str_slice text start end_)) i) as [i Hi].
  { destruct (decide (start > 0)).
    - eexists. rewrite lower_app. apply occurs_at_app_l, Hcore.
    - by eexists. }
  destruct (decide (end_ < len text)).
  - exists i. split; [done|]. split; [done|].
    rewrite lower_app. by apply occurs_at_app_r.
  - by exists i.
Qed.

End snippet_shape.

(** X25: the snippet that [extract_snippet] returns is never longer than
    [max_length] characters and the two "..." around them, for a
    [max_length] of at least 50 (it is 200 in every call of the code). *)
Theorem X25_snippet_length_bounded (text query : string) (max_length : Z) :
  (50 ≤ max_length)%Z →
  (Z.of_nat (String.length (Main.extract_snippet text query max_length))
   ≤ max_length + 6)%Z.
Proof. apply extract_snippet_length. Qed.

(** X26: when the query has words and none of them occurs in the text,
    [extract_snippet] returns the end of the text: "..." and the last 50
    characters, or the whole text when it has at most 50 characters. *)
Theorem X26_snippet_without_match_is_end_of_text (text query : string)
    (max_length : Z) :
  (50 ≤ max_length)%Z →
  Main.query_terms query ≠ [] →
  (∀ t, t ∈ Main.query_terms query
        → Main.find (Preprocess.lower text) t = (-1)%Z) →
  Main.extract_snippet text query max_length
  = if decide (50 < Main.len text)%Z
    then String.append "..." (substring (String.length text - 50) 50 text)
    else text.
Proof. apply extract_snippet_no_match. Qed.

(** X27: for a text and a query of code points below 256 (where
    [text.lower()] has the length of [text], so that a position found in
    the one is a position of the other): when a word of the query occurs
    in the text (whatever the case of the letters), the snippet of
    [extract_snippet] shows an occurrence of a word of the query, provided
    that no word of the query is longer than [max_length - 50]
    characters. *)
Theorem X27_snippet_shows_a_query_word (text query : string) (max_length : Z)
    (t : string) :
  (50 ≤ max_length)%Z →
  t ∈ Main.query_terms query →
  Main.find (Preprocess.lower text) t ≠ (-1)%Z →
  Forall (λ u, (Z.of_nat (String.length u) ≤ max_length - 50)%Z)
         (Main.query_terms query) →
  ∃ u i, u ∈ Main.query_terms query
    ∧ occurs_at u (Preprocess.lower text)
        (Z.to_nat (Main.find (Preprocess.lower text) u))
    ∧ occurs_at u
        (Preprocess.lower (Main.extract_snippet text query max_length)) i.
Proof. apply extract_snippet_match. Qed.

(** X25 at a sample text and the default [max_length]. *)
Lemma X25_witness :
  (50 ≤ 200)%Z
  ∧ (Z.of_nat (String.length
                 (Main.extract_snippet "Search engines index documents" "engines" 200))
     ≤ 200 + 6)%Z.
Proof.
  split; [lia|].
  apply (X25_snippet_length_bounded "Search engines index documents" "engines" 200).
  lia.
Defined.

(** X26 at a text without the word "zebra". *)
Lemma X26_witness :
  Main.query_terms "zebra" ≠ []
  ∧ (∀ t, t ∈ Main.query_terms "zebra"
          → Main.find (Preprocess.lower "Search engines index documents") t = (-1)%Z)
  ∧ Main.extract_snippet "Search engines index documents" "zebra" 200
    = if decide (50 < Main.len "Search engines index documents")%Z
      then String.append "..."
             (substring (String.length "Search engines index documents" - 50) 50
                "Search engines index documents")
      else "Search engines index documents".
Proof.
  assert (Main.query_terms "zebra" ≠ []) as Hne by (by vm_compute).
  assert (∀ t, t ∈ Main.query_terms "zebra"
            → Main.find (Preprocess.lower "Search engines index documents") t = (-1)%Z)
    as Hnone.
  { intros t Ht. change (Main.query_terms "zebra") with ["zebra"] in Ht.
    apply list_elem_of_singleton in Ht as ->. by vm_compute. }
  split; [exact Hne|]. split; [exact Hnone|].
  apply (X26_snippet_without_match_is_end_of_text
           "Search engines index documents" "zebra" 200); [lia|exact Hne|exact Hnone].
Defined.

(** X27 at a text with the word "engines". *)
Lemma X27_witness :
  "engines" ∈ Main.query_terms "Engines"
  ∧ Main.find (Preprocess.lower "Search engines index documents") "engines" ≠ (-1)%Z
  ∧ ∃ u i, u ∈ Main.query_terms "Engines"
      ∧ occurs_at u (Preprocess.lower "Search engines index documents")
          (Z.to_nat (Main.find (Preprocess.lower "Search engines index documents") u))
      ∧ occurs_at u
          (Preprocess.lower
             (Main.extract_snippet "Search engines index documents" "Engines" 200)) i.
Proof.
  assert ("engines" ∈ Main.query_terms "Engines") as Ht.
  { change (Main.query_terms "Engines") with ["engines"]. left. }
  assert (Main.find (Preprocess.lower "Search engines index documents") "engines"
          ≠ (-1)%Z) as Hfind by (by vm_compute).
  split; [exact Ht|]. split; [exact Hfind|].
  apply (X27_snippet_shows_a_query_word "Search engines index documents" "Engines" 200
           "engines"); [lia|exact Ht|exact Hfind|].
  change (Main.query_terms "Engines") with ["engines"].
  constructor; [simpl; lia|constructor].
Defined.

(** ** Search within the uploaded document *)

Section finditer_facts.
Import Preprocess Main.

Lemma occurs_at_cons sub c s i :
  occurs_at sub (String c s) (S i) ↔ occurs_at sub s i.
Proof. unfold occurs_at. simpl. split; intros [? ?]; (split; [lia|done]). Qed.

(** The pattern matches at the head of the text when the term occurs
    there, but for the case of the letters. *)
Lemma matches_at_head_spec term text :
  matches_at_head term text = true ↔ occurs_at (lower term) (lower text) 0.
Proof.
  revert text. induction term as [|p term IH]; intros text.
  { simpl. split; [intros _; apply occurs_at_empty|done]. }
  destruct text as [|c text]; simpl.
  { split; [done|]. intros [Hle _]. simpl in Hle. lia. }
  unfold char_matches. rewrite andb_true_iff, bool_decide_eq_true, IH.
  unfold occurs_at. simpl. split.
  - intros [-> [? ->]]. split; [lia|done].
  - intros [? [= -> ?]]. split; [done|]. split; [lia|done].
Qed.

(** The matches that the scan reports from position [pos] on. *)
Lemma finditer_starts_spec term skip pos text :
  term ≠ EmptyString →
  (∀ p, p ∈ finditer_starts term skip pos text →
        pos + skip ≤ p ∧ occurs_at (lower term) (lower text) (p - pos))
  ∧ StronglySorted (λ p q, p + String.length term ≤ q)
      (finditer_starts term skip pos text)
  ∧ (∀ i, skip ≤ i → occurs_at (lower term) (lower text) i →
          ∃ p, p ∈ finditer_starts term skip pos text
            ∧ p ≤ pos + i < p + String.length term).
Proof.
  intros Hne.
  assert (1 ≤ String.length term) as Hn by (destruct term; [done|simpl; lia]).
  assert (String.length (lower term) = String.length term) as Hlow
    by apply length_lower.
  revert skip pos. induction text as [|c rest IH]; intros skip pos.
  { simpl. split; [by intros p ?%elem_of_nil|]. split; [constructor|].
    intros i _ [Hle _]. simpl in Hle. lia. }
  change (lower (String c rest)) with (String (lower_char c) (lower rest)).
  destruct skip as [|skip].
  - cbn [finditer_starts].
    destruct (matches_at_head term (String c rest)) eqn:Hm.
    + destruct (IH (String.length term - 1) (S pos)) as (Hin & Hsorted & Hall).
      apply matches_at_head_spec in Hm.
      change (lower (String c rest)) with (String (lower_char c) (lower rest)) in Hm.
      split; [|split].
      * intros p [->|Hp]%elem_of_cons.
        -- split; [lia|]. by rewrite Nat.sub_diag.
        -- destruct (Hin p Hp) as [Hle Hocc]. split; [lia|].
           replace (p - pos) with (S (p - S pos)) by lia. by apply occurs_at_cons.
      * constructor; [done|]. apply Forall_forall. intros q Hq.
        destruct (Hin q Hq) as [Hle _]. lia.
      * intros i _ Hocc. destruct (decide (i < String.length term)) as [Hlt|Hge].
        -- exists pos. split; [left|lia].
        -- destruct i as [|i]; [lia|]. apply occurs_at_cons in Hocc.
           destruct (Hall i) as (p & Hp & Hrange); [lia|done|].
           exists p. split; [by right|lia].
    + destruct (IH 0 (S pos)) as (Hin & Hsorted & Hall).
      split; [|split; [done|]].
      * intros p Hp. destruct (Hin p Hp) as [Hle Hocc]. split; [lia|].
        replace (p - pos) with (S (p - S pos)) by lia. by apply occurs_at_cons.
      * intros i _ Hocc. destruct i as [|i].
        -- apply (matches_at_head_spec term (String c rest)) in Hocc. congruence.
        -- apply occurs_at_cons in Hocc.
           destruct (Hall i) as (p & Hp & Hrange); [lia|done|].
           exists p. split; [done|lia].
  - cbn [finditer_starts].
    destruct (IH skip (S pos)) as (Hin & Hsorted & Hall).
    split; [|split; [done|]].
    + intros p Hp. destruct (Hin p Hp) as [Hle Hocc]. split; [lia|].
      replace (p - pos) with (S (p - S pos)) by lia. by apply occurs_at_cons.
    + intros i Hi Hocc. destruct i as [|i]; [lia|]. apply occurs_at_cons in Hocc.
      destruct (Hall i) as (p & Hp & Hrange); [lia|done|].
      exists p. split; [done|lia].
Qed.

End finditer_facts.

(** X28: [find_term_positions] returns, in ascending order, positions at
    which the term occurs in the text but for the case of the letters;
    two of them are at least the length of the term apart, and every
    occurrence of the term in the text overlaps one that is returned (the
    scan goes on behind a match).  For the empty term it returns
    nothing. *)
Theorem X28_find_term_positions_are_occurrences (text term : string) :
  (∀ p, p ∈ Main.find_term_positions text term →
        occurs_at (Preprocess.lower term) (Preprocess.lower text) p)
  ∧ StronglySorted (λ p q, p + String.length term ≤ q)
      (Main.find_term_positions text term)
  ∧ (∀ i, term ≠ EmptyString →
          occurs_at (Preprocess.lower term) (Preprocess.lower text) i →
          ∃ p, p ∈ Main.find_term_positions text term
            ∧ p ≤ i < p + String.length term)
  ∧ (term = EmptyString → Main.find_term_positions text term = []).
Proof.
  destruct (decide (term = EmptyString)) as [->|Hne].
  { simpl. split; [by intros p ?%elem_of_nil|]. split; [constructor|]. by split. }
  destruct (finditer_starts_spec term 0 0 text Hne) as (Hin & Hsorted & Hall).
  assert (Main.find_term_positions text term = Main.finditer_starts term 0 0 text)
    as -> by (by destruct term).
  split; [|split; [done|split; [|done]]].
  - intros p Hp. destruct (Hin p Hp) as [_ Hocc]. by rewrite Nat.sub_0_r in Hocc.
  - intros i _ Hocc. destruct (Hall i) as (p & Hp & Hrange); [lia|done|].
    exists p. split; [done|lia].
Qed.

Section search_document_facts.
Import Preprocess Main.

Lemma matches_at_head_lower term text :
  matches_at_head (lower term) text = matches_at_head term text.
Proof.
  revert text. induction term as [|p term IH]; intros text; [done|].
  destruct text as [|c text]; [done|]. simpl.
  unfold char_matches. by rewrite lower_char_idemp, IH.
Qed.

Lemma finditer_starts_lower term skip pos text :
  finditer_starts (lower term) skip pos text = finditer_starts term skip pos text.
Proof.
  revert skip pos. induction text as [|c rest IH]; intros skip pos; [done|].
  cbn [finditer_starts]. destruct skip as [|skip]; [|apply IH].
  by rewrite matches_at_head_lower, length_lower, !IH.
Qed.

(** The positions do not depend on the case of the letters of the term. *)
Lemma find_term_positions_lower text term :
  find_term_positions text (lower term) = find_term_positions text term.
Proof.
  destruct term as [|p term]; [done|].
  apply (finditer_starts_lower (String p term)).
Qed.

Lemma find_term_positions_same_lower text w1 w2 :
  lower w1 = lower w2 → find_term_positions text w1 = find_term_positions text w2.
Proof.
  intros H. by rewrite <-(find_term_positions_lower text w1), H,
    find_term_positions_lower.
Qed.

Lemma total_matches_concat matches :
  total_matches matches = length (concat (m_positions <$> matches)).
Proof.
  induction matches as [|m matches IH]; [done|].
  rewrite fmap_cons. cbn [concat]. rewrite length_app, <-IH. done.
Qed.

(** The loop over the words of the query. *)
Lemma match_words_spec document words :
  let r := foldl (match_word document) ([], ∅) words in
  (∀ m, m ∈ r.1 →
        m_term m ∈ words
        ∧ m_positions m = find_term_positions document (m_term m)
        ∧ m_positions m ≠ []
        ∧ lower (m_term m) ∈ r.2)
  ∧ NoDup ((λ m, lower (m_term m)) <$> r.1)
  ∧ (∀ w, w ∈ words → find_term_positions document w ≠ [] →
          ∃ m, m ∈ r.1 ∧ lower (m_term m) = lower w)
  ∧ (∀ x, x ∈ r.2 → ∃ w, w ∈ words ∧ w ≠ EmptyString ∧ x = lower w).
Proof.
  induction words as [|w words IH] using rev_ind.
  { simpl. split; [by intros m ?%elem_of_nil|]. split; [constructor|].
    split; [by intros w ?%elem_of_nil|]. by intros x ?%elem_of_empty. }
  cbv zeta in *. rewrite foldl_snoc.
  destruct (foldl (match_word document) ([], ∅) words) as [matches seen].
  destruct IH as (Hin & Hnd & Hall & Hseen). simpl in Hin, Hnd, Hall, Hseen.
  assert (∀ m, m ∈ matches →
            m_term m ∈ words ++ [w]
            ∧ m_positions m = find_term_positions document (m_term m)
            ∧ m_positions m ≠ []) as Hin1.
  { intros m Hm. destruct (Hin m Hm) as (? & ? & ? & _).
    split; [apply elem_of_app; by left|done]. }
  assert (∀ x, x ∈ seen → ∃ w', w' ∈ words ++ [w] ∧ w' ≠ EmptyString ∧ x = lower w')
    as Hseen1.
  { intros x Hx. destruct (Hseen x Hx) as (w' & ? & ? & ?). exists w'.
    split; [apply elem_of_app; by left|done]. }
  assert (w ∈ words ++ [w]) as Hlast by (apply elem_of_app; right; left).
  unfold match_word.
  destruct (decide (0 < String.length w ∧ lower w ∉ seen)) as [[Hlen Hnew]|Hold].
  - assert (w ≠ EmptyString) as Hw by (intros ->; simpl in Hlen; lia).
    assert (∀ x, x ∈ seen ∪ {[lower w]} →
              ∃ w', w' ∈ words ++ [w] ∧ w' ≠ EmptyString ∧ x = lower w') as Hseen2.
    { intros x [Hx| ->%elem_of_singleton]%elem_of_union; [by apply Hseen1|].
      by exists w. }
    destruct (find_term_positions document w) as [|p ps] eqn:Hpos; simpl.
    + split; [|split; [done|split; [|done]]].
      * intros m Hm. destruct (Hin1 m Hm) as (? & ? & ?).
        destruct (Hin m Hm) as (_ & _ & _ & ?).
        split; [done|]. split; [done|]. split; [done|]. apply elem_of_union. by left.
      * intros w' [Hw'| ->%list_elem_of_singleton]%elem_of_app Hne; [by apply Hall|].
        by rewrite Hpos in Hne.
    + split; [|split; [|split; [|done]]].
      * intros m [Hm|Hm]%elem_of_app.
        -- destruct (Hin1 m Hm) as (? & ? & ?).
           destruct (Hin m Hm) as (_ & _ & _ & ?).
           split; [done|]. split; [done|]. split; [done|]. apply elem_of_union. by left.
        -- apply list_elem_of_singleton in Hm as ->. simpl.
           split; [done|]. split; [done|]. split; [done|].
           apply elem_of_union. right. by apply elem_of_singleton.
      * rewrite fmap_app. apply NoDup_app. split; [done|]. split; [|apply NoDup_singleton].
        intros x Hx1 Hx2. simpl in Hx2. apply list_elem_of_singleton in Hx2 as ->.
        apply list_elem_of_fmap in Hx1 as (m & Heq & Hm). apply Hnew. rewrite Heq.
        by destruct (Hin m Hm) as (_ & _ & _ & ?).
      * intros w' [Hw'| ->%list_elem_of_singleton]%elem_of_app Hne.
        -- destruct (Hall w' Hw' Hne) as (m & ? & ?). exists m.
           split; [apply elem_of_app; by left|done].
        -- eexists. split; [apply elem_of_app; right; left|done].
  - simpl. split; [|split; [done|split; [|done]]].
    + intros m Hm. destruct (Hin1 m Hm) as (? & ? & ?).
      by destruct (Hin m Hm) as (_ & _ & _ & ?).
    + intros w' [Hw'| ->%list_elem_of_singleton]%elem_of_app Hne; [by apply Hall|].
      assert (w ≠ EmptyString) as Hw.
      { intros ->. by destruct Hne. }
      assert (lower w ∈ seen) as Hs.
      { destruct (decide (lower w ∈ seen)); [done|]. destruct Hold. split; [|done].
        destruct w; [done|simpl; lia]. }
      destruct (Hseen _ Hs) as (w0 & Hw0 & _ & Heq).
      destruct (Hall w0 Hw0) as (m & Hm & Hlow).
      { by rewrite <-(find_term_positions_same_lower document w w0 Heq). }
      exists m. split; [done|]. by rewrite Hlow.
Qed.

Lemma search_document_hit st document q a b cached :
  UPLOADED_DOCUMENT st = Some document →
  UPLOADED_DOCUMENT_CACHE st !! Indexer.strip (lower q) = Some cached →
  search_document st q a b
  = (inl (mkSearchResponse q cached (total_matches cached) ((b - a) * 1000)%R "HIT"),
     st).
Proof. intros Hdoc Hc. unfold search_document. by rewrite Hdoc, Hc. Qed.

Lemma search_document_miss st document q a b :
  UPLOADED_DOCUMENT st = Some document →
  UPLOADED_DOCUMENT_CACHE st !! Indexer.strip (lower q) = None →
  search_document st q a b
  = let matches :=
      (foldl (match_word document) ([], ∅) (split (Indexer.strip q))).1 in
    (inl (mkSearchResponse q matches (total_matches matches) ((b - a) * 1000)%R "MISS"),
     mkUpload (Some document)
       (<[Indexer.strip (lower q) := matches]> (UPLOADED_DOCUMENT_CACHE st))).
Proof. intros Hdoc Hc. unfold search_document. by rewrite Hdoc, Hc. Qed.

End search_document_facts.

(** X29: [search_document] answers a repeated query from its cache: when
    a document is loaded and two queries are the same once lower-cased
    and trimmed, the call for the second right after the call for the
    first is a "HIT" that returns the matches and the total of the first
    call (so with the words spelled as in the first query) and leaves the
    cache as it is. *)
Theorem X29_search_document_repeated_query_hits (st : Main.upload_state)
    (document q1 q2 : string) (t1 t2 t3 t4 : R) :
  Main.UPLOADED_DOCUMENT st = Some document →
  Indexer.strip (Preprocess.lower q2) = Indexer.strip (Preprocess.lower q1) →
  ∃ r1 r2,
    (Main.search_document st q1 t1 t2).1 = inl r1
    ∧ (Main.search_document (Main.search_document st q1 t1 t2).2 q2 t3 t4).1 = inl r2
    ∧ Main.sr_cache r2 = "HIT"
    ∧ Main.sr_matches r2 = Main.sr_matches r1
    ∧ Main.sr_total_matches r2 = Main.sr_total_matches r1
    ∧ (Main.search_document (Main.search_document st q1 t1 t2).2 q2 t3 t4).2
      = (Main.search_document st q1 t1 t2).2.
Proof.
  intros Hdoc Hkey.
  destruct (Main.UPLOADED_DOCUMENT_CACHE st !! Indexer.strip (Preprocess.lower q1))
    as [cached|] eqn:Hc.
  - rewrite (search_document_hit st document q1 t1 t2 cached Hdoc Hc). cbn [fst snd].
    rewrite <-Hkey in Hc.
    rewrite (search_document_hit st document q2 t3 t4 cached Hdoc Hc).
    by eexists _, _.
  - rewrite (search_document_miss st document q1 t1 t2 Hdoc Hc). cbv zeta. cbn [fst snd].
    erewrite (search_document_hit _ document q2 t3 t4); [by eexists _, _|done|].
    cbn [Main.UPLOADED_DOCUMENT_CACHE]. by rewrite Hkey, lookup_insert_eq.
Qed.

(** X30: for a document and a query of code points below 256 (where two
    words with the same [lower()] have the same matches under
    [re.IGNORECASE]), what [search_document] computes for a query that is
    not in its cache: every match names a word of the query, with all the
    positions that [find_term_positions] gives for it in the document,
    and has at least one position; no two matches name the same word but
    for the case of the letters; every word of the query that occurs in
    the document is named by a match, up to the case of the letters;
    [total_matches] is the number of all positions; and the matches are
    stored in the cache under the lower-cased and trimmed query. *)
Theorem X30_search_document_lists_query_words (st : Main.upload_state)
    (document q : string) (start_time now : R) :
  Main.UPLOADED_DOCUMENT st = Some document →
  Main.UPLOADED_DOCUMENT_CACHE st !! Indexer.strip (Preprocess.lower q) = None →
  ∃ r,
    (Main.search_document st q start_time now).1 = inl r
    ∧ Main.sr_cache r = "MISS"
    ∧ (∀ m, m ∈ Main.sr_matches r →
            Main.m_term m ∈ Preprocess.split (Indexer.strip q)
            ∧ Main.m_positions m = Main.find_term_positions document (Main.m_term m)
            ∧ Main.m_positions m ≠ [])
    ∧ NoDup ((λ m, Preprocess.lower (Main.m_term m)) <$> Main.sr_matches r)
    ∧ (∀ w, w ∈ Preprocess.split (Indexer.strip q) →
            Main.find_term_positions document w ≠ [] →
            ∃ m, m ∈ Main.sr_matches r
              ∧ Preprocess.lower (Main.m_term m) = Preprocess.lower w)
    ∧ Main.sr_total_matches r
      = length (concat (Main.m_positions <$> Main.sr_matches r))
    ∧ Main.UPLOADED_DOCUMENT_CACHE (Main.search_document st q start_time now).2
        !! Indexer.strip (Preprocess.lower q)
      = Some (Main.sr_matches r).
Proof.
  intros Hdoc Hc. rewrite (search_document_miss st document q start_time now Hdoc Hc).
  cbv zeta. eexists. split; [done|].
  cbn [snd Main.sr_cache Main.sr_matches Main.sr_total_matches Main.UPLOADED_DOCUMENT_CACHE].
  destruct (match_words_spec document (Preprocess.split (Indexer.strip q)))
    as (Hin & Hnd & Hall & _).
  split; [done|]. split; [|split; [done|split; [done|split]]].
  - intros m Hm. by destruct (Hin m Hm) as (? & ? & ? & _).
  - apply total_matches_concat.
  - by rewrite lookup_insert_eq.
Qed.

(** X29 at a sample document and two spellings of a query. *)
Lemma X29_witness :
  let st := Main.mkUpload (Some "Search engines index documents. Search!") ∅ in
  Main.UPLOADED_DOCUMENT st = Some "Search engines index documents. Search!"
  ∧ Indexer.strip (Preprocess.lower " SEARCH Engines ")
    = Indexer.strip (Preprocess.lower "search engines")
  ∧ ∃ r1 r2,
      (Main.search_document st "search engines" 0 1).1 = inl r1
      ∧ (Main.search_document (Main.search_document st "search engines" 0 1).2
           " SEARCH Engines " 1 2).1 = inl r2
      ∧ Main.sr_cache r2 = "HIT"
      ∧ Main.sr_matches r2 = Main.sr_matches r1
      ∧ Main.sr_total_matches r2 = Main.sr_total_matches r1
      ∧ (Main.search_document (Main.search_document st "search engines" 0 1).2
           " SEARCH Engines " 1 2).2
        = (Main.search_document st "search engines" 0 1).2.
Proof.
  intros st.
  assert (Main.UPLOADED_DOCUMENT st = Some "Search engines index documents. Search!")
    as Hdoc by reflexivity.
  assert (Indexer.strip (Preprocess.lower " SEARCH Engines ")
          = Indexer.strip (Preprocess.lower "search engines")) as Hkey
    by (by vm_compute).
  split; [exact Hdoc|]. split; [exact Hkey|].
  exact (X29_search_document_repeated_query_hits st
           "Search engines index documents. Search!" "search engines"
           " SEARCH Engines " 0 1 1 2 Hdoc Hkey).
Defined.

(** X30 at the same document and the query "search Zebra SEARCH". *)
Lemma X30_witness :
  let st := Main.mkUpload (Some "Search engines index documents. Search!") ∅ in
  Main.UPLOADED_DOCUMENT st = Some "Search engines index documents. Search!"
  ∧ Main.UPLOADED_DOCUMENT_CACHE st
      !! Indexer.strip (Preprocess.lower "search Zebra SEARCH") = None
  ∧ ∃ r,
      (Main.search_document st "search Zebra SEARCH" 0 1).1 = inl r
      ∧ Main.sr_cache r = "MISS"
      ∧ NoDup ((λ m, Preprocess.lower (Main.m_term m)) <$> Main.sr_matches r)
      ∧ Main.sr_total_matches r
        = length (concat (Main.m_positions <$> Main.sr_matches r)).
Proof.
  intros st.
  assert (Main.UPLOADED_DOCUMENT st = Some "Search engines index documents. Search!")
    as Hdoc by reflexivity.
  assert (Main.UPLOADED_DOCUMENT_CACHE st
            !! Indexer.strip (Preprocess.lower "search Zebra SEARCH") = None) as Hc
    by reflexivity.
  split; [exact Hdoc|]. split; [exact Hc|].
  destruct (X30_search_document_lists_query_words st
              "Search engines index documents. Search!" "search Zebra SEARCH" 0 1
              Hdoc Hc) as (r & Hr & Hmiss & _ & Hnd & _ & Htotal & _).
  exists r. split; [exact Hr|]. split; [exact Hmiss|]. split; [exact Hnd|exact Htotal].
Defined.
